(** * ollama-ha-proxy: the streaming job pipeline

    A shallow embedding of the Worker (worker/main.go) and of the Gateway
    (gateway/main.go) of the two-tier proxy, and the properties of the
    job pipeline proved, or refuted, on it.

    Modelling conventions.
    - Go [int] values are [Z].  The counters of the program move by one
      at a time; the products of configured values ([concurrency * 2],
      [retryDelay * 2], a number of milliseconds as a [time.Duration])
      are written with the wrap-around of a 64-bit [int] ([int_wrap]),
      and [Atoi] with its range check.
    - Go strings are [string] (sequences of bytes, UTF-8 where the code
      reads them as text).
    - The Redis server is modelled by its keyspace.  Every command the
      program issues is one atomic transition of that keyspace.  In the
      programs of the goroutines ([Prog]) every command succeeds; the
      executor is modelled a second time with replies that may fail
      ([Fallible]), with the branches of the source that handle such a
      failure.  EXPIRE records the time to live of a key; time is not
      measured, so the server may remove such a key at any later moment
      ([Expired]).
    - The code of a goroutine is a tree of atomic commands ([Prog]): the
      Redis commands, the critical sections of the Worker's mutex, the
      operations on its channel, and the calls to the clock and to the
      inference backend.  The same tree is run to completion ([run])
      for properties of one call, and interleaved with the other
      goroutines, command by command ([sys_step]), for properties of
      every reachable state.
    - What the environment decides is an input: the decoded body of a
      request, the value drawn by [uuid.New()] (never the same twice),
      the clock, the answer of the backend, the JSON decoder of the
      stream, and, for the Gateway, the outcome of each poll. *)

From Stdlib Require Import ZArith String Ascii List Lia.
From stdpp Require Import base option gmap strings list sorting pretty.

Local Open Scope Z_scope.

(** ** Data model (worker/main.go, lines 23-88) *)

(** [type JobStatus string] *)
Abbreviation JobStatus := string (only parsing).

Definition StatusQueued : JobStatus := "queued".
Definition StatusRunning : JobStatus := "running".
Definition StatusCompleted : JobStatus := "completed".
Definition StatusFailed : JobStatus := "failed".
Definition StatusCancelled : JobStatus := "cancelled".

(** [Messages] and [Options] hold decoded JSON.  Each message is kept as
    the JSON text [json.Marshal] writes for it.  [Options] is a Go map;
    each entry is kept, under its key, as the JSON text of the key and
    the JSON text of the value, again as [json.Marshal] writes them. *)
Record JobRequest := {
  jr_Model : string;
  jr_Messages : list string;
  jr_Prompt : string;
  jr_Options : gmap string (string * string)
}.

Record JobResponse := {
  jresp_JobID : string;
  jresp_Status : JobStatus
}.

Record ChunkData := {
  Seq : Z;
  Delta : string;
  Done : bool;
  FinishReason : string;
  Error : string
}.

Record EventsResponse := {
  er_Status : JobStatus;
  er_Chunks : list ChunkData
}.

Record StatusResponse := {
  sr_Status : JobStatus;
  sr_CreatedAt : string;
  sr_CompletedAt : string;
  sr_Error : string
}.

Record JobMeta := {
  jm_Status : JobStatus;
  jm_Model : string;
  jm_CreatedAt : string;
  jm_CompletedAt : string;
  jm_Error : string
}.

(** The fields of [OllamaStreamResponse] that the Worker reads. *)
Record OllamaStreamResponse := {
  osr_Content : string;       (* Message.Content *)
  osr_Done : bool;
  osr_DoneReason : string
}.

(** ** Strings (package strings, strconv) *)

(** The white space of [unicode.IsSpace], by its UTF-8 encoding: the
    ASCII characters U+0009 to U+000D and U+0020 in one byte; U+0085 and
    U+00A0 in two bytes; U+1680, U+2000 to U+200A, U+2028, U+2029,
    U+202F, U+205F and U+3000 in three bytes. *)
Definition is_space (c : ascii) : bool :=
  let n := nat_of_ascii c in
  ((9 <=? n)%nat && (n <=? 13)%nat) || (n =? 32)%nat.

Definition byte_is (c : ascii) (n : N) : bool := (N_of_ascii c =? n)%N.

Definition is_space2 (c1 c2 : ascii) : bool :=
  byte_is c1 194 && (byte_is c2 133 || byte_is c2 160).

Definition is_space3 (c1 c2 c3 : ascii) : bool :=
  (byte_is c1 225 && byte_is c2 154 && byte_is c3 128)
  || (byte_is c1 226 && byte_is c2 128
      && ((128 <=? N_of_ascii c3)%N && (N_of_ascii c3 <=? 138)%N
          || byte_is c3 168 || byte_is c3 169 || byte_is c3 175))
  || (byte_is c1 226 && byte_is c2 129 && byte_is c3 159)
  || (byte_is c1 227 && byte_is c2 128 && byte_is c3 128).

(** [strings.TrimLeftFunc(s, unicode.IsSpace)]: a leading character is
    white space exactly when the string starts with one of the
    encodings above, an encoding of a character being unique. *)
Fixpoint trim_left (s : string) : string :=
  match s with
  | EmptyString => EmptyString
  | String c1 r1 =>
      if is_space c1 then trim_left r1
      else
        match r1 with
        | EmptyString => s
        | String c2 r2 =>
            if is_space2 c1 c2 then trim_left r2
            else
              match r2 with
              | EmptyString => s
              | String c3 r3 => if is_space3 c1 c2 c3 then trim_left r3 else s
              end
        end
  end.

(** [strings.TrimRightFunc(s, unicode.IsSpace)], on the bytes of the
    string in reverse order: the last character is white space exactly
    when the string ends with one of the encodings. *)
Fixpoint trim_right_rev (s : string) : string :=
  match s with
  | EmptyString => EmptyString
  | String c1 r1 =>
      if is_space c1 then trim_right_rev r1
      else
        match r1 with
        | EmptyString => s
        | String c2 r2 =>
            if is_space2 c2 c1 then trim_right_rev r2
            else
              match r2 with
              | EmptyString => s
              | String c3 r3 => if is_space3 c3 c2 c1 then trim_right_rev r3 else s
              end
        end
  end.

(** [strings.TrimSpace]. *)
Definition TrimSpace (s : string) : string :=
  String.rev (trim_right_rev (String.rev (trim_left s))).

Fixpoint HasPrefix (s prefix : string) : bool :=
  match prefix, s with
  | EmptyString, _ => true
  | String p prefix', String c s' =>
      if Ascii.eqb p c then HasPrefix s' prefix' else false
  | String _ _, EmptyString => false
  end.

Fixpoint drop_bytes (n : nat) (s : string) : string :=
  match n, s with
  | O, _ => s
  | S n', String _ s' => drop_bytes n' s'
  | S _, EmptyString => EmptyString
  end.

Definition TrimPrefix (s prefix : string) : string :=
  if HasPrefix s prefix then drop_bytes (String.length prefix) s else s.

Definition digit_of (c : ascii) : option Z :=
  let n := nat_of_ascii c in
  if ((48 <=? n)%nat && (n <=? 57)%nat)%bool
  then Some (Z.of_nat n - 48) else None.

Fixpoint parse_digits (s : string) (acc : Z) : option Z :=
  match s with
  | EmptyString => Some acc
  | String c rest =>
      match digit_of c with
      | Some d => parse_digits rest (10 * acc + d)
      | None => None
      end
  end.

Definition MaxInt : Z := 2 ^ 63 - 1.
Definition MinInt : Z := - 2 ^ 63.

(** The value of an arithmetic expression of type [int] (or [int64]):
    the result modulo 2^64, in the range of the type. *)
Definition int_wrap (z : Z) : Z := (z - MinInt) mod 2 ^ 64 + MinInt.

(** [strconv.Atoi] on a 64-bit platform: an optional sign, at least one
    decimal digit, nothing else, and a value that fits an [int]. *)
Definition Atoi (s : string) : option Z :=
  let '(neg, digits) :=
    match s with
    | String "-" rest => (true, rest)
    | String "+" rest => (false, rest)
    | _ => (false, s)
    end in
  match digits with
  | EmptyString => None
  | _ =>
      match parse_digits digits 0 with
      | Some n =>
          let v := if neg : bool then - n else n in
          if (MinInt <=? v) && (v <=? MaxInt) then Some v else None
      | None => None
      end
  end.

(** [time.Hour], a [time.Duration] in nanoseconds. *)
Definition Hour : Z := 3600 * 1000000000.

(** [fmt.Sprintf] with the verb [%d]. *)
Definition fmt_d (n : Z) : string := pretty n.

(** [json.Marshal] of a slice and of a map whose elements are already
    JSON text.  The entries of a map are written in the order of their
    keys, compared byte by byte. *)
Fixpoint join (sep : string) (l : list string) : string :=
  match l with
  | [] => ""
  | [x] => x
  | x :: rest => x +:+ sep +:+ join sep rest
  end.

Definition json_array (items : list string) : string :=
  "[" +:+ join "," items +:+ "]".

Definition dquote : string := String (ascii_of_nat 34) EmptyString.

Fixpoint insert_by_key {A} (kv : string * A) (l : list (string * A)) : list (string * A) :=
  match l with
  | [] => [kv]
  | x :: rest =>
      if String.ltb (fst kv) (fst x) then kv :: l else x :: insert_by_key kv rest
  end.

Definition sort_by_key {A} (l : list (string * A)) : list (string * A) :=
  foldr insert_by_key [] l.

Definition json_object (fields : gmap string (string * string)) : string :=
  "{" +:+ join ","
            (map (fun kv => fst (snd kv) +:+ ":" +:+ snd (snd kv))
               (sort_by_key (map_to_list fields)))
  +:+ "}".

(** ** The Redis keyspace

    The program uses three families of keys per job, each with one type
    of value.  The keyspace is kept as one map per type of value, each
    indexed by the full key; the three key shapes end differently, so a
    key never occurs in two of the maps.  An entry of a list is written
    by [AddChunk] as the JSON encoding of a [ChunkData] and decoded
    again by [GetChunks]; it is represented by the chunk it encodes. *)

Record Store := {
  hashes : gmap string (gmap string string);
  lists : gmap string (list ChunkData);
  counters : gmap string Z;
  expiring : gmap string Z      (* the time to live set on a key, a time.Duration *)
}.

Definition empty_store : Store :=
  {| hashes := ∅; lists := ∅; counters := ∅; expiring := ∅ |}.

Definition key_meta (jobID : string) : string := "job:" +:+ jobID +:+ ":meta".
Definition key_chunks (jobID : string) : string := "job:" +:+ jobID +:+ ":chunks".
Definition key_seq (jobID : string) : string := "job:" +:+ jobID +:+ ":seq".

Definition hash_at (st : Store) (key : string) : gmap string string :=
  default ∅ (hashes st !! key).
Definition list_at (st : Store) (key : string) : list ChunkData :=
  default [] (lists st !! key).
Definition counter_at (st : Store) (key : string) : Z :=
  default 0 (counters st !! key).

(** HSET: later fields overwrite earlier ones; the hash is created when
    the key is missing. *)
Definition set_fields (values : list (string * string)) (h : gmap string string)
    : gmap string string :=
  foldl (fun h kv => <[fst kv := snd kv]> h) h values.

Definition hset (key : string) (values : list (string * string)) (st : Store) : Store :=
  {| hashes := <[key := set_fields values (hash_at st key)]> (hashes st);
     lists := lists st; counters := counters st; expiring := expiring st |}.

Definition rpush (key : string) (item : ChunkData) (st : Store) : Store :=
  {| hashes := hashes st;
     lists := <[key := list_at st key ++ [item]]> (lists st);
     counters := counters st; expiring := expiring st |}.

Definition incr (key : string) (st : Store) : Store :=
  {| hashes := hashes st; lists := lists st;
     counters := <[key := counter_at st key + 1]> (counters st);
     expiring := expiring st |}.

Definition key_exists (st : Store) (key : string) : bool :=
  bool_decide (is_Some (hashes st !! key))
  || bool_decide (is_Some (lists st !! key))
  || bool_decide (is_Some (counters st !! key)).

(** EXPIRE has no effect on a missing key. *)
Definition expire (key : string) (ttl : Z) (st : Store) : Store :=
  if key_exists st key
  then {| hashes := hashes st; lists := lists st; counters := counters st;
          expiring := <[key := ttl]> (expiring st) |}
  else st.

(** The removal of a key whose time to live has run out. *)
Definition remove (key : string) (st : Store) : Store :=
  {| hashes := delete key (hashes st); lists := delete key (lists st);
     counters := delete key (counters st); expiring := delete key (expiring st) |}.

(** ** The inference backend, as the Worker sees it *)

Record OllamaRequest := {
  or_model : string;
  or_messages : string;    (* the stored JSON text, or the empty string *)
  or_options : string
}.

(** The outcome of building and sending the upstream request: one of the
    three errors [processJob] tells apart, or a response with its
    status code and its body.  The body is what [bufio.Scanner] makes of
    it: the lines it yields; the error it meets, if it meets one other
    than the end of the input; and how many of the lines, counted from
    the last one, it yields after it has met that error, from what it
    had read before.  [scanner.Err()] returns the error from the moment
    the scanner has met it. *)
Inductive UpstreamResult :=
| MarshalError (err : string)
| NewRequestError (err : string)
| DoError (err : string)
| Response (StatusCode : Z) (lines : list string) (scanErr : option string) (buffered : nat).

(** ** The Worker's shared memory (worker/main.go, lines 210-240) *)

Record WorkerState := {
  concurrency : Z;
  maxQueueSize : Z;
  queue : list string;               (* the buffer of the channel *)
  cancelled : gmap string bool;
  activeJobs : Z;
  queuedJobs : Z
}.

Definition NewWorker (concurrency : Z) : WorkerState :=
  let maxQueueSize := int_wrap (concurrency * 2) in
  {| concurrency := concurrency; maxQueueSize := maxQueueSize;
     queue := []; cancelled := ∅; activeJobs := 0; queuedJobs := 0 |}.

Record World := {
  storage : Store;
  worker : WorkerState;
  clock : string;                              (* time.Now().Format(time.RFC3339) *)
  ollama : OllamaRequest -> UpstreamResult     (* what the backend answers *)
}.

Definition with_storage (f : Store -> Store) (w : World) : World :=
  {| storage := f (storage w); worker := worker w; clock := clock w; ollama := ollama w |}.

Definition with_worker (f : WorkerState -> WorkerState) (w : World) : World :=
  {| storage := storage w; worker := f (worker w); clock := clock w; ollama := ollama w |}.

Definition set_queue (q : list string) (ws : WorkerState) : WorkerState :=
  {| concurrency := concurrency ws; maxQueueSize := maxQueueSize ws; queue := q;
     cancelled := cancelled ws; activeJobs := activeJobs ws; queuedJobs := queuedJobs ws |}.

Definition set_cancelled (c : gmap string bool) (ws : WorkerState) : WorkerState :=
  {| concurrency := concurrency ws; maxQueueSize := maxQueueSize ws; queue := queue ws;
     cancelled := c; activeJobs := activeJobs ws; queuedJobs := queuedJobs ws |}.

Definition set_counts (active queued : Z) (ws : WorkerState) : WorkerState :=
  {| concurrency := concurrency ws; maxQueueSize := maxQueueSize ws; queue := queue ws;
     cancelled := cancelled ws; activeJobs := active; queuedJobs := queued |}.

(** ** Atomic commands

    One constructor per Redis command the program issues, per critical
    section of [Worker.mu], per channel operation, and per call to the
    environment.  The index is the type of the reply. *)

Inductive Cmd : Type -> Type :=
(* go-redis *)
| HSet (key : string) (values : list (string * string)) : Cmd unit
| HGetAll (key : string) : Cmd (gmap string string)
| HGet (key field : string) : Cmd string
| RPush (key : string) (item : ChunkData) : Cmd unit
| LRange (key : string) : Cmd (list ChunkData)
| Incr (key : string) : Cmd Z
| Expire (key : string) (ttl : Z) : Cmd unit
(* Worker.mu and Worker.queue *)
| LoadStats : Cmd (Z * Z)            (* activeJobs and len(queue), read under the lock *)
| MaxQueueSize : Cmd Z
| Concurrency : Cmd Z
| TrySend (jobID : string) : Cmd bool   (* select { case queue <- jobID: ...; default: ... } *)
| CountQueued : Cmd unit                (* queuedJobs++ *)
| Receive : Cmd string                  (* jobID := <-queue, blocking *)
| CountStarted : Cmd unit               (* activeJobs++; queuedJobs-- *)
| CountFinished : Cmd unit              (* activeJobs-- *)
| MarkCancelled (jobID : string) : Cmd unit
| ReadCancelled (jobID : string) : Cmd bool
(* environment *)
| Now : Cmd string
| OllamaChat (req : OllamaRequest) : Cmd UpstreamResult.

(** [exec c w] is the reply to [c] and the world after it, or [None]
    when [c] cannot proceed in [w] (a receive on the empty channel). *)
Definition exec {X} (c : Cmd X) (w : World) : option (X * World) :=
  match c in Cmd X return option (X * World) with
  | HSet key values => Some (tt, with_storage (hset key values) w)
  | HGetAll key => Some (hash_at (storage w) key, w)
  | HGet key field => Some (default "" (hash_at (storage w) key !! field), w)
  | RPush key item => Some (tt, with_storage (rpush key item) w)
  | LRange key => Some (list_at (storage w) key, w)
  | Incr key => Some (counter_at (storage w) key + 1, with_storage (incr key) w)
  | Expire key ttl => Some (tt, with_storage (expire key ttl) w)
  | LoadStats => Some ((activeJobs (worker w), Z.of_nat (length (queue (worker w)))), w)
  | MaxQueueSize => Some (maxQueueSize (worker w), w)
  | Concurrency => Some (concurrency (worker w), w)
  | TrySend jobID =>
      if Z.of_nat (length (queue (worker w))) <? maxQueueSize (worker w)
      then Some (true, with_worker (set_queue (queue (worker w) ++ [jobID])) w)
      else Some (false, w)
  | CountQueued =>
      Some (tt, with_worker (fun ws => set_counts (activeJobs ws) (queuedJobs ws + 1) ws) w)
  | Receive =>
      match queue (worker w) with
      | jobID :: rest => Some (jobID, with_worker (set_queue rest) w)
      | [] => None
      end
  | CountStarted =>
      Some (tt, with_worker (fun ws => set_counts (activeJobs ws + 1) (queuedJobs ws - 1) ws) w)
  | CountFinished =>
      Some (tt, with_worker (fun ws => set_counts (activeJobs ws - 1) (queuedJobs ws) ws) w)
  | MarkCancelled jobID =>
      Some (tt, with_worker (fun ws => set_cancelled (<[jobID := true]> (cancelled ws)) ws) w)
  | ReadCancelled jobID => Some (default false (cancelled (worker w) !! jobID), w)
  | Now => Some (clock w, w)
  | OllamaChat req => Some (ollama w req, w)
  end.

(** ** Programs *)

Inductive Prog (R : Type) : Type :=
| Ret (r : R)
| Vis {X : Type} (c : Cmd X) (k : X -> Prog R).

Arguments Ret {R} r.
Arguments Vis {R X} c k.

Fixpoint bind {A B} (p : Prog A) (f : A -> Prog B) : Prog B :=
  match p with
  | Ret a => f a
  | Vis c k => Vis c (fun x => bind (k x) f)
  end.

Definition call {X} (c : Cmd X) : Prog X := Vis c Ret.

#[global] Instance Prog_ret : MRet Prog := @Ret.
#[global] Instance Prog_bind : MBind Prog := fun A B f p => bind p f.

(** Running a program to completion, with no other goroutine in between. *)
Fixpoint run {R} (p : Prog R) (w : World) : option (R * World) :=
  match p with
  | Ret r => Some (r, w)
  | Vis c k =>
      match exec c w with
      | Some (x, w') => run (k x) w'
      | None => None
      end
  end.

(** A goroutine running among the others: its k-th command is carried
    out in the k-th world of [ws], whatever the others have made of the
    world since its last command, and leaves the k-th world of the
    result. *)
Fixpoint run_among {R} (p : Prog R) (ws : list World) : option (R * list World) :=
  match p with
  | Ret r => Some (r, [])
  | Vis c k =>
      match ws with
      | [] => None
      | w :: ws' =>
          match exec c w with
          | Some (x, w') =>
              match run_among (k x) ws' with
              | Some (r, after) => Some (r, w' :: after)
              | None => None
              end
          | None => None
          end
      end
  end.

Definition is_empty (s : string) : bool :=
  match s with EmptyString => true | String _ _ => false end.

(** ** Storage (worker/main.go, lines 90-208) *)

Module Storage.

Definition CreateJob (jobID : string) (meta : JobMeta) : Prog unit :=
  let key := key_meta jobID in
  let data := [("status", jm_Status meta); ("model", jm_Model meta);
               ("created_at", jm_CreatedAt meta)] in
  call (HSet key data).

(** What [GetJobMeta] makes of the reply to HGETALL; [None] is the
    error "job not found".  A field that is missing reads as the empty
    string. *)
Definition read_meta (result : gmap string string) : option JobMeta :=
  if (size result =? 0)%nat then None
  else
    Some {| jm_Status := default "" (result !! "status");
            jm_Model := default "" (result !! "model");
            jm_CreatedAt := default "" (result !! "created_at");
            jm_CompletedAt := default "" (result !! "completed_at");
            jm_Error := default "" (result !! "error") |}.

Definition GetJobMeta (jobID : string) : Prog (option JobMeta) :=
  let key := key_meta jobID in
  result ← call (HGetAll key);
  mret (read_meta result).

(** The map [data] that [UpdateJobStatus] writes. *)
Definition status_data (status : JobStatus) (completedAt errorMsg : string)
    : list (string * string) :=
  let data := [("status", status)] in
  let data := if is_empty completedAt then data else data ++ [("completed_at", completedAt)] in
  let data := if is_empty errorMsg then data else data ++ [("error", errorMsg)] in
  data.

Definition UpdateJobStatus (jobID : string) (status : JobStatus)
    (completedAt errorMsg : string) : Prog unit :=
  let key := key_meta jobID in
  call (HSet key (status_data status completedAt errorMsg)).

Definition AddChunk (jobID : string) (chunk : ChunkData) : Prog unit :=
  let key := key_chunks jobID in
  call (RPush key chunk).

(** The loop of [GetChunks] over the items of the list, with the
    slice [chunks] built so far. *)
Fixpoint GetChunks_loop (fromSeq : Z) (result : list ChunkData)
    (chunks : list ChunkData) : list ChunkData :=
  match result with
  | [] => chunks
  | chunk :: rest =>
      if fromSeq <? Seq chunk then
        let chunks := chunks ++ [chunk] in
        if 1000 <=? Z.of_nat (length chunks) then chunks
        else GetChunks_loop fromSeq rest chunks
      else GetChunks_loop fromSeq rest chunks
  end.

Definition GetChunks (jobID : string) (fromSeq : Z) : Prog (list ChunkData) :=
  let key := key_chunks jobID in
  result ← call (LRange key);
  mret (GetChunks_loop fromSeq result []).

Definition IncrSeq (jobID : string) : Prog Z :=
  let key := key_seq jobID in
  call (Incr key).

Definition SetTTL (jobID : string) (ttl : Z) : Prog unit :=
  call (Expire (key_meta jobID) ttl);;
  call (Expire (key_chunks jobID) ttl);;
  call (Expire (key_seq jobID) ttl).

End Storage.

(** ** Worker (worker/main.go, lines 210-448) *)

Module Worker.

(** [None] is the nil error. *)
Definition Enqueue (jobID : string) : Prog (option string) :=
  stats ← call LoadStats;
  let currentActive := fst stats in
  let currentQueued := snd stats in
  let totalLoad := currentActive + currentQueued in
  maxQueueSize ← call MaxQueueSize;
  if maxQueueSize <=? totalLoad then
    mret (Some ("queue full: active=" +:+ fmt_d currentActive +:+ ", queued="
                +:+ fmt_d currentQueued +:+ ", max=" +:+ fmt_d maxQueueSize))
  else
    sent ← call (TrySend jobID);
    if sent : bool then
      call CountQueued;;
      mret None
    else mret (Some "queue channel full").

Record Stats := {
  st_active : Z;
  st_queued : Z;
  st_capacity : Z;
  st_max_queue : Z
}.

Definition GetStats : Prog Stats :=
  stats ← call LoadStats;
  capacity ← call Concurrency;
  max_queue ← call MaxQueueSize;
  mret {| st_active := fst stats; st_queued := snd stats;
          st_capacity := capacity; st_max_queue := max_queue |}.

Definition Cancel (jobID : string) : Prog unit :=
  call (MarkCancelled jobID).

Definition isCancelled (jobID : string) : Prog bool :=
  call (ReadCancelled jobID).

Definition finishJobWithError (jobID : string) (errorMsg : string) : Prog unit :=
  seq ← Storage.IncrSeq jobID;
  let chunk := {| Seq := seq; Delta := ""; Done := true;
                  FinishReason := "error"; Error := errorMsg |} in
  Storage.AddChunk jobID chunk;;
  now ← call Now;
  Storage.UpdateJobStatus jobID StatusFailed now errorMsg.

Section Executor.

(** [json.Unmarshal] of one payload of the stream into an
    [OllamaStreamResponse]: the record, or the text of the error. *)
Variable Unmarshal : string -> OllamaStreamResponse + string.

(** What follows the scanning loop of [processJob]; [scanErr] is
    [scanner.Err()]. *)
Definition afterScan (jobID : string) (scanErr : option string) : Prog unit :=
  match scanErr with
  | Some err => finishJobWithError jobID ("stream error: " +:+ err)
  | None =>
      now ← call Now;
      Storage.UpdateJobStatus jobID StatusCompleted now "";;
      let ttl := 24 * Hour in
      Storage.SetTTL jobID ttl
  end.

(** [scanner.Err()] when the loop is left by a [break], the lines
    [rest] not having been yielded yet. *)
Definition Err (rest : list string) (scanErr : option string) (buffered : nat)
    : option string :=
  if (length rest <? buffered)%nat then scanErr else None.

(** The loop [for scanner.Scan() { ... }] on the lines still to
    come, and what follows it.  [scanErr] is the error the scanner has
    met once the lines run out. *)
Fixpoint scanLoop (jobID : string) (lines : list string) (scanErr : option string)
    (buffered : nat) (finishReason : string) : Prog unit :=
  match lines with
  | [] => afterScan jobID scanErr
  | text :: rest =>
      c ← isCancelled jobID;
      if c : bool then finishJobWithError jobID "cancelled"
      else
        let line := TrimSpace text in
        if is_empty line || negb (HasPrefix line "data:") then
          scanLoop jobID rest scanErr buffered finishReason
        else
          let payload := TrimSpace (TrimPrefix line "data:") in
          if is_empty payload || String.eqb payload "[DONE]" then
            afterScan jobID (Err rest scanErr buffered)
          else
            match Unmarshal payload with
            | inr err => finishJobWithError jobID ("decode error: " +:+ err)
            | inl streamResp =>
                seq ← Storage.IncrSeq jobID;
                let finishReason :=
                  if osr_Done streamResp && String.eqb (osr_DoneReason streamResp) "length"
                  then "length" else finishReason in
                let chunk := {| Seq := seq;
                                Delta := osr_Content streamResp;
                                Done := osr_Done streamResp;
                                FinishReason := if osr_Done streamResp then finishReason else "";
                                Error := "" |} in
                Storage.AddChunk jobID chunk;;
                if osr_Done streamResp then afterScan jobID (Err rest scanErr buffered)
                else scanLoop jobID rest scanErr buffered finishReason
            end
  end.

Definition processJob (jobID : string) : Prog unit :=
  meta ← Storage.GetJobMeta jobID;
  match meta with
  | None => mret tt
  | Some meta =>
      Storage.UpdateJobStatus jobID StatusRunning "" "";;
      messages ← call (HGet (key_meta jobID) "messages");
      options ← call (HGet (key_meta jobID) "options");
      let reqBody := {| or_model := jm_Model meta; or_messages := messages;
                        or_options := options |} in
      resp ← call (OllamaChat reqBody);
      match resp with
      | MarshalError err => finishJobWithError jobID ("marshal error: " +:+ err)
      | NewRequestError err => finishJobWithError jobID ("create request error: " +:+ err)
      | DoError err => finishJobWithError jobID ("ollama request error: " +:+ err)
      | Response StatusCode lines scanErr buffered =>
          if negb (StatusCode =? 200) then
            finishJobWithError jobID ("ollama status: " +:+ fmt_d StatusCode)
          else scanLoop jobID lines scanErr buffered "stop"
      end
  end.

(** One turn of the loop [for jobID := range w.queue] of [run]. *)
Definition run_iteration : Prog unit :=
  jobID ← call Receive;
  call CountStarted;;
  processJob jobID;;
  call CountFinished.

End Executor.

End Worker.

(** ** HTTP responses *)

Inductive Body :=
| BodyEmpty
| BodyText (text : string)                         (* http.Error *)
| BodyJob (r : JobResponse)
| BodyEvents (r : EventsResponse)
| BodyStatus (r : StatusResponse)
| BodyStats (s : Worker.Stats)
| BodyError (message type code : string).          (* {"error": {message, type, code}} *)

Record HTTPResponse := {
  resp_code : Z;
  resp_body : Body
}.

Definition StatusOK : Z := 200.
Definition StatusBadRequest : Z := 400.
Definition StatusUnauthorized : Z := 401.
Definition StatusNotFound : Z := 404.
Definition StatusTooManyRequests : Z := 429.
Definition StatusInternalServerError : Z := 500.
Definition StatusGatewayTimeout : Z := 504.

(** ** Server (worker/main.go, lines 450-583) *)

Module Server.

(** The end of [CreateJob] (lines 489-510): the job is handed to the
    executors, or refused. *)
Definition enqueueJob (jobID now : string) : Prog HTTPResponse :=
  err ← Worker.Enqueue jobID;
  match err with
  | Some err =>
      Storage.UpdateJobStatus jobID StatusFailed now err;;
      mret {| resp_code := StatusTooManyRequests;
              resp_body := BodyError ("Service overloaded: " +:+ err)
                             "server_error" "rate_limit_exceeded" |}
  | None =>
      mret {| resp_code := StatusOK;
              resp_body := BodyJob {| jresp_JobID := jobID; jresp_Status := StatusQueued |} |}
  end.

(** [POST /jobs].  [body] is the outcome of decoding the request body,
    [jobID] the value drawn by [uuid.New()]. *)
Definition CreateJob (body : JobRequest + string) (jobID : string) : Prog HTTPResponse :=
  match body with
  | inr err => mret {| resp_code := StatusBadRequest; resp_body := BodyText err |}
  | inl req =>
      Worker.GetStats;;
      now ← call Now;
      let meta := {| jm_Status := StatusQueued; jm_Model := jr_Model req;
                     jm_CreatedAt := now; jm_CompletedAt := ""; jm_Error := "" |} in
      Storage.CreateJob jobID meta;;
      (if (0 <? length (jr_Messages req))%nat then
         call (HSet (key_meta jobID) [("messages", json_array (jr_Messages req))])
       else mret tt);;
      (if (0 <? size (jr_Options req))%nat then
         call (HSet (key_meta jobID) [("options", json_object (jr_Options req))])
       else mret tt);;
      enqueueJob jobID now
  end.

(** The cursor of [GetEvents] (worker/main.go, lines 516-521):
    [seqStr] is the value of the query parameter [from_seq], empty when
    it is absent. *)
Definition fromSeq (seqStr : string) : Z :=
  if is_empty seqStr then -1
  else match Atoi seqStr with Some seq => seq | None => -1 end.

(** [GET /jobs/{job_id}/events]. *)
Definition GetEvents (jobID : string) (seqStr : string) : Prog HTTPResponse :=
  let fromSeq := fromSeq seqStr in
  meta ← Storage.GetJobMeta jobID;
  match meta with
  | None => mret {| resp_code := StatusNotFound; resp_body := BodyText "job not found" |}
  | Some meta =>
      chunks ← Storage.GetChunks jobID fromSeq;
      mret {| resp_code := StatusOK;
              resp_body := BodyEvents {| er_Status := jm_Status meta; er_Chunks := chunks |} |}
  end.

Definition GetStatus (jobID : string) : Prog HTTPResponse :=
  meta ← Storage.GetJobMeta jobID;
  match meta with
  | None => mret {| resp_code := StatusNotFound; resp_body := BodyText "job not found" |}
  | Some meta =>
      mret {| resp_code := StatusOK;
              resp_body := BodyStatus {| sr_Status := jm_Status meta;
                                         sr_CreatedAt := jm_CreatedAt meta;
                                         sr_CompletedAt := jm_CompletedAt meta;
                                         sr_Error := jm_Error meta |} |}
  end.

Definition CancelJob (jobID : string) : Prog HTTPResponse :=
  Worker.Cancel jobID;;
  now ← call Now;
  Storage.UpdateJobStatus jobID StatusCancelled now "";;
  mret {| resp_code := StatusOK; resp_body := BodyEmpty |}.

Definition GetWorkerStats : Prog HTTPResponse :=
  stats ← Worker.GetStats;
  mret {| resp_code := StatusOK; resp_body := BodyStats stats |}.

End Server.

(** ** The Worker process: goroutines and their interleavings *)

Inductive Request :=
| PostJobs (body : JobRequest + string) (uuid : string)
| GetJobEvents (jobID seqStr : string)
| GetJobStatus (jobID : string)
| PostJobCancel (jobID : string)
| GetStats.

Inductive Thread :=
| Handler (p : Prog HTTPResponse)     (* the goroutine serving one request *)
| Executor (p : Prog unit).           (* a goroutine of [Worker.run]: the rest of its turn *)

Record System := {
  world : World;
  threads : list Thread;
  issued : gset string          (* the job ids drawn from [uuid.New()] so far *)
}.

Inductive Action :=
| Arrive (r : Request)          (* a request arrives and its handler starts *)
| Step (i : nat)                (* goroutine [i] performs its next command *)
| Tick (t : string)             (* the wall clock moves on *)
| Expired (key : string).       (* Redis removes a key whose time to live has run out *)

Section Interleaving.

Variable Unmarshal : string -> OllamaStreamResponse + string.

Definition handler (r : Request) : Prog HTTPResponse :=
  match r with
  | PostJobs body uuid => Server.CreateJob body uuid
  | GetJobEvents jobID seqStr => Server.GetEvents jobID seqStr
  | GetJobStatus jobID => Server.GetStatus jobID
  | PostJobCancel jobID => Server.CancelJob jobID
  | GetStats => Server.GetWorkerStats
  end.

(** [uuid.New()] never repeats a value. *)
Definition admissible (r : Request) (used : gset string) : bool :=
  match r with
  | PostJobs _ uuid => bool_decide (uuid ∉ used)
  | _ => true
  end.

Definition draws (r : Request) : gset string :=
  match r with
  | PostJobs _ uuid => {[uuid]}
  | _ => ∅
  end.

Definition thread_step (t : Thread) (w : World) : option (Thread * World) :=
  match t with
  | Handler (Ret _) => None
  | Handler (Vis c k) =>
      match exec c w with
      | Some (x, w') => Some (Handler (k x), w')
      | None => None
      end
  | Executor (Ret _) => Some (Executor (Worker.run_iteration Unmarshal), w)
  | Executor (Vis c k) =>
      match exec c w with
      | Some (x, w') => Some (Executor (k x), w')
      | None => None
      end
  end.

Definition sys_step (a : Action) (s : System) : option System :=
  match a with
  | Arrive r =>
      if admissible r (issued s) then
        Some {| world := world s;
                threads := threads s ++ [Handler (handler r)];
                issued := draws r ∪ issued s |}
      else None
  | Step i =>
      match threads s !! i with
      | Some t =>
          match thread_step t (world s) with
          | Some (t', w') =>
              Some {| world := w'; threads := <[i := t']> (threads s); issued := issued s |}
          | None => None
          end
      | None => None
      end
  | Tick t =>
      Some {| world := {| storage := storage (world s); worker := worker (world s);
                          clock := t; ollama := ollama (world s) |};
              threads := threads s; issued := issued s |}
  | Expired key =>
      if bool_decide (is_Some (expiring (storage (world s)) !! key)) then
        Some {| world := with_storage (remove key) (world s);
                threads := threads s; issued := issued s |}
      else None
  end.

Fixpoint sys_run (acts : list Action) (s : System) : option System :=
  match acts with
  | [] => Some s
  | a :: rest =>
      match sys_step a s with
      | Some s' => sys_run rest s'
      | None => None
      end
  end.

(** [main]: an empty keyspace and [NewWorker], which starts
    [concurrency] goroutines of [run]. *)
Definition boot (N : nat) (backend : OllamaRequest -> UpstreamResult) (t0 : string) : System :=
  {| world := {| storage := empty_store; worker := NewWorker (Z.of_nat N);
                 clock := t0; ollama := backend |};
     threads := replicate N (Executor (Worker.run_iteration Unmarshal));
     issued := ∅ |}.

(** [NewWorker] returns for the concurrency [N]: [N] is a value of type
    [int], and [make] is given no negative capacity for the channel (it
    panics on one). *)
Definition started (N : nat) : Prop :=
  Z.of_nat N <= MaxInt /\ 0 <= maxQueueSize (NewWorker (Z.of_nat N)).

Definition reachable (N : nat) (s : System) : Prop :=
  exists backend t0 acts, started N /\ sys_run acts (boot N backend t0) = Some s.

End Interleaving.

(** ** Gateway (gateway/main.go) *)

Module Gateway.

Record OpenAIChatRequest := {
  req_Model : string;
  req_Messages : list string;
  req_Stream : bool
}.

(** [Message] and [Delta] are maps from field names to strings. *)
Record OpenAIChatChoice := {
  Index : Z;
  Message : list (string * string);
  ChoiceDelta : list (string * string);
  ChoiceFinishReason : string
}.

Record OpenAIChatResponse := {
  ID : string;
  Object : string;
  Created : Z;
  Model : string;
  Choices : list OpenAIChatChoice
}.

Record BackendChunkData := {
  bSeq : Z;
  bDelta : string;
  bDone : bool;
  bFinishReason : string;
  bError : string
}.

Record BackendEventsResponse := {
  bStatus : string;
  bChunks : list BackendChunkData
}.

Record Config := {
  BackendURL : string;
  PollIntervalMS : Z;
  RetryBackoffInitMS : Z;
  RetryBackoffMaxMS : Z;
  JobTimeoutMS : Z;
  APIKeyRequired : bool;
  APIKey : string
}.

Inductive GatewayBody :=
| ChatBody (r : OpenAIChatResponse)
| ErrorBody (message : string) (type : string) (code : Z).

Record GatewayResponse := {
  gw_code : Z;
  gw_body : GatewayBody
}.

(** What is written on an event stream. *)
Inductive Frame :=
| DataFrame (data : OpenAIChatResponse)     (* data: <json> *)
| ErrorFrame (message : string)             (* writeSSEError *)
| DoneFrame.                                (* data: [DONE] *)

Definition min (a b : Z) : Z := if a <? b then a else b.

Definition writeError (message : string) (statusCode : Z) : GatewayResponse :=
  {| gw_code := statusCode; gw_body := ErrorBody message "server_error" statusCode |}.

(** [authHeader] is [r.Header.Get("Authorization")], empty when the
    header is absent.  [None] is the nil error. *)
Definition validateAuth (config : Config) (authHeader : string) : option string :=
  if negb (APIKeyRequired config) then None
  else if is_empty authHeader then Some "missing authorization header"
  else
    let token := TrimPrefix authHeader "Bearer " in
    if negb (String.eqb token (APIKey config)) then Some "invalid api key"
    else None.

(** The outcome of [createBackendJob]. *)
Inductive Creation :=
| JobCreated (jobID : string)
| RateLimited (message : string)
| CreationFailed (err : string).

(** One turn of a polling loop, as the environment decides it: the
    deadline of the request has passed, or [pollBackendEvents] is
    called and answers, as a function of the cursor it is given, with
    the decoded events or with an error. *)
Inductive Turn :=
| Deadline
| Poll (answer : Z -> BackendEventsResponse + string).

Section Streaming.

Variables (chatID : string) (created : Z) (model : string).

Definition sseData (chunk : BackendChunkData) : OpenAIChatResponse :=
  let delta := [] in
  let delta := if negb (is_empty (bDelta chunk))
               then [("content", bDelta chunk)] else delta in
  let delta := if is_empty (bDelta chunk) && bDone chunk
               then [("content", "")] else delta in
  {| ID := chatID; Object := "chat.completion.chunk"; Created := created;
     Model := model;
     Choices := [ {| Index := 0; Message := []; ChoiceDelta := delta;
                     ChoiceFinishReason := bFinishReason chunk |} ] |}.

(** The loop over [events.Chunks] in [handleStreamingChat]: the
    frames written, the cursor afterwards, and whether the handler
    returned from inside the loop. *)
Fixpoint streamChunks (chunks : list BackendChunkData) (lastSeq : Z)
    : list Frame * Z * bool :=
  match chunks with
  | [] => ([], lastSeq, false)
  | chunk :: rest =>
      if bSeq chunk <=? lastSeq then streamChunks rest lastSeq
      else
        let lastSeq := bSeq chunk in
        if negb (is_empty (bError chunk)) then ([ErrorFrame (bError chunk)], lastSeq, true)
        else if bDone chunk then ([DataFrame (sseData chunk); DoneFrame], lastSeq, true)
        else
          let '(frames, lastSeq', returned) := streamChunks rest lastSeq in
          (DataFrame (sseData chunk) :: frames, lastSeq', returned)
  end.

Definition is_terminal (status : string) : bool :=
  String.eqb status "completed" || String.eqb status "failed"
  || String.eqb status "cancelled".

(** The polling loop of [handleStreamingChat]: the frames written
    and whether the stream was closed within the given turns. *)
Fixpoint streamLoop (config : Config) (turns : list Turn) (lastSeq retryDelay : Z)
    : list Frame * bool :=
  match turns with
  | [] => ([], false)
  | Deadline :: _ => ([ErrorFrame "timeout exceeded"], true)
  | Poll answer :: rest =>
      match answer lastSeq with
      | inr _ =>
          streamLoop config rest lastSeq
            (min (int_wrap (retryDelay * 2)) (RetryBackoffMaxMS config))
      | inl events =>
          let retryDelay := RetryBackoffInitMS config in
          let '(frames, lastSeq, returned) := streamChunks (bChunks events) lastSeq in
          if returned : bool then (frames, true)
          else if is_terminal (bStatus events) then
            if negb (String.eqb (bStatus events) "completed")
            then (frames ++ [ErrorFrame ("job " +:+ bStatus events)], true)
            else (frames ++ [DoneFrame], true)
          else
            let '(more, closed) := streamLoop config rest lastSeq retryDelay in
            (frames ++ more, closed)
      end
  end.

(** Either a plain HTTP error, or an event stream. *)
Inductive Streamed :=
| Refused (r : GatewayResponse)
| Stream (frames : list Frame) (closed : bool).

(** [flusher] tells whether the response writer is an [http.Flusher]. *)
Definition handleStreamingChat (config : Config) (job : Creation) (flusher : bool)
    (turns : list Turn) : Streamed :=
  match job with
  | RateLimited _ =>
      Refused (writeError "Service overloaded. Please try again later." StatusTooManyRequests)
  | CreationFailed err =>
      Refused (writeError ("failed to create job: " +:+ err) StatusInternalServerError)
  | JobCreated jobID =>
      if negb flusher then
        Refused (writeError "streaming not supported" StatusInternalServerError)
      else
        let lastSeq := -1 in
        let retryDelay := RetryBackoffInitMS config in
        let '(frames, closed) := streamLoop config turns lastSeq retryDelay in
        Stream frames closed
  end.

End Streaming.

(** The loop over [events.Chunks] in [handleNonStreamingChat]. *)
Inductive Gathered :=
| GatherFailed (message : string)            (* a chunk carries an error: 500 *)
| GatherNext (lastSeq : Z) (fullContent finishReason : string).

Fixpoint gatherChunks (chunks : list BackendChunkData) (lastSeq : Z)
    (fullContent finishReason : string) : Gathered :=
  match chunks with
  | [] => GatherNext lastSeq fullContent finishReason
  | chunk :: rest =>
      if bSeq chunk <=? lastSeq then gatherChunks rest lastSeq fullContent finishReason
      else
        let lastSeq := bSeq chunk in
        if negb (is_empty (bError chunk)) then GatherFailed (bError chunk)
        else
          let fullContent := fullContent +:+ bDelta chunk in
          if bDone chunk then GatherNext lastSeq fullContent (bFinishReason chunk)
          else gatherChunks rest lastSeq fullContent finishReason
  end.

Section NonStreaming.

(** [uuid] and [now] are drawn when the response is built. *)
Variables (uuid : string) (now : Z) (model : string).

Definition completion (fullContent finishReason : string) : GatewayResponse :=
  {| gw_code := StatusOK;
     gw_body := ChatBody
       {| ID := "chatcmpl-" +:+ uuid; Object := "chat.completion"; Created := now;
          Model := model;
          Choices := [ {| Index := 0;
                          Message := [("role", "assistant"); ("content", fullContent)];
                          ChoiceDelta := [];
                          ChoiceFinishReason := finishReason |} ] |} |}.

(** The polling loop of [handleNonStreamingChat]; [None] when the
    turns run out before the handler answers. *)
Fixpoint gatherLoop (config : Config) (turns : list Turn) (lastSeq retryDelay : Z)
    (fullContent finishReason : string) : option GatewayResponse :=
  match turns with
  | [] => None
  | Deadline :: _ => Some (writeError "timeout exceeded" StatusGatewayTimeout)
  | Poll answer :: rest =>
      match answer lastSeq with
      | inr _ =>
          gatherLoop config rest lastSeq
            (min (int_wrap (retryDelay * 2)) (RetryBackoffMaxMS config)) fullContent finishReason
      | inl events =>
          let retryDelay := RetryBackoffInitMS config in
          match gatherChunks (bChunks events) lastSeq fullContent finishReason with
          | GatherFailed message => Some (writeError message StatusInternalServerError)
          | GatherNext lastSeq fullContent finishReason =>
              if String.eqb (bStatus events) "completed" then
                Some (completion fullContent finishReason)
              else if String.eqb (bStatus events) "failed"
                      || String.eqb (bStatus events) "cancelled" then
                Some (writeError ("job " +:+ bStatus events) StatusInternalServerError)
              else gatherLoop config rest lastSeq retryDelay fullContent finishReason
          end
      end
  end.

Definition handleNonStreamingChat (config : Config) (job : Creation) (turns : list Turn)
    : option GatewayResponse :=
  match job with
  | RateLimited _ =>
      Some (writeError "Service overloaded. Please try again later." StatusTooManyRequests)
  | CreationFailed err =>
      Some (writeError ("failed to create job: " +:+ err) StatusInternalServerError)
  | JobCreated jobID =>
      gatherLoop config turns (-1) (RetryBackoffInitMS config) "" ""
  end.

End NonStreaming.

End Gateway.

(** ** The Gateway polling a Worker

    [pollBackendEvents] sends [GET /jobs/{id}/events?from_seq=<lastSeq>]
    and decodes the JSON body of a 200 response; the two programs
    declare the same fields under the same JSON names. *)

Definition wire_chunk (c : ChunkData) : Gateway.BackendChunkData :=
  {| Gateway.bSeq := Seq c; Gateway.bDelta := Delta c; Gateway.bDone := Done c;
     Gateway.bFinishReason := FinishReason c; Gateway.bError := Error c |}.

Definition pollBackendEvents (w : World) (jobID : string) (lastSeq : Z)
    : Gateway.BackendEventsResponse + string :=
  match run (Server.GetEvents jobID (fmt_d lastSeq)) w with
  | Some (resp, _) =>
      match resp_body resp with
      | BodyEvents ev =>
          if resp_code resp =? StatusOK
          then inl {| Gateway.bStatus := er_Status ev;
                      Gateway.bChunks := map wire_chunk (er_Chunks ev) |}
          else inr ("backend status: " +:+ fmt_d (resp_code resp))
      | _ => inr ("backend status: " +:+ fmt_d (resp_code resp))
      end
  | None => inr "no response"
  end.

(** ** Sample data *)

Definition keyless_config : Gateway.Config :=
  {| Gateway.BackendURL := "http://localhost:5345"; Gateway.PollIntervalMS := 500;
     Gateway.RetryBackoffInitMS := 1000; Gateway.RetryBackoffMaxMS := 30000;
     Gateway.JobTimeoutMS := 1800000; Gateway.APIKeyRequired := true;
     Gateway.APIKey := "" |}.

Definition keyed_config : Gateway.Config :=
  {| Gateway.BackendURL := "http://localhost:5345"; Gateway.PollIntervalMS := 500;
     Gateway.RetryBackoffInitMS := 1000; Gateway.RetryBackoffMaxMS := 30000;
     Gateway.JobTimeoutMS := 1800000; Gateway.APIKeyRequired := true;
     Gateway.APIKey := "sk-key" |}.

(** The log of scenario S1: "Hel", "lo", and the final empty delta. *)
Definition hello_chunk (seq : Z) : ChunkData :=
  {| Seq := seq;
     Delta := if seq =? 1 then "Hel" else if seq =? 2 then "lo" else "";
     Done := 3 <=? seq;
     FinishReason := if 3 <=? seq then "stop" else "";
     Error := "" |}.

Definition hello_log : list ChunkData := map hello_chunk [1; 2; 3].


(** A Worker of concurrency 1 that is saturated: one job is running and
    one is waiting in the channel. *)
Definition busy_world : World :=
  {| storage := empty_store;
     worker := {| concurrency := 1; maxQueueSize := 2; queue := ["job-b"];
                  cancelled := ∅; activeJobs := 1; queuedJobs := 1 |};
     clock := "2025-01-01T00:00:00Z";
     ollama := fun _ => DoError "connection refused" |}.

Definition hello_request : JobRequest :=
  {| jr_Model := "gpt-oss:20b"; jr_Messages := ["{}"]; jr_Prompt := "";
     jr_Options := ∅ |}.

(** ** The translation of upstream records, in the words of the
    specification (4.3, steps 4 and 5) *)

(** The chunk for a record: its delta text, its done flag, and a finish
    reason only when done: "length" when the backend signals a length
    stop, "stop" otherwise. *)
Definition spec_chunk (seq : Z) (r : OllamaStreamResponse) : ChunkData :=
  {| Seq := seq;
     Delta := osr_Content r;
     Done := osr_Done r;
     FinishReason :=
       if osr_Done r
       then (if String.eqb (osr_DoneReason r) "length" then "length" else "stop")
       else "";
     Error := "" |}.

Fixpoint spec_chunks (seq : Z) (records : list OllamaStreamResponse) : list ChunkData :=
  match records with
  | [] => []
  | r :: rest => spec_chunk seq r :: spec_chunks (seq + 1) rest
  end.

(** What a line of the upstream body is: skipped (blank, or not
    prefixed "data:"), the end of the stream, a malformed record, or a
    valid record. *)
Inductive Line :=
| Skipped
| EndOfStream
| Malformed (err : string)
| Valid (r : OllamaStreamResponse).

Definition spec_line (Unmarshal : string -> OllamaStreamResponse + string) (text : string)
    : Line :=
  let line := TrimSpace text in
  if is_empty line then Skipped
  else if negb (HasPrefix line "data:") then Skipped
  else
    let payload := TrimSpace (TrimPrefix line "data:") in
    if is_empty payload then EndOfStream
    else if String.eqb payload "[DONE]" then EndOfStream
    else match Unmarshal payload with
         | inl r => Valid r
         | inr err => Malformed err
         end.

(** The valid records up to the end of the stream (a record with
    done=true is the last one), and the reason of the failure when the
    stream ends on a malformed record or on a read error: the error the
    scanner has met by the time the stream ends. *)
Fixpoint spec_records (Unmarshal : string -> OllamaStreamResponse + string)
    (lines : list string) (scanErr : option string) (buffered : nat)
    : list OllamaStreamResponse * option string :=
  let read_error (met : option string) := (fun err => "stream error: " +:+ err) <$> met in
  match lines with
  | [] => ([], read_error scanErr)
  | text :: rest =>
      match spec_line Unmarshal text with
      | Skipped => spec_records Unmarshal rest scanErr buffered
      | EndOfStream => ([], read_error (Worker.Err rest scanErr buffered))
      | Malformed err => ([], Some ("decode error: " +:+ err))
      | Valid r =>
          if osr_Done r then ([r], read_error (Worker.Err rest scanErr buffered))
          else let '(records, failure) := spec_records Unmarshal rest scanErr buffered in
               (r :: records, failure)
      end
  end.

(** The synthetic terminal chunk of a failed job. *)
Definition error_chunk (seq : Z) (errorMsg : string) : ChunkData :=
  {| Seq := seq; Delta := ""; Done := true; FinishReason := "error"; Error := errorMsg |}.

(** ** The scenarios of the specification (section 8)

    Payloads are written in the shorthand of the specification, and
    decoded by a table. *)

Definition hello_unmarshal (payload : string) : OllamaStreamResponse + string :=
  if String.eqb payload "{content:Hel,done:false}" then
    inl {| osr_Content := "Hel"; osr_Done := false; osr_DoneReason := "" |}
  else if String.eqb payload "{content:lo,done:false}" then
    inl {| osr_Content := "lo"; osr_Done := false; osr_DoneReason := "" |}
  else if String.eqb payload "{content:,done:true,done_reason:stop}" then
    inl {| osr_Content := ""; osr_Done := true; osr_DoneReason := "stop" |}
  else if String.eqb payload "{content:A,done:true,done_reason:length}" then
    inl {| osr_Content := "A"; osr_Done := true; osr_DoneReason := "length" |}
  else inr "invalid character".

Definition hello_lines : list string :=
  [ "data: {content:Hel,done:false}"; "";
    "data: {content:lo,done:false}"; "";
    "data: {content:,done:true,done_reason:stop}"; "";
    "data: [DONE]" ].

Definition hello_backend (req : OllamaRequest) : UpstreamResult :=
  Response 200 hello_lines None 0.

Definition world_of (s : option System) : World :=
  match s with
  | Some s => world s
  | None => busy_world
  end.

(** S4: a job is created and its executor has appended the first chunk
    when the job is cancelled. *)
Definition S4_cancelled : option System :=
  sys_run hello_unmarshal
    ([Arrive (PostJobs (inl hello_request) "job-a")]
     ++ replicate 10 (Step 1%nat)      (* the create-job handler, to its end *)
     ++ replicate 10 (Step 0%nat)      (* the executor, up to the first chunk *)
     ++ [Arrive (PostJobCancel "job-a")]
     ++ replicate 3 (Step 2%nat))      (* the cancel handler, to its end *)
    (boot hello_unmarshal 1 hello_backend "2025-01-01T00:00:00Z").

(** S4, continued until the executor has left [processJob]. *)
Definition S4_finished : option System :=
  match S4_cancelled with
  | Some s => sys_run hello_unmarshal (replicate 6 (Step 0%nat)) s
  | None => None
  end.

(** S1: a job is created; its id is in the channel. *)
Definition S1_queued : option System :=
  sys_run hello_unmarshal
    ([Arrive (PostJobs (inl hello_request) "job-a")] ++ replicate 10 (Step 1%nat))
    (boot hello_unmarshal 1 hello_backend "2025-01-01T00:00:00Z").

(** S3 with concurrency 1: three jobs are submitted one after the other;
    the executor has taken the first job off the channel when the second
    and the third request are served, and counts it as active only
    afterwards. *)
Definition S3_overrun : option System :=
  sys_run hello_unmarshal
    ([Arrive (PostJobs (inl hello_request) "job-a")]
     ++ replicate 10 (Step 1%nat)      (* job-a is accepted *)
     ++ [Step 0%nat]                   (* the executor receives job-a *)
     ++ [Arrive (PostJobs (inl hello_request) "job-b")]
     ++ replicate 10 (Step 2%nat)      (* job-b is accepted *)
     ++ [Arrive (PostJobs (inl hello_request) "job-c")]
     ++ replicate 10 (Step 3%nat)      (* job-c is accepted *)
     ++ [Step 0%nat])                  (* the executor counts job-a as active *)
    (boot hello_unmarshal 1 hello_backend "2025-01-01T00:00:00Z").

(** The concatenation of the deltas of a log, in the order of the log. *)
Definition concat_deltas (log : list ChunkData) : string :=
  foldr (fun chunk text => Delta chunk +:+ text) "" log.

(** A long answer: 1001 records that carry one letter each, and the
    final record. *)
Definition long_unmarshal (payload : string) : OllamaStreamResponse + string :=
  if String.eqb payload "{content:a,done:false}" then
    inl {| osr_Content := "a"; osr_Done := false; osr_DoneReason := "" |}
  else if String.eqb payload "{content:,done:true,done_reason:stop}" then
    inl {| osr_Content := ""; osr_Done := true; osr_DoneReason := "stop" |}
  else inr "invalid character".

Definition long_lines : list string :=
  replicate 1001 "data: {content:a,done:false}"
  ++ ["data: {content:,done:true,done_reason:stop}"].

Definition long_backend (req : OllamaRequest) : UpstreamResult :=
  Response 200 long_lines None 0.

(** The job of the long answer is created and carried out to its end
    before the Gateway's next poll goes through. *)
Definition long_completed : option System :=
  sys_run long_unmarshal
    ([Arrive (PostJobs (inl hello_request) "job-a")]
     ++ replicate 10 (Step 1%nat)
     ++ replicate (7 + 3 * 1002 + 6) (Step 0%nat))
    (boot long_unmarshal 1 long_backend "2025-01-01T00:00:00Z").

Definition sample_config : Gateway.Config :=
  {| Gateway.BackendURL := "http://localhost:5345"; Gateway.PollIntervalMS := 500;
     Gateway.RetryBackoffInitMS := 1000; Gateway.RetryBackoffMaxMS := 30000;
     Gateway.JobTimeoutMS := 1800000; Gateway.APIKeyRequired := false;
     Gateway.APIKey := "" |}.

(** The answer of the Gateway to a non-streaming request whose polls
    are answered by the Worker in the state [w]. *)
Definition gateway_answer (w : World) (polls : nat) : option Gateway.GatewayResponse :=
  Gateway.handleNonStreamingChat "0000" 0 "gpt-oss:20b" sample_config
    (Gateway.JobCreated "job-a")
    (replicate polls (Gateway.Poll (pollBackendEvents w "job-a"))).

(** A field of a JSON object; the empty string when it is missing. *)
Fixpoint field (name : string) (object : list (string * string)) : string :=
  match object with
  | [] => ""
  | (k, v) :: rest => if String.eqb k name then v else field name rest
  end.

(** [choices[0].message.content] and [choices[0].finish_reason] of a
    chat-completion envelope. *)
Definition answer_content (r : option Gateway.GatewayResponse) : option (string * string) :=
  match r with
  | Some {| Gateway.gw_body := Gateway.ChatBody {| Gateway.Choices := [ choice ] |} |} =>
      Some (field "content" (Gateway.Message choice), Gateway.ChoiceFinishReason choice)
  | _ => None
  end.

(** ** Who may write the log of a job, and who counts as active

    The log and the counter of a job are written by one goroutine only,
    and a job is counted as active by the executor that holds it.  This
    is a protocol between the goroutines, stated on the commands they
    issue.  A goroutine is in one of five positions: an executor that
    holds no job; an executor that holds the job it received, with the
    sequence number it has drawn and not yet used, if any, and with a
    flag that tells whether it has counted the job as active; an
    executor that has let go of its job, having set a time to live on a
    key of it; a handler that may still send the job id it drew to the
    channel; any other handler. *)

Inductive Ghost :=
| GIdle
| GHolds (jobID : string) (pending : option Z) (counted : bool)
| GDone (jobID : string) (counted : bool)
| GSender (jobID : string)
| GPlain.

Definition claim (g : Ghost) : option string :=
  match g with
  | GHolds jobID _ _ => Some jobID
  | GSender jobID => Some jobID
  | GDone _ _ => None
  | GIdle => None
  | GPlain => None
  end.

Definition counted (g : Ghost) : bool :=
  match g with
  | GHolds _ _ b => b
  | GDone _ b => b
  | _ => false
  end.

(** The last byte of a key tells its shape. *)
Fixpoint last_byte (s : string) : option ascii :=
  match s with
  | EmptyString => None
  | String c EmptyString => Some c
  | String _ rest => last_byte rest
  end.

(** The keys of a job. *)
Definition key_of (jobID key : string) : Prop :=
  key = key_meta jobID \/ key = key_chunks jobID \/ key = key_seq jobID.

(** The commands a goroutine may issue in a position... *)
Definition allowed {X} (g : Ghost) (c : Cmd X) : Prop :=
  match c with
  | Receive => g = GIdle
  | CountStarted => exists jobID, g = GHolds jobID None false
  | CountFinished => exists jobID, g = GHolds jobID None true \/ g = GDone jobID true
  | Expire key _ =>
      exists jobID b, (g = GHolds jobID None b \/ g = GDone jobID b) /\ key_of jobID key
  | Incr key => exists jobID b, g = GHolds jobID None b /\ key = key_seq jobID
  | RPush key item =>
      exists jobID b, g = GHolds jobID (Some (Seq item)) b /\ key = key_chunks jobID
  | TrySend jobID => g = GSender jobID
  | _ => True
  end.

(** ... and the position it is in after the reply. *)
Definition next {X} (g : Ghost) (c : Cmd X) : X -> Ghost :=
  match c in Cmd X return X -> Ghost with
  | Receive => fun jobID => GHolds jobID None false
  | CountStarted => fun _ => match g with GHolds jobID p _ => GHolds jobID p true | _ => g end
  | CountFinished => fun _ =>
      match g with
      | GHolds jobID p _ => GHolds jobID p false
      | GDone jobID _ => GDone jobID false
      | _ => g
      end
  | Expire _ _ => fun _ =>
      match g with
      | GHolds jobID _ b => GDone jobID b
      | _ => g
      end
  | Incr _ => fun n => match g with GHolds jobID _ b => GHolds jobID (Some n) b | _ => g end
  | RPush _ _ => fun _ => match g with GHolds jobID _ b => GHolds jobID None b | _ => g end
  | TrySend _ => fun _ => GPlain
  | _ => fun _ => g
  end.

(** [Safe g p Q]: from the position [g], the program [p] only issues
    allowed commands, whatever the replies, and ends in a position and
    with a result that satisfy [Q]. *)
Fixpoint Safe {R} (g : Ghost) (p : Prog R) (Q : R -> Ghost -> Prop) : Prop :=
  match p with
  | Ret r => Q r g
  | Vis c k => allowed g c /\ forall x, Safe (next g c x) (k x) Q
  end.

(** A handler is never in the position of an executor; an executor ends
    a turn of its loop with no job counted. *)
Definition handler_ghost (g : Ghost) : Prop :=
  match g with
  | GSender _ => True
  | GPlain => True
  | _ => False
  end.

Definition thread_safe (g : Ghost) (t : Thread) : Prop :=
  match t with
  | Handler p => handler_ghost g /\ Safe g p (fun _ _ => True)
  | Executor p => Safe g p (fun _ g' => counted g' = false)
  end.

(** The number of jobs counted as active by the goroutines. *)
Fixpoint tally (ghosts : list Ghost) : Z :=
  match ghosts with
  | [] => 0
  | g :: rest => Z.b2z (counted g) + tally rest
  end.

(** The sequence numbers of a log are 1, 2, ..., K, in this order. *)
Definition dense (log : list ChunkData) : Prop :=
  Seq <$> log = seqZ 1 (Z.of_nat (length log)).

Definition untouched (st : Store) (jobID : string) : Prop :=
  list_at st (key_chunks jobID) = [] /\ counter_at st (key_seq jobID) = 0.

(** What a position says about the keyspace: the counter of a held job
    is the length of its log, or one more once a number is drawn. *)
Definition tracks (st : Store) (g : Ghost) : Prop :=
  match g with
  | GHolds jobID None _ =>
      counter_at st (key_seq jobID) = Z.of_nat (length (list_at st (key_chunks jobID)))
  | GHolds jobID (Some n) _ =>
      n = counter_at st (key_seq jobID)
      /\ n = Z.of_nat (length (list_at st (key_chunks jobID))) + 1
  | GSender jobID => untouched st jobID
  | GDone _ _ => True
  | GIdle => True
  | GPlain => True
  end.

(** The position of an executor that is through with a job. *)
Definition done_with (jobID : string) (b : bool) (g : Ghost) : Prop :=
  g = GHolds jobID None b \/ g = GDone jobID b.

(** A job is retired when an executor has let go of it, or when a time
    to live is set on its log or on its counter. *)
Definition retired (ghosts : list Ghost) (st : Store) (jobID : string) : Prop :=
  (exists i b, ghosts !! i = Some (GDone jobID b))
  \/ is_Some (expiring st !! key_chunks jobID)
  \/ is_Some (expiring st !! key_seq jobID).

(** The positions of the goroutines [ghosts] agree with the channel
    [q], the job ids drawn so far [used] and the keyspace [st]: a job id
    is claimed by one goroutine at most, and then it is not in the
    channel; an id that was never drawn, or is still to be sent or in
    the channel, has no log yet; a retired job was drawn, is not in the
    channel and is claimed by no goroutine; and every log is dense. *)
Record Coherent (ghosts : list Ghost) (q : list string) (used : gset string)
    (st : Store) : Prop := {
  coh_excl : forall i j gi gj jobID,
    ghosts !! i = Some gi -> ghosts !! j = Some gj ->
    claim gi = Some jobID -> claim gj = Some jobID -> i = j;
  coh_queue_nodup : NoDup q;
  coh_queue_excl : forall i g jobID,
    ghosts !! i = Some g -> claim g = Some jobID -> jobID ∉ q;
  coh_queue_used : forall jobID, jobID ∈ q -> jobID ∈ used;
  coh_claim_used : forall i g jobID,
    ghosts !! i = Some g -> claim g = Some jobID -> jobID ∈ used;
  coh_fresh : forall jobID, jobID ∉ used -> untouched st jobID;
  coh_queued : forall jobID, jobID ∈ q -> untouched st jobID;
  coh_tracks : forall i g, ghosts !! i = Some g -> tracks st g;
  coh_retired : forall jobID,
    retired ghosts st jobID ->
    (jobID ∈ used) /\ (jobID ∉ q)
    /\ forall j g, ghosts !! j = Some g -> claim g <> Some jobID;
  coh_dense : forall jobID, dense (list_at st (key_chunks jobID))
}.

(** The counter of active jobs is the number of executors that have
    counted their job. *)
Definition Inv (s : System) (ghosts : list Ghost) : Prop :=
  Forall2 thread_safe ghosts (threads s)
  /\ Coherent ghosts (queue (worker (world s))) (issued s) (storage (world s))
  /\ activeJobs (worker (world s)) = tally ghosts.

(** The position a handler starts in. *)
Definition start_ghost (r : Request) : Ghost :=
  match r with
  | PostJobs _ uuid => GSender uuid
  | _ => GPlain
  end.

(** The order of the chunks of a log by sequence number. *)
Definition seq_lt (a b : ChunkData) : Prop := Seq a < Seq b.

(** S1, to the end of the job. *)
Definition S1_completed : option System :=
  sys_run hello_unmarshal
    ([Arrive (PostJobs (inl hello_request) "job-a")]
     ++ replicate 10 (Step 1%nat)
     ++ replicate 22 (Step 0%nat))
    (boot hello_unmarshal 1 hello_backend "2025-01-01T00:00:00Z").

(** S1, a day later: the log and the metadata of the job have run out
    of time and are removed. *)
Definition S1_expired : option System :=
  sys_run hello_unmarshal
    ([Arrive (PostJobs (inl hello_request) "job-a")]
     ++ replicate 10 (Step 1%nat)
     ++ replicate 22 (Step 0%nat)
     ++ [Tick "2025-01-02T00:00:01Z";
         Expired "job:job-a:chunks"; Expired "job:job-a:meta"])
    (boot hello_unmarshal 1 hello_backend "2025-01-01T00:00:00Z").

(** S3 with concurrency 1, another way: while the first job is running,
    two requests are served side by side; each reads the counters before
    the other one sends to the channel. *)
Definition S3_race : option System :=
  sys_run hello_unmarshal
    ([Arrive (PostJobs (inl hello_request) "job-a")]
     ++ replicate 10 (Step 1%nat)      (* job-a is accepted *)
     ++ replicate 2 (Step 0%nat)       (* the executor receives it and counts it *)
     ++ [Arrive (PostJobs (inl hello_request) "job-b");
         Arrive (PostJobs (inl hello_request) "job-c")]
     ++ replicate 7 (Step 2%nat)       (* Enqueue(job-b) has read active=1, queued=0 *)
     ++ replicate 7 (Step 3%nat)       (* Enqueue(job-c) has read active=1, queued=0 *)
     ++ replicate 3 (Step 2%nat)       (* job-b is sent *)
     ++ replicate 3 (Step 3%nat))      (* job-c is sent *)
    (boot hello_unmarshal 1 hello_backend "2025-01-01T00:00:00Z").

(** The load of the Worker is above the admission ceiling 2N, whether
    the queued jobs are read from the counter or from the channel. *)
Definition overrun (N : Z) (s : System) : Prop :=
  2 * N < activeJobs (worker (world s)) + queuedJobs (worker (world s))
  /\ 2 * N < activeJobs (worker (world s)) + Z.of_nat (length (queue (worker (world s)))).

(** The chunks a program hands to RPUSH, whatever the replies to its
    commands, all satisfy [P]. *)
Fixpoint Appends {R} (P : ChunkData -> Prop) (p : Prog R) : Prop :=
  match p with
  | Ret _ => True
  | Vis c k =>
      match c with
      | RPush _ item => P item
      | _ => True
      end
      /\ forall x, Appends P (k x)
  end.

(** A chunk is the translation of a record decoded from the stream, or
    the synthetic terminal chunk of a failure. *)
Definition translated (Unmarshal : string -> OllamaStreamResponse + string)
    (chunk : ChunkData) : Prop :=
  (exists payload r, Unmarshal payload = inl r /\ chunk = spec_chunk (Seq chunk) r)
  \/ (exists errorMsg, chunk = error_chunk (Seq chunk) errorMsg).

Definition is_executor (t : Thread) : Prop :=
  match t with
  | Executor _ => True
  | Handler _ => False
  end.

#[global] Instance is_executor_dec (t : Thread) : Decision (is_executor t) :=
  match t with
  | Executor _ => left I
  | Handler _ => right (fun H => H)
  end.

(** ** The event stream of a log, in the words of the specification
    (4.6, step 4): one data frame per chunk, in order, up to the first
    chunk that carries an error (an error frame) or is done (its data
    frame, then the terminator). *)
Fixpoint spec_frames (chatID : string) (created : Z) (model : string)
    (chunks : list Gateway.BackendChunkData) : list Gateway.Frame :=
  match chunks with
  | [] => []
  | chunk :: rest =>
      if negb (is_empty (Gateway.bError chunk)) then [Gateway.ErrorFrame (Gateway.bError chunk)]
      else if Gateway.bDone chunk then
        [Gateway.DataFrame (Gateway.sseData chatID created model chunk); Gateway.DoneFrame]
      else
        Gateway.DataFrame (Gateway.sseData chatID created model chunk)
        :: spec_frames chatID created model rest
  end.


(** ** The admission controller, were its operations atomic

    The same procedures, run with no other goroutine in between: a call
    of [Enqueue]; an idle executor receiving a job and counting it; an
    executor returning from a job. *)
Inductive Operation :=
| OpEnqueue (jobID : string)
| OpDequeue
| OpReturn.

Definition atomic_step (op : Operation) (w : World) : option World :=
  match op with
  | OpEnqueue jobID => snd <$> run (Worker.Enqueue jobID) w
  | OpDequeue =>
      if activeJobs (worker w) <? concurrency (worker w)
      then snd <$> run (call Receive;; call CountStarted) w
      else None
  | OpReturn =>
      if 0 <? activeJobs (worker w)
      then snd <$> run (call CountFinished) w
      else None
  end.

Fixpoint atomic_run (ops : list Operation) (w : World) : option World :=
  match ops with
  | [] => Some w
  | op :: rest =>
      match atomic_step op w with
      | Some w' => atomic_run rest w'
      | None => None
      end
  end.

Definition within_bounds (ws : WorkerState) : Prop :=
  concurrency ws * 2 = maxQueueSize ws
  /\ 0 <= activeJobs ws <= concurrency ws
  /\ queuedJobs ws = Z.of_nat (length (queue ws))
  /\ activeJobs ws + queuedJobs ws <= maxQueueSize ws.

(** ** The executor, when a Redis command can fail

    The procedures of the executor once more (worker/main.go, lines
    121-162, 187-208 and 303-448), with the errors that go-redis
    returns and the branches of the source that handle them. *)

Module Fallible.

(** For each Redis command still to come, in order, the error it fails
    with, if it fails; a command beyond the end of the list succeeds.
    A command that fails has not reached the server: the keyspace is as
    before. *)
Definition Outages : Type := list (option string).

Definition M (A : Type) : Type := World -> Outages -> option (A * World * Outages).

#[global] Instance M_ret : MRet M := fun A a w o => Some (a, w, o).
#[global] Instance M_bind : MBind M := fun A B f m w o =>
  match m w o with
  | Some (a, w', o') => f a w' o'
  | None => None
  end.

(** A Redis command: its reply, or the error. *)
Definition redis {X} (c : Cmd X) : M (X + string) := fun w o =>
  match o with
  | Some err :: o' => Some (inr err, w, o')
  | _ =>
      match exec c w with
      | Some (x, w') => Some (inl x, w', tail o)
      | None => None
      end
  end.

(** A command on the Worker's memory, or a call to the environment. *)
Definition local {X} (c : Cmd X) : M X := fun w o =>
  match exec c w with
  | Some (x, w') => Some (x, w', o)
  | None => None
  end.

(** The error of a reply; [None] is the nil error. *)
Definition error_of {X} (r : X + string) : option string :=
  match r with
  | inl _ => None
  | inr err => Some err
  end.

Definition GetJobMeta (jobID : string) : M (JobMeta + string) :=
  let key := key_meta jobID in
  r ← redis (HGetAll key);
  match r with
  | inr err => mret (inr err)
  | inl result =>
      match Storage.read_meta result with
      | None => mret (inr "job not found")
      | Some meta => mret (inl meta)
      end
  end.

Definition UpdateJobStatus (jobID : string) (status : JobStatus)
    (completedAt errorMsg : string) : M (option string) :=
  let key := key_meta jobID in
  r ← redis (HSet key (Storage.status_data status completedAt errorMsg));
  mret (error_of r).

Definition AddChunk (jobID : string) (chunk : ChunkData) : M (option string) :=
  let key := key_chunks jobID in
  r ← redis (RPush key chunk);
  mret (error_of r).

Definition IncrSeq (jobID : string) : M (Z * option string) :=
  let key := key_seq jobID in
  r ← redis (Incr key);
  match r with
  | inr err => mret (0, Some err)
  | inl val => mret (val, None)
  end.

Definition SetTTL (jobID : string) (ttl : Z) : M (option string) :=
  r ← redis (Expire (key_meta jobID) ttl);
  match r with
  | inr err => mret (Some err)
  | inl _ =>
      r ← redis (Expire (key_chunks jobID) ttl);
      match r with
      | inr err => mret (Some err)
      | inl _ =>
          r ← redis (Expire (key_seq jobID) ttl);
          mret (error_of r)
      end
  end.

(** [value, _ := rdb.HGet(...).Result()]: the empty string on an
    error. *)
Definition HGet_or_empty (key field : string) : M string :=
  r ← redis (HGet key field);
  match r with
  | inl value => mret value
  | inr _ => mret ""
  end.

Definition finishJobWithError (jobID : string) (errorMsg : string) : M unit :=
  r ← IncrSeq jobID;
  let seq := fst r in
  let chunk := {| Seq := seq; Delta := ""; Done := true;
                  FinishReason := "error"; Error := errorMsg |} in
  _ ← AddChunk jobID chunk;
  now ← local Now;
  _ ← UpdateJobStatus jobID StatusFailed now errorMsg;
  mret tt.

Section Executor.

Variable Unmarshal : string -> OllamaStreamResponse + string.

Definition afterScan (jobID : string) (scanErr : option string) : M unit :=
  match scanErr with
  | Some err => finishJobWithError jobID ("stream error: " +:+ err)
  | None =>
      now ← local Now;
      _ ← UpdateJobStatus jobID StatusCompleted now "";
      let ttl := 24 * Hour in
      _ ← SetTTL jobID ttl;
      mret tt
  end.

Fixpoint scanLoop (jobID : string) (lines : list string) (scanErr : option string)
    (buffered : nat) (finishReason : string) : M unit :=
  match lines with
  | [] => afterScan jobID scanErr
  | text :: rest =>
      c ← local (ReadCancelled jobID);
      if c : bool then finishJobWithError jobID "cancelled"
      else
        let line := TrimSpace text in
        if is_empty line || negb (HasPrefix line "data:") then
          scanLoop jobID rest scanErr buffered finishReason
        else
          let payload := TrimSpace (TrimPrefix line "data:") in
          if is_empty payload || String.eqb payload "[DONE]" then
            afterScan jobID (Worker.Err rest scanErr buffered)
          else
            match Unmarshal payload with
            | inr err => finishJobWithError jobID ("decode error: " +:+ err)
            | inl streamResp =>
                r ← IncrSeq jobID;
                match snd r with
                | Some _ => scanLoop jobID rest scanErr buffered finishReason
                | None =>
                    let seq := fst r in
                    let finishReason :=
                      if osr_Done streamResp
                         && String.eqb (osr_DoneReason streamResp) "length"
                      then "length" else finishReason in
                    let chunk :=
                      {| Seq := seq;
                         Delta := osr_Content streamResp;
                         Done := osr_Done streamResp;
                         FinishReason := if osr_Done streamResp then finishReason else "";
                         Error := "" |} in
                    _ ← AddChunk jobID chunk;
                    if osr_Done streamResp
                    then afterScan jobID (Worker.Err rest scanErr buffered)
                    else scanLoop jobID rest scanErr buffered finishReason
                end
            end
  end.

Definition processJob (jobID : string) : M unit :=
  meta ← GetJobMeta jobID;
  match meta with
  | inr _ => mret tt
  | inl meta =>
      err ← UpdateJobStatus jobID StatusRunning "" "";
      match err with
      | Some _ => mret tt
      | None =>
          messages ← HGet_or_empty (key_meta jobID) "messages";
          options ← HGet_or_empty (key_meta jobID) "options";
          let reqBody := {| or_model := jm_Model meta; or_messages := messages;
                            or_options := options |} in
          resp ← local (OllamaChat reqBody);
          match resp with
          | MarshalError err => finishJobWithError jobID ("marshal error: " +:+ err)
          | NewRequestError err =>
              finishJobWithError jobID ("create request error: " +:+ err)
          | DoError err => finishJobWithError jobID ("ollama request error: " +:+ err)
          | Response StatusCode lines scanErr buffered =>
              if negb (StatusCode =? 200) then
                finishJobWithError jobID ("ollama status: " +:+ fmt_d StatusCode)
              else scanLoop jobID lines scanErr buffered "stop"
          end
      end
  end.

End Executor.

End Fallible.

(** What a run in which every command succeeds looks like among the
    runs with outages. *)
Definition reliable {R} (r : option (R * World)) : option (R * World * Fallible.Outages) :=
  match r with
  | Some (x, w) => Some (x, w, [])
  | None => None
  end.

(** The log of a job has grown by chunks that satisfy [P]. *)
Definition grown (P : ChunkData -> Prop) (jobID : string) (w w' : World) : Prop :=
  exists added,
    list_at (storage w') (key_chunks jobID) = list_at (storage w) (key_chunks jobID) ++ added
    /\ Forall P added.

(** A procedure of the executor returns, whatever replies fail, and
    what it adds to the log of the job satisfies [P]. *)
Definition Grows {A} (P : ChunkData -> Prop) (jobID : string) (m : Fallible.M A) : Prop :=
  forall w o, exists a w' o', m w o = Some (a, w', o') /\ grown P jobID w w'.

(** The replies of Redis while the executor carries out the job of
    scenario S1: the RPUSH of the second chunk fails, every other
    command succeeds. *)
Definition second_append_fails : Fallible.Outages :=
  replicate 7 None ++ [Some "connection reset by peer"].

(** A Worker that holds the metadata of one job, not yet taken up. *)
Definition stored_world : World :=
  with_storage (hset (key_meta "job-a")
                  [("status", StatusQueued); ("model", "gpt-oss:20b");
                   ("created_at", "2025-01-01T00:00:00Z")]) busy_world.

(** The replies of Redis while the executor carries out a job whose
    upstream call fails: the INCR of the terminal chunk fails, every
    other command succeeds. *)
Definition increment_fails : Fallible.Outages :=
  replicate 4 None ++ [Some "connection reset by peer"].

(** ** The text of the data frames *)



(** * Further parts of the two programs *)

(** ** What a procedure of the executor may touch *)

(** The commands of [p], whatever the replies to them, write to no key
    but those of the job [jobID], and neither write to the Worker's
    memory nor wait on its channel. *)
Definition may_issue {X} (jobID : string) (c : Cmd X) : Prop :=
  match c with
  | HSet key _ => key = key_meta jobID
  | RPush key _ => key = key_chunks jobID
  | Incr key => key = key_seq jobID
  | Expire key _ => key_of jobID key
  | TrySend _ => False
  | CountQueued => False
  | Receive => False
  | CountStarted => False
  | CountFinished => False
  | MarkCancelled _ => False
  | _ => True
  end.

Fixpoint Confined {R} (jobID : string) (p : Prog R) : Prop :=
  match p with
  | Ret _ => True
  | Vis c k => may_issue jobID c /\ forall x, Confined jobID (k x)
  end.

(** From [w] to [w'] nothing has changed but the keys of the job
    [jobID]; its log has grown at its end, if at all, and its counter
    has not gone down. *)
Definition own_keys_only (jobID : string) (w w' : World) : Prop :=
  worker w' = worker w /\ clock w' = clock w /\ ollama w' = ollama w
  /\ (forall key, ~ key_of jobID key ->
        hashes (storage w') !! key = hashes (storage w) !! key
        /\ lists (storage w') !! key = lists (storage w) !! key
        /\ counters (storage w') !! key = counters (storage w) !! key
        /\ expiring (storage w') !! key = expiring (storage w) !! key)
  /\ list_at (storage w) (key_chunks jobID) `prefix_of` list_at (storage w') (key_chunks jobID)
  /\ counter_at (storage w) (key_seq jobID) <= counter_at (storage w') (key_seq jobID).

(** The two ways [processJob] leaves a job it has found: completed, with
    a time to live of 24 hours on each of its keys that exists; or
    failed, with a last chunk that is the terminal chunk of the failure,
    numbered by the counter, the same error in the metadata, and no time
    to live set. *)
Definition ends_completed (jobID : string) (w' : World) : Prop :=
  hash_at (storage w') (key_meta jobID) !! "status" = Some StatusCompleted
  /\ forall key, key_of jobID key -> key_exists (storage w') key = true ->
       expiring (storage w') !! key = Some (24 * Hour).

Definition ends_failed (jobID : string) (w w' : World) : Prop :=
  hash_at (storage w') (key_meta jobID) !! "status" = Some StatusFailed
  /\ expiring (storage w') = expiring (storage w)
  /\ exists errorMsg,
       errorMsg <> ""
       /\ hash_at (storage w') (key_meta jobID) !! "error" = Some errorMsg
       /\ last (list_at (storage w') (key_chunks jobID))
          = Some (error_chunk (counter_at (storage w') (key_seq jobID)) errorMsg).

(** The error message of a job whose upstream call fails before the body
    of the response is read (worker/main.go, lines 339-363); [None] for a
    response with the status 200. *)
Definition upstream_failure (r : UpstreamResult) : option string :=
  match r with
  | MarshalError err => Some ("marshal error: " +:+ err)
  | NewRequestError err => Some ("create request error: " +:+ err)
  | DoError err => Some ("ollama request error: " +:+ err)
  | Response StatusCode _ _ _ =>
      if negb (StatusCode =? 200) then Some ("ollama status: " +:+ fmt_d StatusCode)
      else None
  end.

(** A Worker of concurrency 1 with nothing to do. *)
Definition idle_world : World :=
  {| storage := empty_store; worker := NewWorker 1;
     clock := "2025-01-01T00:00:00Z";
     ollama := fun _ => DoError "connection refused" |}.

(** ** Invariants of the Worker process *)

(** The code a goroutine still has to run appends only chunks that
    satisfy [P]. *)
Definition thread_appends (P : ChunkData -> Prop) (t : Thread) : Prop :=
  match t with
  | Handler p => Appends P p
  | Executor p => Appends P p
  end.

(** What the fields of a chunk of a log look like. *)
Definition well_formed (chunk : ChunkData) : Prop :=
  (Done chunk = true <-> FinishReason chunk <> "")
  /\ (FinishReason chunk = "" \/ FinishReason chunk = "stop"
      \/ FinishReason chunk = "length" \/ FinishReason chunk = "error")
  /\ (FinishReason chunk = "error" -> Delta chunk = "")
  /\ (Error chunk <> "" -> FinishReason chunk = "error").

(** A done chunk is the last chunk of the log, or it carries no error
    and is followed by one more chunk, the last one, which carries an
    error: the scanner had met a read error when the executor left the
    loop on the done record (worker/main.go, lines 415-423). *)
Definition done_ends (log : list ChunkData) : Prop :=
  forall (i : nat) (chunk : ChunkData),
    log !! i = Some chunk -> Done chunk = true ->
    S i = length log
    \/ (Error chunk = "" /\ S (S i) = length log
        /\ exists failure, log !! S i = Some failure /\ Error failure <> "").

(** How far a goroutine has got with the log of its job in the turn it
    is in: it has appended no done chunk; it has appended a done chunk
    that carries no error; it has appended a chunk that carries an
    error. *)
Inductive Seal :=
| Open
| AfterDone
| Closed.

Definition seal_next {X} (seal : Seal) (c : Cmd X) : Seal :=
  match c with
  | RPush _ item =>
      if negb (is_empty (Error item)) then Closed
      else if Done item then AfterDone
      else seal
  | Receive => Open
  | _ => seal
  end.

(** [Seals seal p]: whatever the replies, the code [p] appends, within
    a turn, nothing after a chunk that carries an error, and after a
    done chunk nothing but a chunk that carries an error. *)
Fixpoint Seals {R} (seal : Seal) (p : Prog R) : Prop :=
  match p with
  | Ret _ => True
  | Vis c k =>
      match c with
      | RPush _ item =>
          match seal with
          | Open => True
          | AfterDone => Error item <> ""
          | Closed => False
          end
      | _ => True
      end
      /\ forall x, Seals (seal_next seal c) (k x)
  end.

Definition thread_seals (seal : Seal) (t : Thread) : Prop :=
  match t with
  | Handler p => Seals seal p
  | Executor p => Seals seal p
  end.

(** What the log of a job looks like while a goroutine holds the job. *)
Definition seal_log (seal : Seal) (log : list ChunkData) : Prop :=
  match seal with
  | Open => Forall (fun chunk => Done chunk = false) log
  | AfterDone =>
      exists before final,
        log = before ++ [final]
        /\ Forall (fun chunk => Done chunk = false) before
        /\ Done final = true /\ Error final = ""
  | Closed => True
  end.

Definition Sealed (s : System) (ghosts : list Ghost) (seals : list Seal) : Prop :=
  Forall2 thread_seals seals (threads s)
  /\ (forall i jobID pending b seal,
        ghosts !! i = Some (GHolds jobID pending b) -> seals !! i = Some seal ->
        seal_log seal (list_at (storage (world s)) (key_chunks jobID)))
  /\ forall jobID, done_ends (list_at (storage (world s)) (key_chunks jobID)).

(** Scenario S1 with a body that is cut short: the scanner meets the
    error "unexpected EOF" while it still holds the last three lines,
    which it yields; the executor leaves the loop on the done record. *)
Definition cut_backend (req : OllamaRequest) : UpstreamResult :=
  Response 200 hello_lines (Some "unexpected EOF") 3.

Definition S1_cut : option System :=
  sys_run hello_unmarshal
    ([Arrive (PostJobs (inl hello_request) "job-a")]
     ++ replicate 10 (Step 1%nat)
     ++ replicate 23 (Step 0%nat))
    (boot hello_unmarshal 1 cut_backend "2025-01-01T00:00:00Z").

(** ** The Worker's entry point (worker/main.go, lines 585-625) *)

Module WorkerMain.

Record Settings := {
  redisURL : string;
  ollamaURL : string;
  workers : Z;              (* concurrency *)
  port : string
}.

(** [Getenv] is [os.Getenv]: the empty string for a variable that is
    not set. *)
Definition settings (Getenv : string -> string) : Settings :=
  let redisURL := Getenv "REDIS_URL" in
  let redisURL := if is_empty redisURL then "redis://localhost:6379/0" else redisURL in
  let ollamaURL := Getenv "OLLAMA_BASE_URL" in
  let ollamaURL := if is_empty ollamaURL then "http://127.0.0.1:11434" else ollamaURL in
  let concurrency := 10 in
  let c := Getenv "WORKER_CONCURRENCY" in
  let concurrency :=
    if negb (is_empty c)
    then match Atoi c with Some val => val | None => concurrency end
    else concurrency in
  let port := Getenv "PORT" in
  let port := if is_empty port then "5345" else port in
  {| redisURL := redisURL; ollamaURL := ollamaURL; workers := concurrency; port := port |}.

(** The Worker process once [main] has built the Worker; [None] when
    [NewWorker] panics, [make] being given a negative capacity for the
    channel.  (What the machine can hold is not modelled: [make] is
    taken to grant every capacity that is not negative, and [go] to
    start every goroutine.)  [NewWorker] starts a goroutine of [run]
    for every [i] from 0 that is below [concurrency]: none when it is
    negative. *)
Definition start (Unmarshal : string -> OllamaStreamResponse + string)
    (Getenv : string -> string) (backend : OllamaRequest -> UpstreamResult) (t0 : string)
    : option System :=
  let concurrency := workers (settings Getenv) in
  let worker := NewWorker concurrency in
  if maxQueueSize worker <? 0 then None
  else
    Some {| world := {| storage := empty_store; worker := worker;
                        clock := t0; ollama := backend |};
            threads := replicate (Z.to_nat concurrency)
                         (Executor (Worker.run_iteration Unmarshal));
            issued := ∅ |}.

End WorkerMain.

(** ** The Gateway's configuration (gateway/main.go, lines 79-106) *)

Definition getEnv (Getenv : string -> string) (key defaultVal : string) : string :=
  let val := Getenv key in
  if negb (is_empty val) then val else defaultVal.

Definition getEnvInt (Getenv : string -> string) (key : string) (defaultVal : Z) : Z :=
  let val := Getenv key in
  if negb (is_empty val)
  then match Atoi val with Some i => i | None => defaultVal end
  else defaultVal.

Definition LoadConfig (Getenv : string -> string) : Gateway.Config :=
  {| Gateway.BackendURL := getEnv Getenv "BACKEND_PROXY_URL" "http://localhost:5345";
     Gateway.PollIntervalMS := getEnvInt Getenv "POLL_INTERVAL_MS" 500;
     Gateway.RetryBackoffInitMS := getEnvInt Getenv "RETRY_BACKOFF_INIT_MS" 1000;
     Gateway.RetryBackoffMaxMS := getEnvInt Getenv "RETRY_BACKOFF_MAX_MS" 30000;
     Gateway.JobTimeoutMS := getEnvInt Getenv "JOB_TIMEOUT_MS" 1800000;
     Gateway.APIKeyRequired :=
       String.eqb (getEnv Getenv "OPENAI_API_KEY_REQUIRED" "false") "true";
     Gateway.APIKey := getEnv Getenv "OPENAI_API_KEY" "" |}.

(** ** The Gateway's handlers (gateway/main.go, lines 140-185 and 222-507) *)

Module Proxy1Server.

Definition StatusServiceUnavailable : Z := 503.

Record BackendJobRequest := {
  bj_Model : string;
  bj_Messages : list string;
  bj_Options : list (string * string)    (* a map: each key with the JSON text of its value *)
}.

Record BackendJobResponse := {
  bjr_JobID : string;
  bjr_Status : string
}.

(** What becomes of the request [POST /jobs]: the request cannot be
    encoded or sent, or the backend answers, with a status code and a
    body; [decoded] is what [json.Decode] makes of that body. *)
Inductive PostOutcome :=
| MarshalFailed (err : string)
| PostFailed (err : string)
| PostResponse (StatusCode : Z) (body : string) (decoded : BackendJobResponse + string).

(** What becomes of the request [GET /stats]. *)
Inductive GetOutcome :=
| GetFailed (err : string)
| GetResponse (StatusCode : Z) (body : string).

Record ModelEntry := {
  m_id : string;
  m_object : string;
  m_created : Z;
  m_owned_by : string
}.

(** The answer of a handler of the Gateway. *)
Inductive Answer :=
| Plain (r : Gateway.GatewayResponse)        (* one JSON body *)
| Events (s : Gateway.Streamed)              (* [handleStreamingChat] *)
| Waiting                                    (* the handler is still polling *)
| ModelList (models : list ModelEntry)       (* {"object": "list", "data": [...]} *)
| Copied (body : string).                    (* the body of the backend, as it is *)

Section Requests.

(** A [float64] decoded from JSON, with its comparison to zero and its
    JSON encoding. *)
Variable float64 : Type.
Variable is_zero : float64 -> bool.
Variable marshal_float : float64 -> string.

Record OpenAIChatRequest := {
  cr_Model : string;
  cr_Messages : list string;
  cr_Stream : bool;
  cr_Temperature : float64;
  cr_TopP : float64;
  cr_MaxTokens : Z
}.

(** The request [createBackendJob] builds.  The options are a Go map;
    they are listed here in the order of the assignments. *)
Definition backendReq (req : OpenAIChatRequest) : BackendJobRequest :=
  let options := [] in
  let options := if negb (is_zero (cr_Temperature req))
                 then options ++ [("temperature", marshal_float (cr_Temperature req))]
                 else options in
  let options := if negb (is_zero (cr_TopP req))
                 then options ++ [("top_p", marshal_float (cr_TopP req))]
                 else options in
  let options := if negb (cr_MaxTokens req =? 0)
                 then options ++ [("num_predict", fmt_d (cr_MaxTokens req))]
                 else options in
  {| bj_Model := cr_Model req; bj_Messages := cr_Messages req; bj_Options := options |}.

(** [post] is what the environment makes of the request that is sent. *)
Definition createBackendJob (post : BackendJobRequest -> PostOutcome)
    (req : OpenAIChatRequest) : Gateway.Creation :=
  match post (backendReq req) with
  | MarshalFailed err => Gateway.CreationFailed err
  | PostFailed err => Gateway.CreationFailed err
  | PostResponse StatusCode body decoded =>
      if StatusCode =? StatusTooManyRequests then Gateway.RateLimited body
      else if negb (StatusCode =? StatusOK) then
        Gateway.CreationFailed ("backend error: " +:+ body)
      else
        match decoded with
        | inr err => Gateway.CreationFailed err
        | inl jobResp => Gateway.JobCreated (bjr_JobID jobResp)
        end
  end.

(** [POST /v1/chat/completions].  [authHeader] is the Authorization
    header, [body] the outcome of decoding the request body, [uuid] and
    [now] the values drawn from [uuid.New()] and [time.Now().Unix()]. *)
Definition ChatCompletions (config : Gateway.Config) (authHeader : string)
    (body : OpenAIChatRequest + string) (post : BackendJobRequest -> PostOutcome)
    (flusher : bool) (turns : list Gateway.Turn) (uuid : string) (now : Z) : Answer :=
  match Gateway.validateAuth config authHeader with
  | Some err => Plain (Gateway.writeError err StatusUnauthorized)
  | None =>
      match body with
      | inr err => Plain (Gateway.writeError err StatusBadRequest)
      | inl req =>
          if cr_Stream req then
            Events (Gateway.handleStreamingChat ("chatcmpl-" +:+ uuid) now (cr_Model req)
                      config (createBackendJob post req) flusher turns)
          else
            match Gateway.handleNonStreamingChat uuid now (cr_Model req) config
                    (createBackendJob post req) turns with
            | Some r => Plain r
            | None => Waiting
            end
      end
  end.

End Requests.

(** [GET /v1/models]; [now] and [now'] are the two readings of the
    clock. *)
Definition Models (config : Gateway.Config) (authHeader : string) (now now' : Z) : Answer :=
  match Gateway.validateAuth config authHeader with
  | Some err => Plain (Gateway.writeError err StatusUnauthorized)
  | None =>
      ModelList
        [ {| m_id := "gpt-oss:20b"; m_object := "model"; m_created := now;
             m_owned_by := "ollama" |};
          {| m_id := "gpt-oss:120b"; m_object := "model"; m_created := now';
             m_owned_by := "ollama" |} ]
  end.

(** [GET /v1/stats]; [get] is what becomes of the request to the
    backend, which is sent only once the check has passed. *)
Definition BackendStats (config : Gateway.Config) (authHeader : string)
    (get : GetOutcome) : Answer :=
  match Gateway.validateAuth config authHeader with
  | Some err => Plain (Gateway.writeError err StatusUnauthorized)
  | None =>
      match get with
      | GetFailed err =>
          Plain (Gateway.writeError ("failed to get backend stats: " +:+ err)
                   StatusInternalServerError)
      | GetResponse StatusCode body =>
          if negb (StatusCode =? StatusOK) then
            Plain (Gateway.writeError "backend stats unavailable" StatusServiceUnavailable)
          else Copied body
      end
  end.

Section Sleeps.

Variables (chatID : string) (created : Z) (model : string).

(** [time.Millisecond], a [time.Duration] in nanoseconds. *)
Definition Millisecond : Z := 1000000.

(** [time.Duration(ms) * time.Millisecond]. *)
Definition milliseconds (ms : Z) : Z := int_wrap (ms * Millisecond).

(** The durations that the polling loop of [handleStreamingChat]
    passes to [time.Sleep], in order. *)
Fixpoint streamSleeps (config : Gateway.Config) (turns : list Gateway.Turn)
    (lastSeq retryDelay : Z) : list Z :=
  match turns with
  | [] => []
  | Gateway.Deadline :: _ => []
  | Gateway.Poll answer :: rest =>
      match answer lastSeq with
      | inr _ =>
          milliseconds retryDelay
          :: streamSleeps config rest lastSeq
               (Gateway.min (int_wrap (retryDelay * 2)) (Gateway.RetryBackoffMaxMS config))
      | inl events =>
          let retryDelay := Gateway.RetryBackoffInitMS config in
          let '(frames, lastSeq, returned) :=
            Gateway.streamChunks chatID created model (Gateway.bChunks events) lastSeq in
          if returned : bool then []
          else if Gateway.is_terminal (Gateway.bStatus events) then []
          else milliseconds (Gateway.PollIntervalMS config)
               :: streamSleeps config rest lastSeq retryDelay
      end
  end.

(** The same for [handleNonStreamingChat]. *)
Fixpoint gatherSleeps (config : Gateway.Config) (turns : list Gateway.Turn)
    (lastSeq retryDelay : Z) (fullContent finishReason : string) : list Z :=
  match turns with
  | [] => []
  | Gateway.Deadline :: _ => []
  | Gateway.Poll answer :: rest =>
      match answer lastSeq with
      | inr _ =>
          milliseconds retryDelay
          :: gatherSleeps config rest lastSeq
               (Gateway.min (int_wrap (retryDelay * 2)) (Gateway.RetryBackoffMaxMS config))
               fullContent finishReason
      | inl events =>
          let retryDelay := Gateway.RetryBackoffInitMS config in
          match Gateway.gatherChunks (Gateway.bChunks events) lastSeq fullContent
                  finishReason with
          | Gateway.GatherFailed _ => []
          | Gateway.GatherNext lastSeq fullContent finishReason =>
              if String.eqb (Gateway.bStatus events) "completed" then []
              else if String.eqb (Gateway.bStatus events) "failed"
                      || String.eqb (Gateway.bStatus events) "cancelled" then []
              else milliseconds (Gateway.PollIntervalMS config)
                   :: gatherSleeps config rest lastSeq retryDelay fullContent finishReason
          end
      end
  end.

End Sleeps.

End Proxy1Server.

(** ** The Gateway creating a job at a Worker

    The request of [createBackendJob] as [Server.CreateJob] decodes it
    (empty messages and options are left out of the encoding, and
    decode as empty; the three keys the Gateway uses are written as
    they are, between quotes), served by the Worker in the state [w]
    with the job id [uuid], and the response as the Gateway reads it;
    [encode] is the JSON text of a body. *)
Definition worker_post (encode : Body -> string) (w : World) (uuid : string)
    (r : Proxy1Server.BackendJobRequest) : Proxy1Server.PostOutcome :=
  let req := {| jr_Model := Proxy1Server.bj_Model r;
                jr_Messages := Proxy1Server.bj_Messages r;
                jr_Prompt := "";
                jr_Options :=
                  list_to_map
                    ((fun kv => (fst kv, (dquote +:+ fst kv +:+ dquote, snd kv)))
                       <$> Proxy1Server.bj_Options r) |} in
  match run (Server.CreateJob (inl req) uuid) w with
  | Some (resp, _) =>
      Proxy1Server.PostResponse (resp_code resp) (encode (resp_body resp))
        match resp_body resp with
        | BodyJob job =>
            inl {| Proxy1Server.bjr_JobID := jresp_JobID job;
                   Proxy1Server.bjr_Status := jresp_Status job |}
        | BodyError _ _ _ =>           (* an object without the two fields *)
            inl {| Proxy1Server.bjr_JobID := ""; Proxy1Server.bjr_Status := "" |}
        | _ => inr "invalid character"  (* the plain text of [http.Error] *)
        end
  | None => Proxy1Server.PostFailed "no response"
  end.

(** ** The frames of an event stream *)

Definition data_frame (f : Gateway.Frame) : Prop :=
  match f with
  | Gateway.DataFrame _ => True
  | _ => False
  end.

(** The terminator [data: [DONE]], or an error frame. *)
Definition final_frame (f : Gateway.Frame) : Prop :=
  match f with
  | Gateway.DataFrame _ => False
  | _ => True
  end.

(** A stream that is closed ends with its only final frame; one that is
    still open has none. *)
Definition well_ended (frames : list Gateway.Frame) (closed : bool) : Prop :=
  if closed
  then exists datas final,
         frames = datas ++ [final] /\ Forall data_frame datas /\ final_frame final
  else Forall data_frame frames.

(** The backoff after the [j]-th failed poll in a row, counted from 0,
    in milliseconds. *)
Definition backoff (config : Gateway.Config) (j : nat) : Z :=
  Z.min (Gateway.RetryBackoffInitMS config * 2 ^ Z.of_nat j) (Gateway.RetryBackoffMaxMS config).

(** A wait of a polling loop, in nanoseconds: the poll interval, or a
    backoff between the initial and the maximal value. *)
Definition expected_wait (config : Gateway.Config) (d : Z) : Prop :=
  d = Proxy1Server.milliseconds (Gateway.PollIntervalMS config)
  \/ Gateway.RetryBackoffInitMS config * Proxy1Server.Millisecond <= d
     <= Gateway.RetryBackoffMaxMS config * Proxy1Server.Millisecond.

(** A configuration whose maximal backoff, in nanoseconds, is within
    the range of a [time.Duration], and whose initial backoff is
    positive and not above the maximal one. *)
Definition backoff_in_range (config : Gateway.Config) : Prop :=
  0 < Gateway.RetryBackoffInitMS config <= Gateway.RetryBackoffMaxMS config
  /\ Gateway.RetryBackoffMaxMS config * Proxy1Server.Millisecond <= MaxInt.

(** A log whose last chunk is done. *)
Definition ended (log : list ChunkData) : bool :=
  match last log with
  | Some chunk => Done chunk
  | None => false
  end.

(** The finish reason of the last chunk of a log. *)
Definition final_reason (log : list ChunkData) : string :=
  match last log with
  | Some chunk => FinishReason chunk
  | None => ""
  end.

(** The keyspace once [CreateJob] has written the request (worker/main.go,
    lines 468-487). *)
Definition stored_request (req : JobRequest) (jobID now : string) (st : Store) : Store :=
  let st := hset (key_meta jobID)
              [("status", StatusQueued); ("model", jr_Model req); ("created_at", now)] st in
  let st := if (0 <? length (jr_Messages req))%nat
            then hset (key_meta jobID) [("messages", json_array (jr_Messages req))] st
            else st in
  if (0 <? size (jr_Options req))%nat
  then hset (key_meta jobID) [("options", json_object (jr_Options req))] st
  else st.

(** A request with two options, given out of order. *)
Definition tuned_request : JobRequest :=
  {| jr_Model := "gpt-oss:20b"; jr_Messages := ["{}"]; jr_Prompt := "";
     jr_Options :=
       <["temperature" := (dquote +:+ "temperature" +:+ dquote, "0.7")]>
         (<["num_predict" := (dquote +:+ "num_predict" +:+ dquote, "64")]> ∅) |}.

(** The answer 429 of [Server.CreateJob]. *)
Definition overloaded (err : string) : HTTPResponse :=
  {| resp_code := StatusTooManyRequests;
     resp_body := BodyError ("Service overloaded: " +:+ err)
                    "server_error" "rate_limit_exceeded" |}.

(** * Properties *)

(** ** Running programs *)

Lemma run_bind {A B} (p : Prog A) (f : A -> Prog B) (w : World) :
  run (p ≫= f) w = match run p w with Some (a, w') => run (f a) w' | None => None end.
Proof.
  revert w. induction p as [a | X c k IH]; intros w; [reflexivity |].
  change (run (Vis c k ≫= f) w) with
    (match exec c w with Some (x, w') => run (k x ≫= f) w' | None => None end).
  simpl. destruct (exec c w) as [[x w'] |]; [apply IH | reflexivity].
Qed.

Lemma run_GetJobMeta jobID w :
  run (Storage.GetJobMeta jobID) w
  = Some (Storage.read_meta (hash_at (storage w) (key_meta jobID)), w).
Proof. reflexivity. Qed.

Lemma run_UpdateJobStatus jobID status completedAt errorMsg w :
  run (Storage.UpdateJobStatus jobID status completedAt errorMsg) w
  = Some (tt, with_storage
                (hset (key_meta jobID) (Storage.status_data status completedAt errorMsg)) w).
Proof. reflexivity. Qed.

(** ** The keyspace *)

Lemma hash_at_hset key values st :
  hash_at (hset key values st) key = set_fields values (hash_at st key).
Proof. unfold hash_at at 1, hset. simpl. by rewrite lookup_insert_eq. Qed.

Lemma hash_at_hset_ne key key' values st :
  key <> key' -> hash_at (hset key values st) key' = hash_at st key'.
Proof. intros H. unfold hash_at, hset. simpl. by rewrite lookup_insert_ne. Qed.

Lemma status_data_status status completedAt errorMsg h :
  set_fields (Storage.status_data status completedAt errorMsg) h !! "status" = Some status.
Proof.
  unfold Storage.status_data, set_fields.
  destruct (is_empty completedAt), (is_empty errorMsg); simpl;
    repeat (rewrite lookup_insert_ne by done); by rewrite lookup_insert_eq.
Qed.

Lemma read_meta_status (h : gmap string string) status :
  h !! "status" = Some status ->
  exists meta, Storage.read_meta h = Some meta /\ jm_Status meta = status.
Proof.
  intros H. unfold Storage.read_meta.
  assert ((size h =? 0)%nat = false) as ->.
  { apply Nat.eqb_neq. intros Hs. apply map_size_empty_iff in Hs.
    subst h. by rewrite lookup_empty in H. }
  eexists. split; [reflexivity |]. cbn. by rewrite H.
Qed.

(** ** C9: the shared-secret check *)

(** C9, as stated, fails: with an empty configured key, a request whose
    Authorization header is empty has a header that equals the key after
    stripping, and is refused. *)
Lemma validateAuth_empty_header_refused :
  Gateway.APIKeyRequired keyless_config = true
  /\ TrimPrefix "" "Bearer " = Gateway.APIKey keyless_config
  /\ Gateway.validateAuth keyless_config "" = Some "missing authorization header".
Proof. repeat split. Qed.

Lemma is_empty_true s : is_empty s = true <-> s = "".
Proof. destruct s; simpl; split; congruence. Qed.

(** C9 (amended): with the check enabled, a request is accepted exactly
    when its Authorization header is not empty and equals the configured
    key once one leading "Bearer " is stripped.  So the bare key is
    accepted when it is not empty and does not itself start with
    "Bearer ", and with an empty configured key the header "Bearer " is
    accepted. *)
Theorem validateAuth_accepts (config : Gateway.Config) :
  Gateway.APIKeyRequired config = true ->
  (forall authHeader,
     Gateway.validateAuth config authHeader = None
     <-> authHeader <> "" /\ TrimPrefix authHeader "Bearer " = Gateway.APIKey config)
  /\ (Gateway.APIKey config <> "" ->
      HasPrefix (Gateway.APIKey config) "Bearer " = false ->
      Gateway.validateAuth config (Gateway.APIKey config) = None)
  /\ (Gateway.APIKey config = "" -> Gateway.validateAuth config "Bearer " = None).
Proof.
  intros Hreq.
  assert (Hiff : forall authHeader,
     Gateway.validateAuth config authHeader = None
     <-> authHeader <> "" /\ TrimPrefix authHeader "Bearer " = Gateway.APIKey config).
  { intros authHeader. unfold Gateway.validateAuth. rewrite Hreq. simpl.
    destruct (is_empty authHeader) eqn:He.
    - apply is_empty_true in He. split; [discriminate | intros [? _]; contradiction].
    - assert (authHeader <> "") by (intros ->; discriminate).
      destruct (String.eqb_spec (TrimPrefix authHeader "Bearer ") (Gateway.APIKey config));
        simpl; split; try tauto; try discriminate. }
  split; [exact Hiff |]. split.
  - intros Hne Hpre. apply Hiff. split; [exact Hne |].
    unfold TrimPrefix. by rewrite Hpre.
  - intros Hk. apply Hiff. split; [discriminate |]. by rewrite Hk.
Qed.

Lemma validateAuth_accepts_witness :
  Gateway.validateAuth keyed_config "sk-key" = None
  /\ Gateway.validateAuth keyed_config "Bearer sk-key" = None.
Proof.
  destruct (validateAuth_accepts keyed_config eq_refl) as [Hiff [Hbare _]].
  split.
  - apply Hbare; [discriminate | reflexivity].
  - apply Hiff. split; [discriminate | reflexivity].
Defined.

(** ** C10: cancelling any job id *)

(** C10: for every job id and every state of the Worker, known id or
    not, the cancel handler answers 200 and leaves the status
    "cancelled" in the job's metadata hash, and a status request that
    follows answers 200 with the status "cancelled"; on an id with no
    metadata the status request answered 404 before. *)
Theorem CancelJob_any_id (w : World) (jobID : string) :
  exists w',
    run (Server.CancelJob jobID) w
    = Some ({| resp_code := StatusOK; resp_body := BodyEmpty |}, w')
    /\ hash_at (storage w') (key_meta jobID) !! "status" = Some StatusCancelled
    /\ (exists sr,
         run (Server.GetStatus jobID) w'
         = Some ({| resp_code := StatusOK; resp_body := BodyStatus sr |}, w')
         /\ sr_Status sr = StatusCancelled)
    /\ (hash_at (storage w) (key_meta jobID) = ∅ ->
        run (Server.GetStatus jobID) w
        = Some ({| resp_code := StatusNotFound; resp_body := BodyText "job not found" |}, w)).
Proof.
  eexists. split; [reflexivity |].
  simpl storage. rewrite hash_at_hset.
  pose proof (status_data_status StatusCancelled (clock w) ""
                (hash_at (storage w) (key_meta jobID))) as Hst.
  split; [exact Hst |]. split.
  - destruct (read_meta_status _ _ Hst) as (meta & Hmeta & Hs).
    exists {| sr_Status := jm_Status meta; sr_CreatedAt := jm_CreatedAt meta;
              sr_CompletedAt := jm_CompletedAt meta; sr_Error := jm_Error meta |}.
    split; [| exact Hs].
    unfold Server.GetStatus. rewrite run_bind, run_GetJobMeta.
    simpl storage. rewrite hash_at_hset, Hmeta. reflexivity.
  - intros Hnone. unfold Server.GetStatus. rewrite run_bind, run_GetJobMeta, Hnone.
    reflexivity.
Qed.

(** ** The arithmetic of [int] *)

Lemma int_wrap_small (z : Z) : MinInt <= z <= MaxInt -> int_wrap z = z.
Proof.
  unfold int_wrap, MinInt, MaxInt. intros H.
  rewrite Z.mod_small by lia. lia.
Qed.

Lemma int_wrap_below (z : Z) : MaxInt < z < 2 ^ 64 -> int_wrap z = z - 2 ^ 64.
Proof.
  unfold int_wrap, MinInt, MaxInt. intros H.
  replace (z - - 2 ^ 63) with ((z - 2 ^ 63) + 1 * 2 ^ 64) by lia.
  rewrite Z.mod_add by lia. rewrite Z.mod_small by lia. lia.
Qed.

(** A Worker that has started has the ceiling 2N. *)
Lemma started_ceiling (N : nat) :
  started N -> maxQueueSize (NewWorker (Z.of_nat N)) = 2 * Z.of_nat N.
Proof.
  unfold started, NewWorker. cbn [maxQueueSize]. intros [Hint Hmake].
  destruct (Z_le_gt_dec (Z.of_nat N * 2) MaxInt) as [Hle | Hgt].
  - rewrite int_wrap_small; [lia |]. unfold MinInt. lia.
  - rewrite int_wrap_below in Hmake; unfold MaxInt in *; lia.
Qed.

Lemma started_below (N : nat) : 2 * Z.of_nat N <= MaxInt -> started N.
Proof.
  intros H. unfold started, NewWorker. cbn [maxQueueSize].
  rewrite int_wrap_small; unfold MinInt, MaxInt in *; lia.
Qed.

Lemma started_one : started 1.
Proof. apply started_below. vm_compute. discriminate. Qed.

(** ** Frame rules of the keyspace *)

Lemma list_at_rpush key item st :
  list_at (rpush key item st) key = list_at st key ++ [item].
Proof. unfold list_at at 1, rpush. simpl. by rewrite lookup_insert_eq. Qed.

Lemma list_at_rpush_ne key key' item st :
  key <> key' -> list_at (rpush key item st) key' = list_at st key'.
Proof. intros H. unfold list_at, rpush. simpl. by rewrite lookup_insert_ne. Qed.

Lemma list_at_hset key values st key' : list_at (hset key values st) key' = list_at st key'.
Proof. reflexivity. Qed.

Lemma list_at_incr key st key' : list_at (incr key st) key' = list_at st key'.
Proof. reflexivity. Qed.

Lemma list_at_expire key ttl st key' :
  list_at (expire key ttl st) key' = list_at st key'.
Proof. unfold expire. by destruct (key_exists st key). Qed.

Lemma counter_at_incr key st : counter_at (incr key st) key = counter_at st key + 1.
Proof. unfold counter_at at 1, incr. simpl. by rewrite lookup_insert_eq. Qed.

Lemma counter_at_incr_ne key key' st :
  key <> key' -> counter_at (incr key st) key' = counter_at st key'.
Proof. intros H. unfold counter_at, incr. simpl. by rewrite lookup_insert_ne. Qed.

Lemma counter_at_hset key values st key' :
  counter_at (hset key values st) key' = counter_at st key'.
Proof. reflexivity. Qed.

Lemma counter_at_rpush key item st key' :
  counter_at (rpush key item st) key' = counter_at st key'.
Proof. reflexivity. Qed.

Lemma counter_at_expire key ttl st key' :
  counter_at (expire key ttl st) key' = counter_at st key'.
Proof. unfold expire. by destruct (key_exists st key). Qed.

Lemma hash_at_rpush key item st key' : hash_at (rpush key item st) key' = hash_at st key'.
Proof. reflexivity. Qed.

Lemma hash_at_incr key st key' : hash_at (incr key st) key' = hash_at st key'.
Proof. reflexivity. Qed.

Lemma hash_at_expire key ttl st key' :
  hash_at (expire key ttl st) key' = hash_at st key'.
Proof. unfold expire. by destruct (key_exists st key). Qed.

Lemma list_at_remove key st key' :
  list_at (remove key st) key' = if decide (key = key') then [] else list_at st key'.
Proof.
  unfold list_at, remove. simpl. destruct (decide (key = key')) as [-> | Hne].
  - by rewrite lookup_delete_eq.
  - by rewrite lookup_delete_ne.
Qed.

Lemma counter_at_remove key st key' :
  counter_at (remove key st) key' = if decide (key = key') then 0 else counter_at st key'.
Proof.
  unfold counter_at, remove. simpl. destruct (decide (key = key')) as [-> | Hne].
  - by rewrite lookup_delete_eq.
  - by rewrite lookup_delete_ne.
Qed.

Create Rewrite HintDb keyspace.

#[global] Hint Rewrite hash_at_hset list_at_rpush counter_at_incr
  list_at_hset list_at_incr list_at_expire
  counter_at_hset counter_at_rpush counter_at_expire
  hash_at_rpush hash_at_incr hash_at_expire : keyspace.

Ltac keyspace := cbn [storage worker clock ollama with_storage with_worker];
  autorewrite with keyspace.

(** ** Running the Worker's procedures *)

Lemma run_finishJobWithError jobID errorMsg w :
  run (Worker.finishJobWithError jobID errorMsg) w
  = Some (tt, with_storage
       (fun st =>
          hset (key_meta jobID) (Storage.status_data StatusFailed (clock w) errorMsg)
            (rpush (key_chunks jobID)
               (error_chunk (counter_at st (key_seq jobID) + 1) errorMsg)
               (incr (key_seq jobID) st))) w).
Proof. reflexivity. Qed.

Lemma run_Enqueue_full jobID w :
  maxQueueSize (worker w) <= activeJobs (worker w) + Z.of_nat (length (queue (worker w))) ->
  run (Worker.Enqueue jobID) w
  = Some (Some ("queue full: active=" +:+ fmt_d (activeJobs (worker w)) +:+ ", queued="
                +:+ fmt_d (Z.of_nat (length (queue (worker w)))) +:+ ", max="
                +:+ fmt_d (maxQueueSize (worker w))), w).
Proof.
  intros H. unfold Worker.Enqueue. cbn -[fmt_d Z.leb Z.add].
  destruct (Z.leb_spec (maxQueueSize (worker w))
              (activeJobs (worker w) + Z.of_nat (length (queue (worker w))))); [reflexivity | lia].
Qed.

(** ** C2: a request that arrives at a saturated Worker *)

(** C2, as stated, fails: at a saturated Worker the request is refused
    with 429, but by then the metadata of the new job is in the store,
    where it stays with the status "failed". *)
Lemma CreateJob_overload_leaves_metadata :
  maxQueueSize (worker busy_world)
    <= activeJobs (worker busy_world) + queuedJobs (worker busy_world)
  /\ hash_at (storage busy_world) (key_meta "job-c") = ∅
  /\ exists body w',
       run (Server.CreateJob (inl hello_request) "job-c") busy_world
       = Some ({| resp_code := StatusTooManyRequests; resp_body := body |}, w')
       /\ hash_at (storage w') (key_meta "job-c") !! "status" = Some StatusFailed
       /\ storage w' <> storage busy_world.
Proof.
  split; [vm_compute; discriminate |]. split; [reflexivity |].
  eexists _, _. split; [reflexivity |]. split; [reflexivity |].
  intros Heq. apply (f_equal (fun st => hash_at st (key_meta "job-c") !! "status")) in Heq.
  vm_compute in Heq. discriminate.
Qed.


(** ** C1: what the executor does when it sees the cancellation *)




(** ** The chunks of an executor whose Redis commands may fail *)

Section Grows.

Variable P : ChunkData -> Prop.
Variable jobID : string.

Lemma grown_refl (w : World) : grown P jobID w w.
Proof. exists []. by rewrite app_nil_r. Qed.

Lemma grown_trans (w1 w2 w3 : World) :
  grown P jobID w1 w2 -> grown P jobID w2 w3 -> grown P jobID w1 w3.
Proof.
  intros (a & Ha & HPa) (b & Hb & HPb). exists (a ++ b).
  split; [by rewrite Hb, Ha, app_assoc | by apply Forall_app].
Qed.

Lemma grown_same (w w' : World) :
  list_at (storage w') (key_chunks jobID) = list_at (storage w) (key_chunks jobID) ->
  grown P jobID w w'.
Proof. intros H. exists []. by rewrite app_nil_r. Qed.

Lemma Grows_ret {A} (a : A) : Grows P jobID (mret a).
Proof. intros w o. exists a, w, o. split; [reflexivity | apply grown_refl]. Qed.

Lemma Grows_bind {A B} (m : Fallible.M A) (f : A -> Fallible.M B) :
  Grows P jobID m -> (forall a, Grows P jobID (f a)) -> Grows P jobID (m ≫= f).
Proof.
  intros Hm Hf w o. destruct (Hm w o) as (a & w1 & o1 & E1 & H1).
  destruct (Hf a w1 o1) as (b & w2 & o2 & E2 & H2).
  exists b, w2, o2. split; [| by apply (grown_trans _ w1)].
  unfold mbind, Fallible.M_bind. by rewrite E1.
Qed.

Lemma Grows_local {X} (c : Cmd X) :
  (forall w, exists x, exec c w = Some (x, w)) -> Grows P jobID (Fallible.local c).
Proof.
  intros Hc w o. destruct (Hc w) as (x & E). exists x, w, o.
  split; [| apply grown_refl]. unfold Fallible.local. by rewrite E.
Qed.

Lemma Grows_redis {X} (c : Cmd X) :
  (forall w, exists x w', exec c w = Some (x, w') /\ grown P jobID w w') ->
  Grows P jobID (Fallible.redis c).
Proof.
  intros Hc w o. unfold Fallible.redis.
  destruct o as [| [err |] o].
  - destruct (Hc w) as (x & w' & -> & H). by exists (inl x), w', [].
  - exists (inr err), w, o. split; [reflexivity | apply grown_refl].
  - destruct (Hc w) as (x & w' & -> & H). by exists (inl x), w', o.
Qed.

Lemma Grows_HSet key values : Grows P jobID (Fallible.redis (HSet key values)).
Proof. apply Grows_redis. intros w. eexists _, _. split; [reflexivity |]. by apply grown_same. Qed.

Lemma Grows_HGetAll key : Grows P jobID (Fallible.redis (HGetAll key)).
Proof. apply Grows_redis. intros w. eexists _, _. split; [reflexivity |]. apply grown_refl. Qed.

Lemma Grows_HGet key field : Grows P jobID (Fallible.redis (HGet key field)).
Proof. apply Grows_redis. intros w. eexists _, _. split; [reflexivity |]. apply grown_refl. Qed.

Lemma Grows_Incr key : Grows P jobID (Fallible.redis (Incr key)).
Proof. apply Grows_redis. intros w. eexists _, _. split; [reflexivity |]. by apply grown_same. Qed.

Lemma Grows_Expire key ttl : Grows P jobID (Fallible.redis (Expire key ttl)).
Proof.
  apply Grows_redis. intros w. eexists _, _. split; [reflexivity |].
  apply grown_same. apply list_at_expire.
Qed.

Lemma Grows_RPush chunk :
  P chunk -> Grows P jobID (Fallible.redis (RPush (key_chunks jobID) chunk)).
Proof.
  intros HP. apply Grows_redis. intros w. eexists _, _. split; [reflexivity |].
  exists [chunk]. split; [apply list_at_rpush | by constructor].
Qed.

Lemma Grows_UpdateJobStatus status completedAt errorMsg :
  Grows P jobID (Fallible.UpdateJobStatus jobID status completedAt errorMsg).
Proof.
  unfold Fallible.UpdateJobStatus. apply Grows_bind; [apply Grows_HSet | intros r].
  apply Grows_ret.
Qed.

Lemma Grows_IncrSeq : Grows P jobID (Fallible.IncrSeq jobID).
Proof.
  unfold Fallible.IncrSeq. apply Grows_bind; [apply Grows_Incr | intros r].
  destruct r; apply Grows_ret.
Qed.

Lemma Grows_AddChunk chunk : P chunk -> Grows P jobID (Fallible.AddChunk jobID chunk).
Proof.
  intros HP. unfold Fallible.AddChunk.
  apply Grows_bind; [by apply Grows_RPush | intros r]. apply Grows_ret.
Qed.

Lemma Grows_SetTTL ttl : Grows P jobID (Fallible.SetTTL jobID ttl).
Proof.
  unfold Fallible.SetTTL. apply Grows_bind; [apply Grows_Expire | intros r1].
  destruct r1; [| apply Grows_ret].
  apply Grows_bind; [apply Grows_Expire | intros r2].
  destruct r2; [| apply Grows_ret].
  apply Grows_bind; [apply Grows_Expire | intros r3]. apply Grows_ret.
Qed.

Lemma Grows_Now : Grows P jobID (Fallible.local Now).
Proof. apply Grows_local. intros w. eexists. reflexivity. Qed.

Lemma Grows_finishJobWithError errorMsg :
  (forall seq, P (error_chunk seq errorMsg)) ->
  Grows P jobID (Fallible.finishJobWithError jobID errorMsg).
Proof.
  intros HP. unfold Fallible.finishJobWithError.
  apply Grows_bind; [apply Grows_IncrSeq | intros r].
  apply Grows_bind; [apply Grows_AddChunk, HP | intros ?].
  apply Grows_bind; [apply Grows_Now | intros now].
  apply Grows_bind; [apply Grows_UpdateJobStatus | intros ?]. apply Grows_ret.
Qed.

End Grows.

Section GrowsTranslated.

Variable Unmarshal : string -> OllamaStreamResponse + string.
Variable jobID : string.

Local Abbreviation Translates := (Grows (translated Unmarshal) jobID).

Lemma translated_error seq errorMsg : translated Unmarshal (error_chunk seq errorMsg).
Proof. right. by exists errorMsg. Qed.

Lemma Grows_finish errorMsg : Translates (Fallible.finishJobWithError jobID errorMsg).
Proof. apply Grows_finishJobWithError. intros seq. apply translated_error. Qed.

Lemma Grows_afterScan scanErr : Translates (Fallible.afterScan jobID scanErr).
Proof.
  destruct scanErr as [err |]; [apply Grows_finish |]. unfold Fallible.afterScan.
  apply Grows_bind; [apply Grows_Now | intros now].
  apply Grows_bind; [apply Grows_UpdateJobStatus | intros ?].
  apply Grows_bind; [apply Grows_SetTTL | intros ?]. apply Grows_ret.
Qed.

Lemma Grows_scanLoop lines scanErr buffered :
  Translates (Fallible.scanLoop Unmarshal jobID lines scanErr buffered "stop").
Proof.
  induction lines as [| text rest IH]; [apply Grows_afterScan |].
  cbn [Fallible.scanLoop].
  apply Grows_bind; [apply Grows_local; intros ?; eexists; reflexivity | intros c].
  destruct c; [apply Grows_finish |].
  destruct (is_empty (TrimSpace text) || negb (HasPrefix (TrimSpace text) "data:"));
    [apply IH |].
  destruct (is_empty (TrimSpace (TrimPrefix (TrimSpace text) "data:"))
            || String.eqb (TrimSpace (TrimPrefix (TrimSpace text) "data:")) "[DONE]");
    [apply Grows_afterScan |].
  destruct (Unmarshal _) as [streamResp | err] eqn:Hpayload; [| apply Grows_finish].
  apply Grows_bind; [apply Grows_IncrSeq | intros r].
  destruct (snd r); [apply IH |].
  apply Grows_bind.
  - apply Grows_AddChunk. left. eexists _, streamResp. split; [exact Hpayload |].
    unfold spec_chunk. cbn [Seq]. f_equal.
    destruct (osr_Done streamResp); [| reflexivity]. cbn [andb].
    by destruct (String.eqb (osr_DoneReason streamResp) "length").
  - intros ?. destruct (osr_Done streamResp); [apply Grows_afterScan | apply IH].
Qed.

Lemma Grows_processJob : Translates (Fallible.processJob Unmarshal jobID).
Proof.
  unfold Fallible.processJob, Fallible.GetJobMeta, Fallible.HGet_or_empty.
  apply Grows_bind.
  { apply Grows_bind; [apply Grows_HGetAll | intros r].
    destruct r as [result | err]; [| apply Grows_ret].
    destruct (Storage.read_meta result); apply Grows_ret. }
  intros [meta | err]; [| apply Grows_ret].
  apply Grows_bind; [apply Grows_UpdateJobStatus | intros failed].
  destruct failed; [apply Grows_ret |].
  apply Grows_bind.
  { apply Grows_bind; [apply Grows_HGet | intros r]. destruct r; apply Grows_ret. }
  intros messages. apply Grows_bind.
  { apply Grows_bind; [apply Grows_HGet | intros r]. destruct r; apply Grows_ret. }
  intros options.
  apply Grows_bind; [apply Grows_local; intros ?; eexists; reflexivity | intros resp].
  destruct resp as [err | err | err | StatusCode lines scanErr buffered];
    try apply Grows_finish.
  destruct (negb (StatusCode =? 200)); [apply Grows_finish | apply Grows_scanLoop].
Qed.

End GrowsTranslated.

(** ** C6: the translation of upstream records *)

Lemma spec_chunks_app seq records more :
  spec_chunks seq (records ++ more)
  = spec_chunks seq records ++ spec_chunks (seq + Z.of_nat (length records)) more.
Proof.
  revert seq. induction records as [| r records IH]; intros seq; simpl.
  - by rewrite Z.add_0_r.
  - rewrite IH. do 3 f_equal. lia.
Qed.

Lemma run_afterScan_None jobID w :
  exists w',
    run (Worker.afterScan jobID None) w = Some (tt, w')
    /\ worker w' = worker w
    /\ list_at (storage w') (key_chunks jobID) = list_at (storage w) (key_chunks jobID)
    /\ hash_at (storage w') (key_meta jobID) !! "status" = Some StatusCompleted.
Proof.
  eexists. split; [reflexivity |]. keyspace.
  split; [reflexivity |]. split; [reflexivity |]. apply status_data_status.
Qed.

(** What follows the loop: nothing more is appended, or the terminal
    chunk of the read error. *)
Lemma run_afterScan jobID scanErr w :
  exists w',
    run (Worker.afterScan jobID scanErr) w = Some (tt, w')
    /\ list_at (storage w') (key_chunks jobID)
       = list_at (storage w) (key_chunks jobID)
         ++ match (fun err => "stream error: " +:+ err) <$> scanErr with
            | Some errorMsg =>
                [error_chunk (counter_at (storage w) (key_seq jobID) + 1) errorMsg]
            | None => []
            end.
Proof.
  destruct scanErr as [err |]; cbn [fmap option_fmap option_map Worker.afterScan].
  - eexists. split; [apply run_finishJobWithError |]. by keyspace.
  - destruct (run_afterScan_None jobID w) as (w' & Hrun & _ & Hl & _).
    exists w'. split; [exact Hrun |]. by rewrite Hl, app_nil_r.
Qed.

Section Translation.

Variable Unmarshal : string -> OllamaStreamResponse + string.

(** The loop, when no cancellation is seen: the log grows by the chunks
    of the valid records, numbered from the counter on, and by the
    terminal error chunk when the stream fails. *)
Lemma run_scanLoop jobID lines scanErr buffered : forall w,
  default false (cancelled (worker w) !! jobID) = false ->
  exists w',
    run (Worker.scanLoop Unmarshal jobID lines scanErr buffered "stop") w = Some (tt, w')
    /\ let seq := counter_at (storage w) (key_seq jobID) + 1 in
       let records := fst (spec_records Unmarshal lines scanErr buffered) in
       list_at (storage w') (key_chunks jobID)
       = list_at (storage w) (key_chunks jobID)
         ++ spec_chunks seq records
         ++ match snd (spec_records Unmarshal lines scanErr buffered) with
            | Some errorMsg => [error_chunk (seq + Z.of_nat (length records)) errorMsg]
            | None => []
            end.
Proof.
  induction lines as [| text rest IH]; intros w Hc.
  - cbn [Worker.scanLoop spec_records fst snd spec_chunks length app].
    destruct (run_afterScan jobID scanErr w) as (w' & Hrun & Hl).
    exists w'. split; [exact Hrun |]. cbn zeta. rewrite Hl, Z.add_0_r. reflexivity.
  - cbn [Worker.scanLoop spec_records]. rewrite run_bind.
    cbn [run Worker.isCancelled call exec]. rewrite Hc.
    unfold spec_line.
    destruct (is_empty (TrimSpace text)); cbn [orb negb]; [by apply IH |].
    destruct (HasPrefix (TrimSpace text) "data:"); cbn [orb negb]; [| by apply IH].
    destruct (is_empty (TrimSpace (TrimPrefix (TrimSpace text) "data:"))); cbn [orb].
    { destruct (run_afterScan jobID (Worker.Err rest scanErr buffered) w) as (w' & Hrun & Hl).
      exists w'. split; [exact Hrun |].
      cbn [fst snd spec_chunks length app]. cbn zeta. rewrite Hl, Z.add_0_r. reflexivity. }
    destruct (String.eqb (TrimSpace (TrimPrefix (TrimSpace text) "data:")) "[DONE]").
    { destruct (run_afterScan jobID (Worker.Err rest scanErr buffered) w) as (w' & Hrun & Hl).
      exists w'. split; [exact Hrun |].
      cbn [fst snd spec_chunks length app]. cbn zeta. rewrite Hl, Z.add_0_r. reflexivity. }
    destruct (Unmarshal (TrimSpace (TrimPrefix (TrimSpace text) "data:"))) as [r | err].
    + rewrite !run_bind. cbn [run Storage.IncrSeq Storage.AddChunk call exec].
      rewrite !run_bind. cbn [run Storage.IncrSeq Storage.AddChunk call exec].
      set (w1 := with_storage (rpush _ _) _).
      assert (Hl1 : list_at (storage w1) (key_chunks jobID)
                    = list_at (storage w) (key_chunks jobID)
                      ++ [spec_chunk (counter_at (storage w) (key_seq jobID) + 1) r]).
      { subst w1. keyspace. unfold spec_chunk. do 3 f_equal.
        destruct (osr_Done r); [| reflexivity]. cbn [andb].
        by destruct (String.eqb (osr_DoneReason r) "length"). }
      assert (Hc1 : counter_at (storage w1) (key_seq jobID)
                    = counter_at (storage w) (key_seq jobID) + 1).
      { subst w1. by keyspace. }
      destruct (osr_Done r) eqn:Hd.
      * destruct (run_afterScan jobID (Worker.Err rest scanErr buffered) w1)
          as (w' & Hrun & Hl).
        exists w'. split; [exact Hrun |].
        cbn [fst snd spec_chunks length app]. cbn zeta.
        rewrite Hl, Hl1, Hc1, <- app_assoc. reflexivity.
      * cbn [andb]. destruct (IH w1 Hc) as (w' & Hrun & Hl).
        exists w'. split; [exact Hrun |].
        destruct (spec_records Unmarshal rest scanErr buffered) as [records failure].
        cbn [fst snd] in *. rewrite Hl, Hl1, Hc1. cbn [spec_chunks length].
        rewrite <- !app_assoc. cbn [app]. do 4 f_equal.
        destruct failure; [| reflexivity]. do 2 f_equal. lia.
    + eexists. split; [apply run_finishJobWithError |]. keyspace.
      simpl. by rewrite Z.add_0_r.
Qed.

Lemma Appends_finishJobWithError jobID errorMsg :
  Appends (translated Unmarshal) (Worker.finishJobWithError jobID errorMsg).
Proof.
  split; [exact I |]. intros n.
  split; [right; by exists errorMsg |]. intros [].
  split; [exact I |]. intros now.
  split; [exact I |]. by intros [].
Qed.

Lemma Appends_afterScan jobID scanErr :
  Appends (translated Unmarshal) (Worker.afterScan jobID scanErr).
Proof.
  destruct scanErr as [err |]; [apply Appends_finishJobWithError |].
  split; [exact I |]. intros now.
  split; [exact I |]. intros [].
  split; [exact I |]. intros [].
  split; [exact I |]. intros [].
  split; [exact I |]. by intros [].
Qed.

Lemma Appends_scanLoop jobID lines scanErr buffered :
  Appends (translated Unmarshal)
    (Worker.scanLoop Unmarshal jobID lines scanErr buffered "stop").
Proof.
  induction lines as [| text rest IH]; [apply Appends_afterScan |].
  cbn [Worker.scanLoop]. split; [exact I |]. intros c.
  cbn [mbind mret Prog_bind Prog_ret bind call].
  destruct c; [apply Appends_finishJobWithError |].
  destruct (is_empty (TrimSpace text) || negb (HasPrefix (TrimSpace text) "data:"));
    [apply IH |].
  destruct (is_empty _ || String.eqb _ "[DONE]"); [apply Appends_afterScan |].
  destruct (Unmarshal _) as [r | err] eqn:Hr; [| apply Appends_finishJobWithError].
  split; [exact I |]. intros n. split.
  - left. eexists _, r. split; [exact Hr |]. unfold spec_chunk. simpl. f_equal.
    destruct (osr_Done r); [| reflexivity]. cbn [andb].
    by destruct (String.eqb (osr_DoneReason r) "length").
  - intros []. cbn [mbind mret Prog_bind Prog_ret bind call].
    destruct (osr_Done r); [apply Appends_afterScan | apply IH].
Qed.

Lemma Appends_processJob jobID :
  Appends (translated Unmarshal) (Worker.processJob Unmarshal jobID).
Proof.
  split; [exact I |]. intros result. cbn [mbind mret Prog_bind Prog_ret bind call].
  destruct (Storage.read_meta result) as [meta |]; [| exact I].
  split; [exact I |]. intros [].
  split; [exact I |]. intros messages.
  split; [exact I |]. intros options.
  split; [exact I |]. intros resp. cbn [mbind mret Prog_bind Prog_ret bind call].
  destruct resp as [err | err | err | StatusCode lines scanErr buffered];
    try apply Appends_finishJobWithError.
  destruct (negb (StatusCode =? 200));
    [apply Appends_finishJobWithError | apply Appends_scanLoop].
Qed.

(** C6: every chunk [processJob] appends, in any execution, is the
    translation of a record it decoded from the stream, or the synthetic
    terminal chunk of a failure: the translation carries the record's
    delta text and done flag, and a finish reason only when done
    ("length" when the record's done_reason is "length", "stop"
    otherwise).  And when the backend answers 200, no cancellation is
    seen and every Redis command succeeds, [processJob] returns, having
    appended exactly one such chunk per valid record up to the end of
    the stream, in order and numbered from the counter on, and then the
    terminal chunk when the stream ended on a failure: a malformed
    record, or a read error that the scanner had met by the time the
    stream ended.  And when replies of Redis fail, whichever they are,
    [processJob] returns all the same, and what it has added to the log
    are such chunks and nothing else. *)
Theorem processJob_translates_records (jobID : string) :
  Appends (translated Unmarshal) (Worker.processJob Unmarshal jobID)
  /\ (forall (w : World) (lines : list string) (scanErr : option string) (buffered : nat),
       hash_at (storage w) (key_meta jobID) <> ∅ ->
       (forall req, ollama w req = Response 200 lines scanErr buffered) ->
       default false (cancelled (worker w) !! jobID) = false ->
       exists w',
         run (Worker.processJob Unmarshal jobID) w = Some (tt, w')
         /\ let seq := counter_at (storage w) (key_seq jobID) + 1 in
            let records := fst (spec_records Unmarshal lines scanErr buffered) in
            list_at (storage w') (key_chunks jobID)
            = list_at (storage w) (key_chunks jobID)
              ++ spec_chunks seq records
              ++ match snd (spec_records Unmarshal lines scanErr buffered) with
                 | Some errorMsg => [error_chunk (seq + Z.of_nat (length records)) errorMsg]
                 | None => []
                 end)
  /\ forall (w : World) (o : Fallible.Outages),
       exists w' o',
         Fallible.processJob Unmarshal jobID w o = Some (tt, w', o')
         /\ grown (translated Unmarshal) jobID w w'.
Proof.
  split; [apply Appends_processJob |]. split; cycle 1.
  { intros w o. destruct (Grows_processJob Unmarshal jobID w o) as ([] & w' & o' & E & H).
    by exists w', o'. }
  intros w lines scanErr buffered Hmeta Hbackend Hc.
  unfold Worker.processJob. rewrite run_bind, run_GetJobMeta.
  unfold Storage.read_meta.
  destruct (size (hash_at (storage w) (key_meta jobID)) =? 0)%nat eqn:Hsz.
  { apply Nat.eqb_eq, map_size_empty_iff in Hsz. contradiction. }
  rewrite run_bind, run_UpdateJobStatus.
  cbn [run mbind Prog_bind bind call exec ollama with_storage]. rewrite Hbackend.
  cbn [Z.eqb Pos.eqb negb].
  set (w1 := with_storage _ w).
  destruct (run_scanLoop jobID lines scanErr buffered w1 Hc) as (w' & Hrun & Hl).
  exists w'. split; [exact Hrun |]. exact Hl.
Qed.

End Translation.

Lemma processJob_translates_records_witness :
  exists w',
    run (Worker.processJob hello_unmarshal "job-a") (world_of S1_queued) = Some (tt, w')
    /\ list_at (storage w') (key_chunks "job-a") = hello_log.
Proof.
  destruct (proj1 (proj2 (processJob_translates_records hello_unmarshal "job-a"))
              (world_of S1_queued) hello_lines None 0%nat) as (w' & Hrun & Hl).
  - intros H. apply (f_equal (fun m => m !! "status")) in H.
    vm_compute in H. discriminate H.
  - reflexivity.
  - reflexivity.
  - exists w'. split; [exact Hrun |]. rewrite Hl. reflexivity.
Defined.

(** ** C7: the cursor of the streaming translation *)

Section Cursor.

Variables (chatID : string) (created : Z) (model : string).

Local Abbreviation streamChunks := (Gateway.streamChunks chatID created model).








End Cursor.


(** ** C8: the non-streaming answer *)

(** On a deadline the handler answers 504, and on a poll that reports
    the status "failed" or "cancelled" it answers 500. *)
Lemma gatherLoop_deadline uuid now model config rest lastSeq retryDelay fullContent finishReason :
  Gateway.gatherLoop uuid now model config (Gateway.Deadline :: rest)
    lastSeq retryDelay fullContent finishReason
  = Some (Gateway.writeError "timeout exceeded" StatusGatewayTimeout).
Proof. reflexivity. Qed.

Lemma gatherLoop_failed uuid now model config answer rest lastSeq retryDelay
    fullContent finishReason events :
  answer lastSeq = inl events ->
  Gateway.bStatus events = StatusFailed \/ Gateway.bStatus events = StatusCancelled ->
  exists message,
    Gateway.gatherLoop uuid now model config (Gateway.Poll answer :: rest)
      lastSeq retryDelay fullContent finishReason
    = Some (Gateway.writeError message StatusInternalServerError).
Proof.
  intros Ha Hs. cbn [Gateway.gatherLoop]. rewrite Ha.
  destruct (Gateway.gatherChunks _ _ _ _); [by eexists |].
  destruct Hs as [-> | ->]; by eexists.
Qed.

(** C8: the code departs from the claim.  The job of the long answer is
    completed, with 1002 chunks whose deltas add up to 1001 letters and
    whose last chunk is done with the finish reason "stop".  The poll
    returns the status "completed" with the first 1000 chunks only, and
    the Gateway answers at once: the content of its envelope has 1000
    letters, and its finish reason is empty. *)
Theorem long_answer_truncated :
  let w := world_of long_completed in
  let log := list_at (storage w) (key_chunks "job-a") in
  hash_at (storage w) (key_meta "job-a") !! "status" = Some StatusCompleted
  /\ String.length (concat_deltas log) = 1001%nat
  /\ (fun chunk => (Done chunk, FinishReason chunk)) <$> last log = Some (true, "stop")
  /\ exists content,
       answer_content (gateway_answer w 1) = Some (content, "")
       /\ String.length content = 1000%nat
       /\ content <> concat_deltas log.
Proof.
  cbv zeta.
  split; [vm_compute; reflexivity |].
  assert (Hlen : String.length (concat_deltas (list_at (storage (world_of long_completed))
                                                 (key_chunks "job-a"))) = 1001%nat)
    by (vm_compute; reflexivity).
  split; [exact Hlen |].
  split; [vm_compute; reflexivity |].
  assert (H : (fun r => match r with
                        | Some (c, f) => (String.length c, f)
                        | None => (O, "")
                        end)
                (answer_content (gateway_answer (world_of long_completed) 1))
              = (1000%nat, "")) by (vm_compute; reflexivity).
  destruct (answer_content (gateway_answer (world_of long_completed) 1))
    as [[content finishReason] |]; [| discriminate H].
  injection H as H1 H2. subst finishReason.
  exists content. split; [reflexivity |]. split; [exact H1 |].
  intros ->. rewrite Hlen in H1. clear -H1. lia.
Qed.


(** ** Keys *)

Lemma string_app_length (a b : string) :
  String.length (a +:+ b) = (String.length a + String.length b)%nat.
Proof. induction a as [| c a IH]; simpl; [reflexivity | by rewrite IH]. Qed.

Lemma string_app_inj_r (a b s : string) : a +:+ s = b +:+ s -> a = b.
Proof.
  revert b. induction a as [| c a IH]; intros [| d b] H.
  - reflexivity.
  - apply (f_equal String.length) in H. rewrite !string_app_length in H.
    simpl in H. lia.
  - apply (f_equal String.length) in H. rewrite !string_app_length in H.
    simpl in H. lia.
  - injection H as -> H. f_equal. by apply IH.
Qed.

Lemma key_chunks_inj a b : key_chunks a = key_chunks b -> a = b.
Proof.
  unfold key_chunks. intros H. apply String.app_inj in H.
  by apply string_app_inj_r in H.
Qed.

Lemma key_seq_inj a b : key_seq a = key_seq b -> a = b.
Proof.
  unfold key_seq. intros H. apply String.app_inj in H.
  by apply string_app_inj_r in H.
Qed.

(** The three shapes of keys end differently. *)
Lemma last_byte_app (a : string) (c : ascii) (s : string) :
  last_byte (a +:+ String c s) = last_byte (String c s).
Proof.
  induction a as [| d a IH]; [reflexivity |].
  change (String d a +:+ String c s) with (String d (a +:+ String c s)).
  cbn [last_byte]. rewrite IH. by destruct a.
Qed.

Lemma key_meta_chunks a b : key_meta a <> key_chunks b.
Proof.
  unfold key_meta, key_chunks. intros H. apply String.app_inj in H.
  apply (f_equal last_byte) in H. rewrite !last_byte_app in H. discriminate H.
Qed.

Lemma key_meta_seq a b : key_meta a <> key_seq b.
Proof.
  unfold key_meta, key_seq. intros H. apply String.app_inj in H.
  apply (f_equal last_byte) in H. rewrite !last_byte_app in H. discriminate H.
Qed.

Lemma key_chunks_seq a b : key_chunks a <> key_seq b.
Proof.
  unfold key_chunks, key_seq. intros H. apply String.app_inj in H.
  apply (f_equal last_byte) in H. rewrite !last_byte_app in H. discriminate H.
Qed.

(** ** The protocol is followed by every procedure *)

Lemma Safe_mono {R} (p : Prog R) : forall g (Q Q' : R -> Ghost -> Prop),
  (forall r g', Q r g' -> Q' r g') -> Safe g p Q -> Safe g p Q'.
Proof.
  induction p as [r | X c k IH]; intros g Q Q' HQ; simpl; [apply HQ |].
  intros [Ha Hk]. split; [exact Ha |]. intros x. by apply (IH x _ Q).
Qed.

Lemma Safe_bind {A B} (p : Prog A) (f : A -> Prog B) : forall g (Q : B -> Ghost -> Prop),
  Safe g p (fun a g' => Safe g' (f a) Q) -> Safe g (p ≫= f) Q.
Proof.
  induction p as [a | X c k IH]; intros g Q; [exact id |].
  intros [Ha Hk]. split; [exact Ha |]. intros x. apply IH, Hk.
Qed.

Ltac prog_norm := cbn [next mbind mret Prog_bind Prog_ret bind call].

Lemma Safe_UpdateJobStatus g jobID status completedAt errorMsg :
  Safe g (Storage.UpdateJobStatus jobID status completedAt errorMsg) (fun _ g' => g' = g).
Proof. split; [exact I | by intros []]. Qed.

Lemma Safe_finishJobWithError_holds jobID b errorMsg :
  Safe (GHolds jobID None b) (Worker.finishJobWithError jobID errorMsg)
    (fun _ g' => g' = GHolds jobID None b).
Proof.
  split; [by exists jobID, b |]. intros n.
  split; [by exists jobID, b |]. intros [].
  split; [exact I |]. intros now.
  split; [exact I |]. by intros [].
Qed.

Lemma Safe_finishJobWithError jobID b errorMsg :
  Safe (GHolds jobID None b) (Worker.finishJobWithError jobID errorMsg)
    (fun _ g' => done_with jobID b g').
Proof.
  eapply Safe_mono; [| apply Safe_finishJobWithError_holds]. intros _ g' ->. by left.
Qed.

Lemma Safe_afterScan jobID b scanErr :
  Safe (GHolds jobID None b) (Worker.afterScan jobID scanErr)
    (fun _ g' => done_with jobID b g').
Proof.
  destruct scanErr as [err |]; [apply Safe_finishJobWithError |].
  split; [exact I |]. intros now.
  split; [exact I |]. intros [].
  split; [exists jobID, b; split; [by left | by left] |]. intros [].
  split; [exists jobID, b; split; [by right | right; by left] |]. intros [].
  split; [exists jobID, b; split; [by right | right; by right] |]. intros [].
  by right.
Qed.

Section Protocol.

Variable Unmarshal : string -> OllamaStreamResponse + string.

Lemma Safe_scanLoop jobID b lines scanErr buffered : forall finishReason,
  Safe (GHolds jobID None b)
    (Worker.scanLoop Unmarshal jobID lines scanErr buffered finishReason)
    (fun _ g' => done_with jobID b g').
Proof.
  induction lines as [| text rest IH]; intros finishReason.
  - apply Safe_afterScan.
  - cbn [Worker.scanLoop]. split; [exact I |]. intros c. prog_norm.
    destruct c; [apply Safe_finishJobWithError |].
    destruct (is_empty (TrimSpace text) || negb (HasPrefix (TrimSpace text) "data:"));
      [apply IH |].
    destruct (is_empty _ || String.eqb _ "[DONE]"); [apply Safe_afterScan |].
    destruct (Unmarshal _) as [streamResp | err]; [| apply Safe_finishJobWithError].
    split; [by exists jobID, b |]. intros n.
    split; [by exists jobID, b |]. intros [].
    prog_norm. destruct (osr_Done streamResp); [apply Safe_afterScan | apply IH].
Qed.

Lemma Safe_processJob jobID b :
  Safe (GHolds jobID None b) (Worker.processJob Unmarshal jobID)
    (fun _ g' => done_with jobID b g').
Proof.
  split; [exact I |]. intros result. prog_norm.
  destruct (Storage.read_meta result) as [meta |]; [| by left].
  split; [exact I |]. intros [].
  split; [exact I |]. intros messages.
  split; [exact I |]. intros options.
  split; [exact I |]. intros resp. prog_norm.
  destruct resp as [err | err | err | StatusCode lines scanErr buffered];
    try apply Safe_finishJobWithError.
  destruct (negb (StatusCode =? 200)); [apply Safe_finishJobWithError | apply Safe_scanLoop].
Qed.

Lemma Safe_run_iteration :
  Safe GIdle (Worker.run_iteration Unmarshal) (fun _ g' => counted g' = false).
Proof.
  split; [reflexivity |]. intros jobID.
  split; [by exists jobID |]. intros [].
  change (Safe (GHolds jobID None true)
            (Worker.processJob Unmarshal jobID ≫= (fun _ => call CountFinished))
            (fun _ g' => counted g' = false)).
  apply Safe_bind. eapply Safe_mono; [| apply Safe_processJob].
  intros [] g' [-> | ->]; (split; [exists jobID; by (left + right) |]); by intros [].
Qed.

End Protocol.

Lemma Safe_Enqueue jobID :
  Safe (GSender jobID) (Worker.Enqueue jobID) (fun _ _ => True).
Proof.
  split; [exact I |]. intros stats.
  split; [exact I |]. intros maxQueueSize. prog_norm.
  destruct (maxQueueSize <=? fst stats + snd stats); [exact I |].
  split; [reflexivity |]. intros sent. prog_norm.
  destruct sent; [| exact I].
  split; [exact I |]. by intros [].
Qed.

Lemma Safe_GetStats g : Safe g Worker.GetStats (fun _ g' => g' = g).
Proof.
  split; [exact I |]. intros stats.
  split; [exact I |]. intros capacity.
  split; [exact I |]. by intros max_queue.
Qed.

Lemma handler_ghost_start r : handler_ghost (start_ghost r).
Proof. by destruct r. Qed.

Lemma Safe_handler r : Safe (start_ghost r) (handler r) (fun _ _ => True).
Proof.
  destruct r as [[req | err] uuid | jobID seqStr | jobID | jobID |]; cbn [handler start_ghost].
  - unfold Server.CreateJob.
    apply Safe_bind. eapply Safe_mono; [| apply Safe_GetStats]. intros _ g' ->.
    split; [exact I |]. intros now.
    split; [exact I |]. intros []. prog_norm.
    apply Safe_bind.
    apply (Safe_mono _ _ (fun _ g' => g' = GSender uuid)).
    2: { destruct (0 <? length (jr_Messages req))%nat; [| reflexivity].
         split; [exact I |]. by intros []. }
    intros _ g' ->.
    apply Safe_bind.
    apply (Safe_mono _ _ (fun _ g' => g' = GSender uuid)).
    2: { destruct (0 <? size (jr_Options req))%nat; [| reflexivity].
         split; [exact I |]. by intros []. }
    intros _ g' ->.
    apply Safe_bind. eapply Safe_mono; [| apply Safe_Enqueue].
    intros [err |] g' _; [| exact I].
    split; [exact I |]. by intros [].
  - exact I.
  - split; [exact I |]. intros result. cbn [next].
    cbn [mbind mret Prog_bind Prog_ret bind call].
    destruct (Storage.read_meta result); [| exact I].
    split; [exact I |]. by intros chunks.
  - split; [exact I |]. intros result. cbn [next].
    cbn [mbind mret Prog_bind Prog_ret bind call].
    by destruct (Storage.read_meta result).
  - split; [exact I |]. intros [].
    split; [exact I |]. intros now.
    split; [exact I |]. by intros [].
  - split; [exact I |]. intros stats.
    split; [exact I |]. intros capacity.
    split; [exact I |]. by intros max_queue.
Qed.

(** ** The positions and the keyspace stay coherent *)

Lemma untouched_ext st st' jobID :
  list_at st' (key_chunks jobID) = list_at st (key_chunks jobID) ->
  counter_at st' (key_seq jobID) = counter_at st (key_seq jobID) ->
  untouched st jobID -> untouched st' jobID.
Proof. unfold untouched. by intros -> ->. Qed.

Lemma tracks_ext st st' g :
  (forall jobID, claim g = Some jobID ->
     list_at st' (key_chunks jobID) = list_at st (key_chunks jobID)
     /\ counter_at st' (key_seq jobID) = counter_at st (key_seq jobID)) ->
  tracks st g -> tracks st' g.
Proof.
  intros H. destruct g as [| jobID [n |] b | jobID b | jobID |]; simpl; try done;
    destruct (H jobID eq_refl) as [Hl Hc]; unfold untouched; by rewrite Hl, Hc.
Qed.

(** Commands that leave the logs and the counters alone. *)
Lemma Coherent_ext ghosts q used st st' :
  (forall jobID, list_at st' (key_chunks jobID) = list_at st (key_chunks jobID)) ->
  (forall jobID, counter_at st' (key_seq jobID) = counter_at st (key_seq jobID)) ->
  expiring st' = expiring st ->
  Coherent ghosts q used st -> Coherent ghosts q used st'.
Proof.
  intros Hl Hc Hexp [Hexcl Hnd Hqe Hqu Hcu Hfr Hqd Htr Hret Hd].
  split; try done.
  - intros jobID H. eapply untouched_ext; eauto.
  - intros jobID H. eapply untouched_ext; eauto.
  - intros i g H. eapply tracks_ext; eauto.
  - intros jobID H. apply Hret. unfold retired in *. by rewrite <- Hexp.
  - intros jobID. rewrite Hl. auto.
Qed.

Lemma claim_after_insert (ghosts : list Ghost) i g g' j gj jobID :
  ghosts !! i = Some g ->
  (claim g' = None \/ claim g' = claim g) ->
  <[i := g']> ghosts !! j = Some gj -> claim gj = Some jobID ->
  exists gj', ghosts !! j = Some gj' /\ claim gj' = Some jobID.
Proof.
  intros Hi Hclaim Hj Hcl.
  apply list_lookup_insert_Some in Hj as [(-> & -> & _) | [Hne Hj]].
  - exists g. split; [done |]. destruct Hclaim as [H | H]; congruence.
  - by exists gj.
Qed.

(** A goroutine gives up its claim, or keeps it. *)
Lemma Coherent_update ghosts q used st i g g' :
  ghosts !! i = Some g ->
  (claim g' = None \/ claim g' = claim g) ->
  (forall jobID b, g' = GDone jobID b -> exists b', g = GDone jobID b') ->
  tracks st g' ->
  Coherent ghosts q used st -> Coherent (<[i := g']> ghosts) q used st.
Proof.
  intros Hi Hclaim Hdone Htr' [Hexcl Hnd Hqe Hqu Hcu Hfr Hqd Htr Hret Hd].
  pose proof (claim_after_insert ghosts i g g') as Hold.
  split; try done.
  - intros a b ga gb jobID Ha Hb Hca Hcb.
    destruct (Hold _ _ _ Hi Hclaim Ha Hca) as (ga' & Ha' & Hca').
    destruct (Hold _ _ _ Hi Hclaim Hb Hcb) as (gb' & Hb' & Hcb'). eauto.
  - intros j gj jobID Hj Hcl.
    destruct (Hold _ _ _ Hi Hclaim Hj Hcl) as (gj' & Hj' & Hcl'). eauto.
  - intros j gj jobID Hj Hcl.
    destruct (Hold _ _ _ Hi Hclaim Hj Hcl) as (gj' & Hj' & Hcl'). eauto.
  - intros j gj Hj. apply list_lookup_insert_Some in Hj as [(-> & -> & _) | [Hne Hj]]; eauto.
  - intros jobID H.
    assert (Hr : retired ghosts st jobID).
    { destruct H as [(j & b & Hj) | H]; [| by right]. left.
      apply list_lookup_insert_Some in Hj as [(-> & -> & _) | [Hne Hj]]; [| eauto].
      destruct (Hdone _ _ eq_refl) as [b' ->]. eauto. }
    destruct (Hret _ Hr) as (Hu & Hq & Hno). split; [done |]. split; [done |].
    intros j gj Hj Hcl.
    destruct (Hold _ _ _ Hi Hclaim Hj Hcl) as (gj' & Hj' & Hcl'). by eapply Hno.
Qed.

(** The goroutine that holds a job writes to the counter or to the log
    of that job. *)
Lemma Coherent_write ghosts q used st st' i jobID cnt pending pending' :
  ghosts !! i = Some (GHolds jobID pending cnt) ->
  (forall jobID', jobID' <> jobID ->
     list_at st' (key_chunks jobID') = list_at st (key_chunks jobID')
     /\ counter_at st' (key_seq jobID') = counter_at st (key_seq jobID')) ->
  expiring st' = expiring st ->
  tracks st' (GHolds jobID pending' cnt) ->
  dense (list_at st' (key_chunks jobID)) ->
  Coherent ghosts q used st ->
  Coherent (<[i := GHolds jobID pending' cnt]> ghosts) q used st'.
Proof.
  intros Hi Hother Hexp Htr' Hd' [Hexcl Hnd Hqe Hqu Hcu Hfr Hqd Htr Hret Hd].
  pose proof (claim_after_insert ghosts i (GHolds jobID pending cnt) (GHolds jobID pending' cnt))
    as Hold.
  assert (Hclaim : claim (GHolds jobID pending' cnt) = None
                   \/ claim (GHolds jobID pending' cnt) = claim (GHolds jobID pending cnt))
    by (by right).
  split; try done.
  - intros a b ga gb jobID' Ha Hb Hca Hcb.
    destruct (Hold _ _ _ Hi Hclaim Ha Hca) as (ga' & Ha' & Hca').
    destruct (Hold _ _ _ Hi Hclaim Hb Hcb) as (gb' & Hb' & Hcb'). eauto.
  - intros j gj jobID' Hj Hcl.
    destruct (Hold _ _ _ Hi Hclaim Hj Hcl) as (gj' & Hj' & Hcl'). eauto.
  - intros j gj jobID' Hj Hcl.
    destruct (Hold _ _ _ Hi Hclaim Hj Hcl) as (gj' & Hj' & Hcl'). eauto.
  - intros jobID' H.
    assert (jobID' <> jobID) as Hne by (intros ->; apply H; by eapply Hcu).
    destruct (Hother _ Hne) as [Hl Hc]. eapply untouched_ext; eauto.
  - intros jobID' H.
    assert (jobID' <> jobID) as Hne by (intros ->; by eapply Hqe in H).
    destruct (Hother _ Hne) as [Hl Hc]. eapply untouched_ext; eauto.
  - intros j gj Hj. apply list_lookup_insert_Some in Hj as [(-> & <- & _) | [Hne Hj]];
      [done |].
    eapply tracks_ext; [| by eapply Htr]. intros jobID' Hcl. apply Hother.
    intros ->. apply Hne. by eapply (Hexcl i j).
  - intros jobID' H.
    assert (Hr : retired ghosts st jobID').
    { unfold retired in *. rewrite <- Hexp.
      destruct H as [(j & b & Hj) | H]; [| by right]. left.
      apply list_lookup_insert_Some in Hj as [(-> & [=] & _) | [Hne Hj]]. eauto. }
    destruct (Hret _ Hr) as (Hu & Hq & Hno). split; [done |]. split; [done |].
    intros j gj Hj Hcl.
    destruct (Hold _ _ _ Hi Hclaim Hj Hcl) as (gj' & Hj' & Hcl'). by eapply Hno.
  - intros jobID'. destruct (decide (jobID' = jobID)) as [-> | Hne]; [done |].
    destruct (Hother _ Hne) as [-> _]. auto.
Qed.

Lemma dense_snoc log item :
  dense log -> Seq item = Z.of_nat (length log) + 1 -> dense (log ++ [item]).
Proof.
  unfold dense. intros Hd Hs. rewrite fmap_app, length_app, Hd. simpl.
  replace (length log + 1)%nat with (S (length log)) by lia.
  rewrite seqZ_S. do 2 f_equal. lia.
Qed.

Lemma dense_nil : dense [].
Proof. reflexivity. Qed.

(** A handler sends the job id it drew. *)
Lemma Coherent_send ghosts q used st i jobID :
  ghosts !! i = Some (GSender jobID) ->
  Coherent ghosts q used st ->
  Coherent (<[i := GPlain]> ghosts) (q ++ [jobID]) used st.
Proof.
  intros Hi [Hexcl Hnd Hqe Hqu Hcu Hfr Hqd Htr Hret Hd].
  split; try done.
  - intros a b ga gb jobID' Ha Hb Hca Hcb.
    apply list_lookup_insert_Some in Ha as [(-> & <- & _) | [Hna Ha]]; [done |].
    apply list_lookup_insert_Some in Hb as [(-> & <- & _) | [Hnb Hb]]; [done |]. eauto.
  - apply NoDup_app. split; [done |]. split; [| apply NoDup_singleton].
    intros x Hx ->%list_elem_of_singleton. by eapply Hqe in Hx.
  - intros j gj jobID' Hj Hcl.
    apply list_lookup_insert_Some in Hj as [(-> & <- & _) | [Hne Hj]]; [done |].
    rewrite elem_of_app, list_elem_of_singleton. intros [H | ->].
    + by eapply Hqe in H.
    + apply Hne. by eapply (Hexcl i j).
  - intros jobID'. rewrite elem_of_app, list_elem_of_singleton. intros [H | ->]; [auto |].
    by eapply Hcu.
  - intros j gj jobID' Hj Hcl.
    apply list_lookup_insert_Some in Hj as [(-> & <- & _) | [Hne Hj]]; [done |]. eauto.
  - intros jobID'. rewrite elem_of_app, list_elem_of_singleton. intros [H | ->]; [auto |].
    by apply (Htr i (GSender jobID)).
  - intros j gj Hj.
    apply list_lookup_insert_Some in Hj as [(-> & <- & _) | [Hne Hj]]; [done | eauto].
  - intros jobID' H.
    assert (Hr : retired ghosts st jobID').
    { destruct H as [(j & b & Hj) | H]; [| by right]. left.
      apply list_lookup_insert_Some in Hj as [(-> & [=] & _) | [Hne Hj]]. eauto. }
    destruct (Hret _ Hr) as (Hu & Hq & Hno). split; [done |]. split.
    + rewrite elem_of_app, list_elem_of_singleton. intros [H' | ->]; [done |].
      by eapply (Hno i).
    + intros j gj Hj.
      apply list_lookup_insert_Some in Hj as [(-> & <- & _) | [Hne Hj]]; [done | eauto].
Qed.

(** An executor that holds no job receives one. *)
Lemma Coherent_receive ghosts q used st i g jobID :
  ghosts !! i = Some g -> claim g = None ->
  Coherent ghosts (jobID :: q) used st ->
  Coherent (<[i := GHolds jobID None false]> ghosts) q used st.
Proof.
  intros Hi Hnone [Hexcl Hnd Hqe Hqu Hcu Hfr Hqd Htr Hret Hd].
  apply NoDup_cons in Hnd as [Hnotin Hnd].
  split; try done.
  - intros a b ga gb jobID' Ha Hb Hca Hcb.
    apply list_lookup_insert_Some in Ha as [(-> & <- & _) | [Hna Ha]];
      apply list_lookup_insert_Some in Hb as [(Hib & <- & Hlt) | [Hnb Hb]]; simplify_eq/=;
      try done.
    + exfalso. eapply Hqe; [exact Hb | done | left].
    + exfalso. eapply Hqe; [exact Ha | done | left].
    + eauto.
  - intros j gj jobID' Hj Hcl.
    apply list_lookup_insert_Some in Hj as [(-> & <- & _) | [Hne Hj]].
    + simpl in Hcl. by simplify_eq.
    + intros H. eapply Hqe; [exact Hj | done | by right].
  - intros jobID' H. apply Hqu. by right.
  - intros j gj jobID' Hj Hcl.
    apply list_lookup_insert_Some in Hj as [(-> & <- & _) | [Hne Hj]].
    + simpl in Hcl. simplify_eq. apply Hqu. left.
    + eauto.
  - intros jobID' H. apply Hqd. by right.
  - intros j gj Hj.
    apply list_lookup_insert_Some in Hj as [(-> & <- & _) | [Hne Hj]]; [| eauto].
    simpl. destruct (Hqd jobID) as [-> ->]; [left | done].
  - intros jobID' H.
    assert (Hr : retired ghosts st jobID').
    { destruct H as [(j & b & Hj) | H]; [| by right]. left.
      apply list_lookup_insert_Some in Hj as [(-> & [=] & _) | [Hne Hj]]. eauto. }
    destruct (Hret _ Hr) as (Hu & Hq & Hno). split; [done |].
    apply not_elem_of_cons in Hq as [Hneq Hq]. split; [done |].
    intros j gj Hj.
    apply list_lookup_insert_Some in Hj as [(-> & <- & _) | [Hne Hj]]; [| eauto].
    simpl. congruence.
Qed.

(** A request arrives. *)
Lemma Coherent_arrive ghosts q used st r :
  admissible r used = true ->
  Coherent ghosts q used st ->
  Coherent (ghosts ++ [start_ghost r]) q (draws r ∪ used) st.
Proof.
  intros Hadm [Hexcl Hnd Hqe Hqu Hcu Hfr Hqd Htr Hret Hd].
  assert (Hnew : forall jobID, claim (start_ghost r) = Some jobID ->
            (jobID ∉ used) /\ (jobID ∈ draws r)).
  { intros jobID. destruct r; simpl; try done. intros [= ->].
    apply bool_decide_eq_true in Hadm. split; [done | by apply elem_of_singleton]. }
  assert (Hlook : forall j gj, (ghosts ++ [start_ghost r]) !! j = Some gj ->
            ghosts !! j = Some gj \/ (j = length ghosts /\ gj = start_ghost r)).
  { intros j gj Hj. apply lookup_app_Some in Hj as [Hj | [Hge Hj]]; [by left |].
    right. apply list_lookup_singleton_Some in Hj as [Hz <-]. split; [lia | done]. }
  split; try done.
  - intros a b ga gb jobID Ha Hb Hca Hcb.
    destruct (Hlook _ _ Ha) as [Ha' | [-> ->]], (Hlook _ _ Hb) as [Hb' | [-> ->]].
    + eauto.
    + destruct (Hnew _ Hcb) as [Hn _]. exfalso. apply Hn. by eapply Hcu.
    + destruct (Hnew _ Hca) as [Hn _]. exfalso. apply Hn. by eapply Hcu.
    + reflexivity.
  - intros j gj jobID Hj Hcl. destruct (Hlook _ _ Hj) as [Hj' | [-> ->]]; [eauto |].
    destruct (Hnew _ Hcl) as [Hn _]. intros H. apply Hn. auto.
  - intros jobID H. apply elem_of_union_r. auto.
  - intros j gj jobID Hj Hcl. destruct (Hlook _ _ Hj) as [Hj' | [-> ->]].
    + apply elem_of_union_r. eauto.
    + destruct (Hnew _ Hcl) as [_ Hin]. by apply elem_of_union_l.
  - intros jobID H. apply Hfr. intros Hin. apply H. by apply elem_of_union_r.
  - intros j gj Hj. destruct (Hlook _ _ Hj) as [Hj' | [-> ->]]; [eauto |].
    destruct r; simpl; try done. apply Hfr. by apply bool_decide_eq_true in Hadm.
  - intros jobID H.
    assert (Hr : retired ghosts st jobID).
    { destruct H as [(j & b & Hj) | H]; [| by right]. left.
      destruct (Hlook _ _ Hj) as [Hj' | [_ Heq]]; [eauto |]. by destruct r. }
    destruct (Hret _ Hr) as (Hu & Hq & Hno). split; [by apply elem_of_union_r |].
    split; [done |].
    intros j gj Hj. destruct (Hlook _ _ Hj) as [Hj' | [-> ->]]; [eauto |].
    intros Hcl. by destruct (Hnew _ Hcl).
Qed.

Lemma Coherent_boot n N :
  Coherent (replicate n GIdle) (queue (NewWorker N)) ∅ empty_store.
Proof.
  assert (Hidle : forall i g jobID,
            replicate n GIdle !! i = Some g -> claim g = Some jobID -> False).
  { intros i g jobID Hi Hc. apply lookup_replicate in Hi as [-> _]. done. }
  split.
  - intros i j gi gj jobID Hi _ Hc. by destruct (Hidle _ _ _ Hi Hc).
  - apply NoDup_nil_2.
  - intros i g jobID Hi Hc. by destruct (Hidle _ _ _ Hi Hc).
  - intros jobID H. by apply elem_of_nil in H.
  - intros i g jobID Hi Hc. by destruct (Hidle _ _ _ Hi Hc).
  - done.
  - done.
  - intros i g Hi. apply lookup_replicate in Hi as [-> _]. done.
  - intros jobID [(i & b & Hi) | [[x H] | [x H]]].
    + apply lookup_replicate in Hi as [[=] _].
    + simpl in H. by rewrite lookup_empty in H.
    + simpl in H. by rewrite lookup_empty in H.
  - done.
Qed.

(** An executor sets a time to live on a key of the job it is through
    with. *)
Lemma Coherent_expire ghosts q used st i g jobID b key ttl :
  ghosts !! i = Some g -> done_with jobID b g -> key_of jobID key ->
  Coherent ghosts q used st ->
  Coherent (<[i := GDone jobID b]> ghosts) q used (expire key ttl st).
Proof.
  intros Hi Hg Hkey Hcoh.
  assert (Hmine : (jobID ∈ used) /\ (jobID ∉ q)
            /\ forall j gj, j <> i -> ghosts !! j = Some gj -> claim gj <> Some jobID).
  { destruct Hcoh as [Hexcl Hnd Hqe Hqu Hcu Hfr Hqd Htr Hret Hd].
    destruct Hg as [-> | ->].
    - split; [by eapply Hcu |]. split; [by eapply Hqe |].
      intros j gj Hne Hj Hcl. apply Hne. by eapply (Hexcl j i).
    - destruct (Hret jobID) as (Hu & Hq & Hno); [left; eauto |].
      split; [done |]. split; [done |]. eauto. }
  assert (Hclaim : claim (GDone jobID b) = None \/ claim (GDone jobID b) = claim g)
    by (by left).
  pose proof (claim_after_insert ghosts i g (GDone jobID b)) as Hold.
  destruct Hcoh as [Hexcl Hnd Hqe Hqu Hcu Hfr Hqd Htr Hret Hd].
  split; try done.
  - intros a c ga gc jobID' Ha Hc Hca Hcc.
    destruct (Hold _ _ _ Hi Hclaim Ha Hca) as (ga' & Ha' & Hca').
    destruct (Hold _ _ _ Hi Hclaim Hc Hcc) as (gc' & Hc' & Hcc'). eauto.
  - intros j gj jobID' Hj Hcl.
    destruct (Hold _ _ _ Hi Hclaim Hj Hcl) as (gj' & Hj' & Hcl'). eauto.
  - intros j gj jobID' Hj Hcl.
    destruct (Hold _ _ _ Hi Hclaim Hj Hcl) as (gj' & Hj' & Hcl'). eauto.
  - intros jobID' H. eapply untouched_ext; [apply list_at_expire | apply counter_at_expire |].
    auto.
  - intros jobID' H. eapply untouched_ext; [apply list_at_expire | apply counter_at_expire |].
    auto.
  - intros j gj Hj. apply list_lookup_insert_Some in Hj as [(-> & <- & _) | [Hne Hj]];
      [done |].
    eapply tracks_ext; [| by eapply Htr]. intros jobID' _.
    by rewrite list_at_expire, counter_at_expire.
  - intros jobID' H.
    assert (Hr : jobID' = jobID \/ retired ghosts st jobID').
    { destruct H as [(j & c & Hj) | [H | H]].
      - apply list_lookup_insert_Some in Hj as [(-> & [= -> ->] & _) | [Hne Hj]];
          [by left |]. right. left. eauto.
      - unfold expire in H. destruct (key_exists st key); [| right; right; by left].
        simpl in H. apply lookup_insert_is_Some in H as [-> | [_ H]];
          [| right; right; by left].
        left. destruct Hkey as [Hk | [Hk | Hk]].
        + symmetry in Hk. by apply key_meta_chunks in Hk.
        + by apply key_chunks_inj.
        + by apply key_chunks_seq in Hk.
      - unfold expire in H. destruct (key_exists st key); [| right; right; by right].
        simpl in H. apply lookup_insert_is_Some in H as [-> | [_ H]];
          [| right; right; by right].
        left. destruct Hkey as [Hk | [Hk | Hk]].
        + symmetry in Hk. by apply key_meta_seq in Hk.
        + symmetry in Hk. by apply key_chunks_seq in Hk.
        + by apply key_seq_inj. }
    destruct Hr as [-> | Hr].
    + destruct Hmine as (Hu & Hq & Hno). split; [done |]. split; [done |].
      intros j gj Hj.
      apply list_lookup_insert_Some in Hj as [(-> & <- & _) | [Hne Hj]]; [done | eauto].
    + destruct (Hret _ Hr) as (Hu & Hq & Hno). split; [done |]. split; [done |].
      intros j gj Hj.
      apply list_lookup_insert_Some in Hj as [(-> & <- & _) | [Hne Hj]]; [done | eauto].
  - intros jobID'. rewrite list_at_expire. auto.
Qed.

(** A key whose time to live has run out is deleted. *)
Lemma Coherent_expired ghosts q used st key :
  is_Some (expiring st !! key) ->
  Coherent ghosts q used st -> Coherent ghosts q used (remove key st).
Proof.
  intros Hkey [Hexcl Hnd Hqe Hqu Hcu Hfr Hqd Htr Hret Hd].
  assert (Hun : forall jobID, untouched st jobID -> untouched (remove key st) jobID).
  { intros jobID [Hl Hc]. unfold untouched.
    rewrite list_at_remove, counter_at_remove. by do 2 case_decide. }
  assert (Hkeep : forall j g jobID, ghosts !! j = Some g -> claim g = Some jobID ->
            list_at (remove key st) (key_chunks jobID) = list_at st (key_chunks jobID)
            /\ counter_at (remove key st) (key_seq jobID) = counter_at st (key_seq jobID)).
  { intros j g jobID Hj Hcl.
    rewrite list_at_remove, counter_at_remove.
    split; case_decide as Hk; try done; subst key; exfalso.
    - destruct (Hret jobID) as (_ & _ & Hno); [right; by left |]. by eapply Hno.
    - destruct (Hret jobID) as (_ & _ & Hno); [right; by right |]. by eapply Hno. }
  split; try done.
  - intros jobID H. auto.
  - intros jobID H. auto.
  - intros j g Hj. eapply tracks_ext; [| by eapply Htr]. intros jobID Hcl. eauto.
  - intros jobID H. apply Hret.
    destruct H as [H | [H | H]]; [by left | right; left | right; right];
      simpl in H; apply lookup_delete_is_Some in H; tauto.
  - intros jobID. rewrite list_at_remove. case_decide; [apply dense_nil | auto].
Qed.

(** ** Every step keeps the invariant *)

Lemma command_coherent {X} (c : Cmd X) (g : Ghost) (ghosts : list Ghost) (i : nat)
    (w w' : World) (x : X) (used : gset string) :
  ghosts !! i = Some g -> allowed g c -> exec c w = Some (x, w') ->
  Coherent ghosts (queue (worker w)) used (storage w) ->
  Coherent (<[i := next g c x]> ghosts) (queue (worker w')) used (storage w').
Proof.
  intros Hi Hal Hex Hcoh.
  assert (Hsame : <[i := g]> ghosts = ghosts) by by apply list_insert_id.
  destruct c; simpl in Hal, Hex; cbn [next];
    try (injection Hex as <- <-; rewrite Hsame;
         first [ exact Hcoh
               | apply (Coherent_ext _ _ _ (storage w)); [intros; by keyspace .. | exact Hcoh] ]).
  - (* RPUSH *)
    injection Hex as _ <-. destruct Hal as (jobID & b & -> & ->). keyspace.
    pose proof (coh_tracks _ _ _ _ Hcoh _ _ Hi) as [Hn Hlen]. simpl in Hn, Hlen.
    apply (Coherent_write _ _ _ (storage w) _ _ _ _ (Some (Seq item))); try done.
    + intros jobID' Hne. split; [| by keyspace].
      apply list_at_rpush_ne. intros H. by apply key_chunks_inj in H.
    + simpl. keyspace. rewrite length_app. simpl. lia.
    + keyspace. apply dense_snoc; [apply (coh_dense _ _ _ _ Hcoh) | done].
  - (* INCR *)
    injection Hex as <- <-. destruct Hal as (jobID & b & -> & ->). keyspace.
    pose proof (coh_tracks _ _ _ _ Hcoh _ _ Hi) as Hlen. simpl in Hlen.
    apply (Coherent_write _ _ _ (storage w) _ _ _ _ None); try done.
    + intros jobID' Hne. split; [by keyspace |].
      apply counter_at_incr_ne. intros H. by apply key_seq_inj in H.
    + simpl. keyspace. split; [done | lia].
    + keyspace. apply (coh_dense _ _ _ _ Hcoh).
  - (* EXPIRE *)
    injection Hex as _ <-. destruct Hal as (jobID & b & Hg & Hkey).
    replace (match g with GHolds jobID0 _ b0 => GDone jobID0 b0 | _ => g end)
      with (GDone jobID b) by (by destruct Hg as [-> | ->]).
    by apply (Coherent_expire _ _ _ _ _ g).
  - (* the send to the channel *)
    subst g.
    destruct (Z.of_nat (length (queue (worker w))) <? maxQueueSize (worker w));
      injection Hex as <- <-.
    + by apply Coherent_send.
    + apply (Coherent_update _ _ _ _ _ (GSender jobID)); [done | by left | done | done | done].
  - (* the receive from the channel *)
    subst g. destruct (queue (worker w)) as [| jobID rest] eqn:Hq; [discriminate |].
    injection Hex as <- <-. by apply (Coherent_receive _ _ _ _ _ GIdle).
  - (* activeJobs++ *)
    injection Hex as _ <-. destruct Hal as (jobID & ->).
    apply (Coherent_update _ _ _ _ _ (GHolds jobID None false)); try done; [by right |].
    apply (coh_tracks _ _ _ _ Hcoh _ _ Hi).
  - (* activeJobs-- *)
    injection Hex as _ <-. destruct Hal as (jobID & [-> | ->]).
    + apply (Coherent_update _ _ _ _ _ (GHolds jobID None true)); try done; [by right |].
      apply (coh_tracks _ _ _ _ Hcoh _ _ Hi).
    + apply (Coherent_update _ _ _ _ _ (GDone jobID true)); try done; [by left |].
      intros jobID' b [= -> <-]. eauto.
Qed.

(** ** Counting the active jobs *)

Lemma tally_insert (ghosts : list Ghost) : forall i g g',
  ghosts !! i = Some g ->
  tally (<[i := g']> ghosts) = tally ghosts - Z.b2z (counted g) + Z.b2z (counted g').
Proof.
  induction ghosts as [| g0 ghosts IH]; intros [| i] g g' Hi; simpl in *; try done.
  - injection Hi as ->. lia.
  - rewrite (IH _ _ _ Hi). lia.
Qed.

Lemma tally_app (a b : list Ghost) : tally (a ++ b) = tally a + tally b.
Proof. induction a as [| g a IH]; simpl; [done | rewrite IH; lia]. Qed.

Lemma command_tally {X} (c : Cmd X) (g : Ghost) (ghosts : list Ghost) (i : nat)
    (w w' : World) (x : X) :
  ghosts !! i = Some g -> allowed g c -> exec c w = Some (x, w') ->
  activeJobs (worker w) = tally ghosts ->
  activeJobs (worker w') = tally (<[i := next g c x]> ghosts).
Proof.
  intros Hi Hal Hex Hact. rewrite (tally_insert _ _ _ _ Hi).
  destruct c; simpl in Hal, Hex; cbn [next];
    try (injection Hex as <- <-; simpl; lia).
  - injection Hex as _ <-. destruct Hal as (jobID & b & -> & _). simpl. lia.
  - injection Hex as _ <-. destruct Hal as (jobID & b & -> & _). simpl. lia.
  - injection Hex as _ <-. destruct Hal as (jobID & b & [-> | ->] & _); simpl; lia.
  - subst g.
    destruct (Z.of_nat (length (queue (worker w))) <? maxQueueSize (worker w));
      injection Hex as <- <-; simpl; lia.
  - subst g. destruct (queue (worker w)) as [| jobID rest]; [discriminate |].
    injection Hex as <- <-. simpl. lia.
  - injection Hex as _ <-. destruct Hal as (jobID & ->). simpl. lia.
  - injection Hex as _ <-. destruct Hal as (jobID & [-> | ->]); simpl; lia.
Qed.

Lemma handler_ghost_next {X} (c : Cmd X) (g : Ghost) (x : X) :
  handler_ghost g -> allowed g c -> handler_ghost (next g c x).
Proof.
  intros Hg Hal. destruct c; simpl in *; try done;
    destruct g; try done; naive_solver.
Qed.

(** The executors of a list of goroutines. *)
Lemma tally_le_executors (ghosts : list Ghost) (ts : list Thread) :
  Forall2 thread_safe ghosts ts ->
  0 <= tally ghosts
  <= Z.of_nat (length (filter is_executor ts)).
Proof.
  induction 1 as [| g t ghosts ts Hgt _ IH]; simpl; [lia |].
  rewrite filter_cons. destruct t as [p | p]; simpl in Hgt.
  - destruct Hgt as [Hh _]. rewrite decide_False by tauto.
    destruct g; try done; simpl; lia.
  - rewrite decide_True by done. simpl. destruct (counted g); simpl; lia.
Qed.

Section Reachable.

Variable Unmarshal : string -> OllamaStreamResponse + string.

Lemma thread_step_Inv (t t' : Thread) (g : Ghost) (ghosts : list Ghost) (i : nat)
    (w w' : World) (used : gset string) :
  ghosts !! i = Some g -> thread_safe g t ->
  thread_step Unmarshal t w = Some (t', w') ->
  Coherent ghosts (queue (worker w)) used (storage w) ->
  activeJobs (worker w) = tally ghosts ->
  exists g', thread_safe g' t'
             /\ Coherent (<[i := g']> ghosts) (queue (worker w')) used (storage w')
             /\ activeJobs (worker w') = tally (<[i := g']> ghosts).
Proof.
  intros Hi Hsafe Hstep Hcoh Hact.
  destruct t as [[r | X c k] | [r | X c k]]; simpl in Hstep, Hsafe.
  - discriminate.
  - destruct (exec c w) as [[x w1] |] eqn:Hex; [| discriminate].
    injection Hstep as <- <-. destruct Hsafe as [Hh [Hal Hk]].
    exists (next g c x). split; [| split].
    + split; [by apply handler_ghost_next | apply Hk].
    + by eapply command_coherent.
    + by eapply command_tally.
  - injection Hstep as <- <-. exists GIdle. split; [apply Safe_run_iteration |]. split.
    + apply (Coherent_update _ _ _ _ _ g); [done | by left | done | done | done].
    + rewrite (tally_insert _ _ _ _ Hi), Hsafe. simpl. lia.
  - destruct (exec c w) as [[x w1] |] eqn:Hex; [| discriminate].
    injection Hstep as <- <-. destruct Hsafe as [Hal Hk].
    exists (next g c x). split; [apply Hk |]. split.
    + by eapply command_coherent.
    + by eapply command_tally.
Qed.

Lemma sys_step_Inv (a : Action) (s s' : System) (ghosts : list Ghost) :
  Inv s ghosts -> sys_step Unmarshal a s = Some s' -> exists ghosts', Inv s' ghosts'.
Proof.
  intros (Hsafe & Hcoh & Hact) Hstep. destruct a as [r | i | t | key]; simpl in Hstep.
  - destruct (admissible r (issued s)) eqn:Hadm; [| discriminate].
    injection Hstep as <-. exists (ghosts ++ [start_ghost r]). split; [| split]; simpl.
    + apply Forall2_app; [done |]. constructor; [| constructor].
      split; [apply handler_ghost_start | apply Safe_handler].
    + by apply Coherent_arrive.
    + rewrite tally_app, Hact. destruct r; simpl; lia.
  - destruct (threads s !! i) as [t |] eqn:Hi; [| discriminate].
    destruct (thread_step Unmarshal t (world s)) as [[t' w'] |] eqn:Ht; [| discriminate].
    injection Hstep as <-.
    destruct (Forall2_lookup_r _ _ _ _ _ Hsafe Hi) as (g & Hg & Hgt).
    destruct (thread_step_Inv _ _ _ _ _ _ _ _ Hg Hgt Ht Hcoh Hact)
      as (g' & Hsafe' & Hcoh' & Hact').
    exists (<[i := g']> ghosts). split; [| split]; simpl; [| done | done].
    by apply Forall2_insert.
  - injection Hstep as <-. by exists ghosts.
  - case_bool_decide as Hkey; [| discriminate]. injection Hstep as <-.
    exists ghosts. split; [| split]; simpl; [done | | done].
    by apply Coherent_expired.
Qed.

Lemma sys_run_Inv (acts : list Action) : forall (s s' : System) (ghosts : list Ghost),
  Inv s ghosts -> sys_run Unmarshal acts s = Some s' -> exists ghosts', Inv s' ghosts'.
Proof.
  induction acts as [| a acts IH]; intros s s' ghosts Hinv Hrun; simpl in Hrun.
  - injection Hrun as <-. by exists ghosts.
  - destruct (sys_step Unmarshal a s) as [s1 |] eqn:Hstep; [| discriminate].
    destruct (sys_step_Inv _ _ _ _ Hinv Hstep) as (ghosts1 & Hinv1). eauto.
Qed.

Lemma tally_idle n : tally (replicate n GIdle) = 0.
Proof. induction n as [| n IH]; simpl; [done | by rewrite IH]. Qed.

Lemma boot_Inv N backend t0 : Inv (boot Unmarshal N backend t0) (replicate N GIdle).
Proof.
  split; [| split]; simpl.
  - induction N as [| N IH]; simpl; constructor; [apply Safe_run_iteration | exact IH].
  - apply (Coherent_boot N (Z.of_nat N)).
  - by rewrite tally_idle.
Qed.

Lemma reachable_Inv N s : reachable Unmarshal N s -> exists ghosts, Inv s ghosts.
Proof.
  intros (backend & t0 & acts & _ & Hrun).
  eapply sys_run_Inv; [apply boot_Inv | exact Hrun].
Qed.

(** The number of executors never changes. *)

Lemma sys_step_executors (a : Action) (s s' : System) :
  sys_step Unmarshal a s = Some s' ->
  length (filter is_executor (threads s')) = length (filter is_executor (threads s)).
Proof.
  intros Hstep. destruct a as [r | i | t | key]; simpl in Hstep.
  - destruct (admissible r (issued s)); [| discriminate]. injection Hstep as <-. simpl.
    rewrite filter_app, length_app. simpl. lia.
  - destruct (threads s !! i) as [t |] eqn:Hi; [| discriminate].
    destruct (thread_step Unmarshal t (world s)) as [[t' w'] |] eqn:Ht; [| discriminate].
    injection Hstep as <-. simpl.
    assert (Hkind : is_executor t' <-> is_executor t).
    { destruct t as [[r | X c k] | [r | X c k]]; simpl in Ht; try discriminate;
        try (destruct (exec c (world s)) as [[x w1] |]; [| discriminate]);
        injection Ht as <- _; done. }
    clear Ht. revert i Hi. induction (threads s) as [| t0 ts IH]; intros [| i] Hi;
      simpl in *; try done.
    + injection Hi as ->. rewrite !filter_cons.
      destruct (decide (is_executor t')), (decide (is_executor t)); simpl; tauto || lia.
    + rewrite !filter_cons. destruct (decide (is_executor t0)); simpl; rewrite (IH _ Hi); lia.
  - by injection Hstep as <-.
  - case_bool_decide; [| discriminate]. by injection Hstep as <-.
Qed.

Lemma executors_replicate n p :
  length (filter is_executor (replicate n (Executor p))) = n.
Proof. induction n as [| n IH]; simpl; [done | by rewrite IH]. Qed.

Lemma reachable_executors N s :
  reachable Unmarshal N s -> length (filter is_executor (threads s)) = N.
Proof.
  intros (backend & t0 & acts & _ & Hrun).
  assert (Hboot : length (filter is_executor (threads (boot Unmarshal N backend t0))) = N).
  { apply executors_replicate. }
  revert Hrun Hboot. generalize (boot Unmarshal N backend t0).
  induction acts as [| a acts IH]; intros s0 Hrun H0; simpl in Hrun.
  - by injection Hrun as <-.
  - destruct (sys_step Unmarshal a s0) as [s1 |] eqn:Hstep; [| discriminate].
    apply (IH s1 Hrun). by rewrite (sys_step_executors _ _ _ Hstep).
Qed.

(** In every reachable state the counter of active jobs is within the
    concurrency. *)
Lemma active_within_concurrency N s :
  reachable Unmarshal N s -> 0 <= activeJobs (worker (world s)) <= Z.of_nat N.
Proof.
  intros Hreach. destruct (reachable_Inv _ _ Hreach) as (ghosts & Hsafe & _ & Hact).
  pose proof (tally_le_executors _ _ Hsafe) as Hle.
  rewrite (reachable_executors _ _ Hreach) in Hle. by rewrite Hact.
Qed.

(** C5 (amended): as long as every Redis command succeeds, in every
    state the Worker can reach, under any interleaving of its handlers
    and executors, the log of every job, read in insertion order,
    carries the sequence numbers 1, 2, ..., K for some K >= 0: strictly
    increasing, dense, starting at 1. *)
Theorem log_sequence_dense (N : nat) (s : System) (jobID : string) :
  reachable Unmarshal N s ->
  exists K, 0 <= K
    /\ Seq <$> list_at (storage (world s)) (key_chunks jobID) = seqZ 1 K.
Proof.
  intros Hreach. destruct (reachable_Inv _ _ Hreach) as (ghosts & _ & Hcoh & _).
  exists (Z.of_nat (length (list_at (storage (world s)) (key_chunks jobID)))).
  split; [lia |]. apply (coh_dense _ _ _ _ Hcoh).
Qed.

End Reachable.

(** ** The executor, when replies of Redis may fail *)

Ltac fallible_step :=
  unfold mbind, mret, Fallible.M_bind, Fallible.M_ret, Fallible.redis, Fallible.local,
    Fallible.IncrSeq, Fallible.AddChunk, Fallible.UpdateJobStatus, Fallible.SetTTL,
    Fallible.GetJobMeta, Fallible.HGet_or_empty, Fallible.error_of;
  cbn [exec tail fst snd].

Lemma Fallible_finishJobWithError jobID errorMsg w :
  Fallible.finishJobWithError jobID errorMsg w []
  = reliable (run (Worker.finishJobWithError jobID errorMsg) w).
Proof. reflexivity. Qed.

Lemma Fallible_afterScan jobID scanErr w :
  Fallible.afterScan jobID scanErr w [] = reliable (run (Worker.afterScan jobID scanErr) w).
Proof. destruct scanErr; reflexivity. Qed.

Lemma Fallible_scanLoop Unmarshal jobID lines scanErr buffered : forall finishReason w,
  Fallible.scanLoop Unmarshal jobID lines scanErr buffered finishReason w []
  = reliable (run (Worker.scanLoop Unmarshal jobID lines scanErr buffered finishReason) w).
Proof.
  induction lines as [| text rest IH]; intros finishReason w.
  - apply Fallible_afterScan.
  - cbn [Fallible.scanLoop Worker.scanLoop].
    rewrite run_bind. unfold Worker.isCancelled at 1. cbn [run exec call].
    unfold mbind at 1, Fallible.M_bind at 1, Fallible.local at 1. cbn [exec].
    destruct (default false (cancelled (worker w) !! jobID)); [reflexivity |].
    destruct (is_empty (TrimSpace text) || negb (HasPrefix (TrimSpace text) "data:"));
      [apply IH |].
    destruct (is_empty (TrimSpace (TrimPrefix (TrimSpace text) "data:"))
              || String.eqb (TrimSpace (TrimPrefix (TrimSpace text) "data:")) "[DONE]");
      [apply Fallible_afterScan |].
    destruct (Unmarshal _) as [streamResp | err]; [| reflexivity].
    rewrite run_bind. unfold Storage.IncrSeq. cbn [run exec call].
    rewrite run_bind. unfold Storage.AddChunk. cbn [run exec call].
    fallible_step.
    destruct (osr_Done streamResp); [apply Fallible_afterScan | apply IH].
Qed.

(** With no outage the executor does what it does in the Worker
    process, run with no other goroutine in between. *)
Lemma Fallible_processJob Unmarshal jobID w :
  Fallible.processJob Unmarshal jobID w []
  = reliable (run (Worker.processJob Unmarshal jobID) w).
Proof.
  unfold Fallible.processJob, Worker.processJob.
  rewrite run_bind, run_GetJobMeta.
  cbv beta iota zeta delta [mbind mret Fallible.M_bind Fallible.M_ret Fallible.GetJobMeta
                         Fallible.redis exec tail].
  destruct (Storage.read_meta _) as [meta |]; [| reflexivity].
  rewrite run_bind, run_UpdateJobStatus.
  do 3 (rewrite run_bind; cbn [run exec call]).
  cbv beta iota zeta delta [mbind mret Fallible.M_bind Fallible.M_ret
                              Fallible.UpdateJobStatus Fallible.HGet_or_empty Fallible.local
                              Fallible.error_of Fallible.redis exec tail].
  cbn [storage worker clock ollama with_storage].
  destruct (ollama w _) as [err | err | err | code lines scanErr buffered];
    try reflexivity.
  destruct (negb (code =? 200)); [reflexivity |].
  apply Fallible_scanLoop.
Qed.

(** C5, as stated, fails when a Redis command fails.  In scenario S1,
    if the RPUSH of the second chunk fails, the executor logs the error
    and goes on (worker/main.go, lines 411-413): the log ends with the
    sequence numbers 1 and 3.  And if the upstream call fails and then
    the INCR of the terminal chunk fails, [finishJobWithError] drops
    the error (line 437) and appends the chunk with seq 0. *)
Lemma log_gap_when_redis_fails :
  (exists w o,
     Fallible.processJob hello_unmarshal "job-a" (world_of S1_queued) second_append_fails
     = Some (tt, w, o)
     /\ Seq <$> list_at (storage w) (key_chunks "job-a") = [1; 3]
     /\ ~ dense (list_at (storage w) (key_chunks "job-a")))
  /\ (exists w o,
        Fallible.processJob hello_unmarshal "job-a" stored_world increment_fails
        = Some (tt, w, o)
        /\ Seq <$> list_at (storage w) (key_chunks "job-a") = [0]
        /\ ~ dense (list_at (storage w) (key_chunks "job-a"))).
Proof.
  split.
  - destruct (Fallible.processJob hello_unmarshal "job-a" (world_of S1_queued)
                second_append_fails) as [[[[] w] o] |] eqn:E; [| vm_compute in E; discriminate].
    exists w, o. split; [reflexivity |].
    assert (Hlog : Seq <$> list_at (storage w) (key_chunks "job-a") = [1; 3]).
    { assert (H : (fun r => match r with
                            | Some (_, w, _) =>
                                Seq <$> list_at (storage w) (key_chunks "job-a")
                            | None => []
                            end)
                    (Fallible.processJob hello_unmarshal "job-a" (world_of S1_queued)
                       second_append_fails) = [1; 3]) by (vm_compute; reflexivity).
      by rewrite E in H. }
    split; [exact Hlog |]. unfold dense. rewrite Hlog.
    rewrite <- (length_fmap Seq), Hlog. vm_compute. discriminate.
  - destruct (Fallible.processJob hello_unmarshal "job-a" stored_world increment_fails)
      as [[[[] w] o] |] eqn:E; [| vm_compute in E; discriminate].
    exists w, o. split; [reflexivity |].
    assert (Hlog : Seq <$> list_at (storage w) (key_chunks "job-a") = [0]).
    { assert (H : (fun r => match r with
                            | Some (_, w, _) =>
                                Seq <$> list_at (storage w) (key_chunks "job-a")
                            | None => []
                            end)
                    (Fallible.processJob hello_unmarshal "job-a" stored_world
                       increment_fails) = [0]) by (vm_compute; reflexivity).
      by rewrite E in H. }
    split; [exact Hlog |]. unfold dense. rewrite Hlog.
    rewrite <- (length_fmap Seq), Hlog. vm_compute. discriminate.
Qed.

Lemma log_sequence_dense_witness :
  exists s, S1_completed = Some s
    /\ exists K, 0 <= K
         /\ Seq <$> list_at (storage (world s)) (key_chunks "job-a") = seqZ 1 K.
Proof.
  destruct S1_completed as [s |] eqn:E.
  - exists s. split; [reflexivity |].
    apply (log_sequence_dense hello_unmarshal 1 s "job-a").
    eexists _, _, _. split; [apply started_one | exact E].
  - vm_compute in E. discriminate.
Defined.

(** Once the time to live has run out the log is gone, and the counter
    is still to go. *)
Lemma S1_expired_log_removed :
  exists s, S1_expired = Some s
    /\ list_at (storage (world s)) (key_chunks "job-a") = []
    /\ hash_at (storage (world s)) (key_meta "job-a") = ∅
    /\ counter_at (storage (world s)) (key_seq "job-a") = 3.
Proof.
  destruct S1_expired as [s |] eqn:E; vm_compute in E; [| discriminate E].
  injection E as <-. eexists. split; [reflexivity |]. by vm_compute.
Qed.

(** ** C4: reading a log from a cursor *)

Lemma GetChunks_loop_take (fromSeq : Z) (result : list ChunkData) :
  forall chunks, (length chunks < 1000)%nat ->
  Storage.GetChunks_loop fromSeq result chunks
  = chunks ++ take (1000 - length chunks) (filter (fun c => fromSeq < Seq c) result).
Proof.
  induction result as [| chunk rest IH]; intros chunks Hlen; cbn [Storage.GetChunks_loop].
  - by rewrite filter_nil, take_nil, app_nil_r.
  - rewrite filter_cons. destruct (Z.ltb_spec fromSeq (Seq chunk)) as [Hlt | Hge].
    + rewrite decide_True by done.
      destruct (1000 - length chunks)%nat as [| n] eqn:Hn; [lia |]. simpl.
      rewrite length_app. simpl.
      destruct (Z.leb_spec 1000 (Z.of_nat (length chunks + 1))) as [Hfull | Hroom].
      * replace n with 0%nat by lia. by rewrite take_0.
      * rewrite IH by (rewrite length_app; simpl; lia).
        rewrite length_app, <- app_assoc. simpl. do 3 f_equal. lia.
    + rewrite decide_False by lia. by apply IH.
Qed.

Lemma GetChunks_loop_spec (fromSeq : Z) (result : list ChunkData) :
  Storage.GetChunks_loop fromSeq result []
  = take 1000 (filter (fun c => fromSeq < Seq c) result).
Proof. rewrite GetChunks_loop_take by (simpl; lia). reflexivity. Qed.

Lemma dense_from (log : list ChunkData) : forall m,
  Seq <$> log = seqZ m (Z.of_nat (length log)) ->
  Forall (fun c => m <= Seq c) log /\ StronglySorted seq_lt log.
Proof.
  induction log as [| c log IH]; intros m H; [split; constructor |].
  rewrite seqZ_cons in H by (simpl; lia). simpl in H. injection H as Hc Hrest.
  replace (Z.pred (Z.of_nat (S (length log)))) with (Z.of_nat (length log)) in Hrest by lia.
  destruct (IH _ Hrest) as [Hall Hsorted]. split.
  - constructor; [lia |]. eapply Forall_impl; [exact Hall |]. simpl. lia.
  - constructor; [exact Hsorted |]. eapply Forall_impl; [exact Hall |].
    unfold seq_lt. simpl. lia.
Qed.



Lemma run_GetEvents jobID seqStr n w :
  Atoi seqStr = Some n ->
  run (Server.GetEvents jobID seqStr) w
  = Some (match Storage.read_meta (hash_at (storage w) (key_meta jobID)) with
          | None => {| resp_code := StatusNotFound; resp_body := BodyText "job not found" |}
          | Some meta =>
              {| resp_code := StatusOK;
                 resp_body := BodyEvents
                   {| er_Status := jm_Status meta;
                      er_Chunks := Storage.GetChunks_loop n
                                     (list_at (storage w) (key_chunks jobID)) [] |} |}
          end, w).
Proof.
  intros Hn. unfold Server.GetEvents, Server.fromSeq. rewrite Hn.
  assert (is_empty seqStr = false) as -> by (by destruct seqStr).
  rewrite run_bind, run_GetJobMeta.
  by destruct (Storage.read_meta (hash_at (storage w) (key_meta jobID))).
Qed.


Lemma Atoi_range (s : string) (v : Z) : Atoi s = Some v -> MinInt <= v <= MaxInt.
Proof.
  unfold Atoi.
  destruct (match s with
            | String "-" rest => (true, rest)
            | String "+" rest => (false, rest)
            | _ => (false, s)
            end) as [neg digits].
  destruct digits as [| d digits]; [discriminate |].
  destruct (parse_digits (String d digits) 0) as [n |]; [| discriminate].
  destruct ((MinInt <=? (if neg then - n else n)) && ((if neg then - n else n) <=? MaxInt))
    eqn:E; [| discriminate].
  intros [= <-]. apply andb_true_iff in E as [H1 H2].
  apply Z.leb_le in H1. apply Z.leb_le in H2. lia.
Qed.



Section Events.

Variable Unmarshal : string -> OllamaStreamResponse + string.


End Events.


(** ** The admission bound under atomic operations *)

Lemma atomic_step_bounds (op : Operation) (w w' : World) :
  within_bounds (worker w) -> atomic_step op w = Some w' -> within_bounds (worker w').
Proof.
  unfold within_bounds. intros (Hmax & Hact & Hq & Hsum) Hstep.
  destruct op as [jobID | |]; simpl in Hstep.
  - unfold Worker.Enqueue in Hstep.
    cbn [run mbind mret Prog_bind Prog_ret bind call exec fst snd] in Hstep.
    destruct (Z.leb_spec (maxQueueSize (worker w))
                (activeJobs (worker w) + Z.of_nat (length (queue (worker w)))));
      cbn [run mbind mret Prog_bind Prog_ret bind call exec] in Hstep.
    + injection Hstep as <-. auto.
    + destruct (Z.ltb_spec (Z.of_nat (length (queue (worker w)))) (maxQueueSize (worker w)));
        cbn [run exec] in Hstep; injection Hstep as <-; simpl; [| auto].
      rewrite length_app. simpl. lia.
  - destruct (Z.ltb_spec (activeJobs (worker w)) (concurrency (worker w))); [| discriminate].
    cbn [run mbind mret Prog_bind Prog_ret bind call exec] in Hstep.
    destruct (queue (worker w)) as [| jobID rest] eqn:Hqueue; [discriminate |].
    cbn [run exec fmap option_fmap option_map snd] in Hstep. injection Hstep as <-.
    simpl in *. lia.
  - destruct (Z.ltb_spec 0 (activeJobs (worker w))); [| discriminate].
    injection Hstep as <-. simpl. lia.
Qed.

(** Were every call of [Enqueue], every receipt of a job and every
    return from a job atomic, the counters of a Worker of concurrency N
    would satisfy active <= N and active + queued <= 2N in every state. *)
Lemma admission_bound_atomic (N : nat) (ops : list Operation) (w w' : World) :
  started N ->
  worker w = NewWorker (Z.of_nat N) ->
  atomic_run ops w = Some w' ->
  activeJobs (worker w') <= Z.of_nat N
  /\ activeJobs (worker w') + queuedJobs (worker w') <= 2 * Z.of_nat N
  /\ activeJobs (worker w') + Z.of_nat (length (queue (worker w'))) <= 2 * Z.of_nat N.
Proof.
  intros Hst Hw Hrun.
  assert (Hb : within_bounds (worker w)).
  { rewrite Hw. unfold within_bounds. rewrite (started_ceiling N Hst).
    cbn [concurrency NewWorker activeJobs queuedJobs queue length]. lia. }
  assert (Hc : concurrency (worker w) = Z.of_nat N) by (by rewrite Hw).
  assert (H : within_bounds (worker w') /\ concurrency (worker w') = Z.of_nat N).
  { clear Hw. revert w Hrun Hb Hc. induction ops as [| op ops IH]; intros w Hrun Hb Hc;
      simpl in Hrun.
    - by injection Hrun as <-.
    - destruct (atomic_step op w) as [w1 |] eqn:Hstep; [| discriminate].
      apply (IH w1 Hrun); [by eapply atomic_step_bounds |].
      destruct (atomic_step_bounds _ _ _ Hb Hstep) as (Hmax1 & _).
      destruct Hb as (Hmax & _).
      assert (maxQueueSize (worker w1) = maxQueueSize (worker w)) as Hsame.
      { clear -Hstep. destruct op as [jobID | |]; simpl in Hstep.
        - unfold Worker.Enqueue in Hstep.
          cbn [run mbind mret Prog_bind Prog_ret bind call exec fst snd] in Hstep.
          destruct (maxQueueSize (worker w) <=? _);
            cbn [run mbind mret Prog_bind Prog_ret bind call exec] in Hstep;
            [by injection Hstep as <- |].
          destruct (_ <? maxQueueSize (worker w));
            cbn [run exec] in Hstep; by injection Hstep as <-.
        - destruct (_ <? _); [| discriminate].
          cbn [run mbind mret Prog_bind Prog_ret bind call exec] in Hstep.
          destruct (queue (worker w)); [discriminate |]. by injection Hstep as <-.
        - destruct (_ <? _); [| discriminate]. by injection Hstep as <-. }
      lia. }
  destruct H as ((Hmax & Hact & Hq & Hsum) & HN). lia.
Qed.

(** ** C3: the admission bound *)

Lemma overrun_reached (run_to : option System) :
  (fun o => match o with
            | Some s => Some (activeJobs (worker (world s)), queuedJobs (worker (world s)),
                              queue (worker (world s)))
            | None => None
            end) run_to = Some (1, 2, ["job-b"; "job-c"]) ->
  exists s, run_to = Some s /\ overrun 1 s.
Proof.
  destruct run_to as [s |]; [| discriminate].
  intros [= Ha Hq Hl]. exists s. split; [reflexivity |].
  unfold overrun. rewrite Ha, Hq, Hl. simpl. lia.
Qed.

(** C3: the code departs from the claim.  In every reachable state
    active <= N holds.  But with concurrency 1 a state is reachable in
    which one job is active while two wait in the channel: active +
    queued is 3, above 2N = 2, whether queued is read from the counter or
    from the length of the channel.  It is reached when three requests
    are served in a row while the executor has received the first job and
    not yet counted it ([S3_overrun]), and when two requests are served
    side by side, each reading the counters before the other one sends
    ([S3_race]). *)
Theorem admission_bound_overrun :
  (forall Unmarshal N s,
     reachable Unmarshal N s -> 0 <= activeJobs (worker (world s)) <= Z.of_nat N)
  /\ (exists s, S3_overrun = Some s /\ reachable hello_unmarshal 1 s /\ overrun 1 s)
  /\ (exists s, S3_race = Some s /\ reachable hello_unmarshal 1 s /\ overrun 1 s).
Proof.
  split; [apply active_within_concurrency |]. split.
  - destruct (overrun_reached S3_overrun) as (s & E & Hover); [vm_compute; reflexivity |].
    exists s. split; [exact E |]. split; [| exact Hover].
    eexists _, _, _. split; [apply started_one | exact E].
  - destruct (overrun_reached S3_race) as (s & E & Hover); [vm_compute; reflexivity |].
    exists s. split; [exact E |]. split; [| exact Hover].
    eexists _, _, _. split; [apply started_one | exact E].
Qed.

(** * Further properties of the two programs *)

(** [E] says that a run that can be computed has no result. *)
Ltac no_run E :=
  match type of E with
  | ?t = None =>
      let H := fresh in
      assert (H : match t with Some _ => true | None => false end = true)
        by (vm_compute; reflexivity);
      rewrite E in H; discriminate H
  end.

(** ** The metadata of a job (Storage) *)

Lemma key_meta_inj a b : key_meta a = key_meta b -> a = b.
Proof.
  unfold key_meta. intros H. apply String.app_inj in H.
  by apply string_app_inj_r in H.
Qed.

Lemma read_meta_found (h : gmap string string) :
  h <> ∅ ->
  Storage.read_meta h
  = Some {| jm_Status := default "" (h !! "status");
            jm_Model := default "" (h !! "model");
            jm_CreatedAt := default "" (h !! "created_at");
            jm_CompletedAt := default "" (h !! "completed_at");
            jm_Error := default "" (h !! "error") |}.
Proof.
  intros H. unfold Storage.read_meta.
  assert ((size h =? 0)%nat = false) as ->; [| reflexivity].
  apply Nat.eqb_neq. intros Hs. by apply map_size_empty_iff in Hs.
Qed.

Lemma read_meta_missing : Storage.read_meta ∅ = None.
Proof. reflexivity. Qed.

Lemma lookup_nonempty (h : gmap string string) field v : h !! field = Some v -> h <> ∅.
Proof. intros H ->. by rewrite lookup_empty in H. Qed.

Ltac fields :=
  unfold set_fields; cbn [foldl fst snd app];
  repeat first [ rewrite lookup_insert_eq | rewrite lookup_insert_ne by done ].

(** X1: for every keyspace, job id and metadata, after [Storage.CreateJob]
    the job is found by [GetJobMeta] with the status, model and creation
    time just written; its completion time and error are those the key
    held before (empty for a new key: an existing job is overwritten,
    not refused).  The metadata of every other job, the logs, the
    counters and the Worker's memory are as before. *)
Theorem CreateJob_then_GetJobMeta (w : World) (jobID : string) (meta : JobMeta) :
  exists w',
    run (Storage.CreateJob jobID meta) w = Some (tt, w')
    /\ run (Storage.GetJobMeta jobID) w'
       = Some (Some {| jm_Status := jm_Status meta;
                       jm_Model := jm_Model meta;
                       jm_CreatedAt := jm_CreatedAt meta;
                       jm_CompletedAt :=
                         default "" (hash_at (storage w) (key_meta jobID) !! "completed_at");
                       jm_Error :=
                         default "" (hash_at (storage w) (key_meta jobID) !! "error") |}, w')
    /\ (forall other, other <> jobID ->
          hash_at (storage w') (key_meta other) = hash_at (storage w) (key_meta other))
    /\ lists (storage w') = lists (storage w)
    /\ counters (storage w') = counters (storage w)
    /\ expiring (storage w') = expiring (storage w)
    /\ worker w' = worker w.
Proof.
  eexists. split; [reflexivity |]. rewrite run_GetJobMeta. keyspace.
  split; [| split; [| done]].
  - rewrite read_meta_found; [by fields |].
    apply (lookup_nonempty _ "status" (jm_Status meta)). by fields.
  - intros other Hne. apply hash_at_hset_ne. intros H. by apply key_meta_inj in H.
Qed.

(** X2: [Storage.UpdateJobStatus] is a partial update that never clears
    a field: the status is always written; the completion time and the
    error are written when the argument is not empty and keep their
    stored value otherwise; every other field of the job (model,
    created_at, messages, options) and every other key are as before.
    The job exists afterwards even if it did not before. *)
Theorem UpdateJobStatus_partial_update (w : World) (jobID : string)
    (status completedAt errorMsg : string) :
  exists w',
    run (Storage.UpdateJobStatus jobID status completedAt errorMsg) w = Some (tt, w')
    /\ (let old := hash_at (storage w) (key_meta jobID) in
        let new := hash_at (storage w') (key_meta jobID) in
        new !! "status" = Some status
        /\ new !! "completed_at"
           = (if is_empty completedAt then old !! "completed_at" else Some completedAt)
        /\ new !! "error" = (if is_empty errorMsg then old !! "error" else Some errorMsg)
        /\ (forall field, field <> "status" -> field <> "completed_at" -> field <> "error" ->
              new !! field = old !! field)
        /\ exists meta, run (Storage.GetJobMeta jobID) w' = Some (Some meta, w')
                        /\ jm_Status meta = status)
    /\ (forall other, other <> jobID ->
          hash_at (storage w') (key_meta other) = hash_at (storage w) (key_meta other))
    /\ lists (storage w') = lists (storage w)
    /\ counters (storage w') = counters (storage w)
    /\ expiring (storage w') = expiring (storage w)
    /\ worker w' = worker w.
Proof.
  eexists. split; [apply run_UpdateJobStatus |]. keyspace.
  split; [| split; [| done]].
  - cbn zeta.
    pose proof (status_data_status status completedAt errorMsg
                  (hash_at (storage w) (key_meta jobID))) as Hs.
    split; [exact Hs |]. clear Hs.
    split; [| split; [| split]].
    + unfold Storage.status_data.
      destruct (is_empty completedAt), (is_empty errorMsg); cbn zeta; by fields.
    + unfold Storage.status_data.
      destruct (is_empty completedAt), (is_empty errorMsg); cbn zeta; by fields.
    + intros field H1 H2 H3. unfold Storage.status_data.
      destruct (is_empty completedAt), (is_empty errorMsg); cbn zeta; by fields.
    + rewrite run_GetJobMeta. keyspace.
      destruct (read_meta_status _ _ (status_data_status status completedAt errorMsg
                  (hash_at (storage w) (key_meta jobID)))) as (meta & Hm & Hst).
      exists meta. by rewrite Hm.
  - intros other Hne. apply hash_at_hset_ne. intros H. by apply key_meta_inj in H.
Qed.
(** ** C2: a request that is refused (Server.CreateJob) *)

Lemma set_fields_cons key value values (h : gmap string string) :
  set_fields ((key, value) :: values) h = set_fields values (<[key := value]> h).
Proof. reflexivity. Qed.

Lemma lookup_insert_eqb (h : gmap string string) (key field value : string) :
  <[key := value]> h !! field = if String.eqb field key then Some value else h !! field.
Proof.
  destruct (String.eqb_spec field key) as [-> | Hne].
  - by rewrite lookup_insert_eq.
  - by rewrite lookup_insert_ne.
Qed.

(** The fields of a hash after [UpdateJobStatus]. *)
Lemma status_data_lookup status completedAt errorMsg (h : gmap string string) field :
  set_fields (Storage.status_data status completedAt errorMsg) h !! field
  = if String.eqb field "error" then
      (if is_empty errorMsg then
         (if is_empty completedAt then h !! field
          else if String.eqb field "completed_at" then Some completedAt else h !! field)
       else Some errorMsg)
    else if String.eqb field "completed_at" then
      (if is_empty completedAt then h !! field else Some completedAt)
    else if String.eqb field "status" then Some status
    else h !! field.
Proof.
  unfold Storage.status_data.
  destruct (is_empty completedAt), (is_empty errorMsg);
    cbn [app]; rewrite ?set_fields_cons; cbn [set_fields foldl];
    rewrite ?lookup_insert_eqb;
    destruct (String.eqb_spec field "error") as [-> | _]; try reflexivity;
    destruct (String.eqb_spec field "completed_at") as [-> | _]; reflexivity.
Qed.

(** The fields of the metadata once [CreateJob] has written the
    request. *)
Lemma stored_request_lookup req jobID now st field :
  hash_at (stored_request req jobID now st) (key_meta jobID) !! field
  = if String.eqb field "options" && (0 <? size (jr_Options req))%nat
    then Some (json_object (jr_Options req))
    else if String.eqb field "messages" && (0 <? length (jr_Messages req))%nat
    then Some (json_array (jr_Messages req))
    else if String.eqb field "created_at" then Some now
    else if String.eqb field "model" then Some (jr_Model req)
    else if String.eqb field "status" then Some StatusQueued
    else hash_at st (key_meta jobID) !! field.
Proof.
  unfold stored_request.
  destruct (0 <? size (jr_Options req))%nat, (0 <? length (jr_Messages req))%nat;
    rewrite ?hash_at_hset, ?set_fields_cons; cbn [set_fields foldl];
    rewrite ?lookup_insert_eqb, ?andb_true_r, ?andb_false_r;
    destruct (String.eqb_spec field "options") as [-> | _]; try reflexivity;
    destruct (String.eqb_spec field "messages") as [-> | _]; reflexivity.
Qed.

Lemma stored_request_frame req jobID now st :
  lists (stored_request req jobID now st) = lists st
  /\ counters (stored_request req jobID now st) = counters st
  /\ expiring (stored_request req jobID now st) = expiring st
  /\ forall key, key <> key_meta jobID ->
       hash_at (stored_request req jobID now st) key = hash_at st key.
Proof.
  unfold stored_request.
  destruct (0 <? size (jr_Options req))%nat, (0 <? length (jr_Messages req))%nat;
    repeat split; intros; rewrite ?hash_at_hset_ne by done; reflexivity.
Qed.

(** [CreateJob] writes the request, and then admits the job or refuses
    it. *)
Lemma run_CreateJob_stored req jobID w :
  run (Server.CreateJob (inl req) jobID) w
  = run (Server.enqueueJob jobID (clock w)) (with_storage (stored_request req jobID (clock w)) w).
Proof.
  unfold Server.CreateJob, stored_request.
  rewrite run_bind. cbn [run Worker.GetStats mbind Prog_bind bind call exec mret Prog_ret].
  rewrite run_bind. cbn [run Storage.CreateJob mbind Prog_bind bind call exec mret Prog_ret
                           jm_Status jm_Model jm_CreatedAt].
  rewrite !run_bind.
  destruct (0 <? length (jr_Messages req))%nat;
    cbn [run call exec mret Prog_ret]; rewrite !run_bind;
    destruct (0 <? size (jr_Options req))%nat;
    cbn [run call exec mret Prog_ret with_storage storage worker clock ollama];
    reflexivity.
Qed.

Lemma eqb_other (field name : string) : field <> name -> String.eqb field name = false.
Proof. intros H. by apply String.eqb_neq. Qed.

(** C2 (amended): a decodable create-job request for which [Enqueue],
    when it reads the counters, finds active + queued at or above the
    ceiling (queued being the length of the channel) is refused with
    429 and the code "rate_limit_exceeded", and nothing is handed to the
    executors.  The store is not left unchanged: the metadata of the
    new job is written before the admission is decided, and the refusal
    turns its status into "failed".  First part: a request served with
    no other goroutine in between while the Worker is at its ceiling;
    the metadata then holds the status "failed", the text of the
    refusal as error, the time of the clock as completed_at and as
    created_at, the model, and the messages and options of the request
    when it has any; the Worker's memory, every log, every counter,
    every time to live and every other key are as before.  Second
    part: the handler among other goroutines, which may do anything
    between its commands; when the counters it reads in the world [w1]
    reach the ceiling it reads in [w2], it stores the status "failed"
    in the world [w3] it finds next, and answers 429. *)
Theorem CreateJob_overload (req : JobRequest) (jobID : string) :
  (forall w : World,
     maxQueueSize (worker w)
       <= activeJobs (worker w) + Z.of_nat (length (queue (worker w))) ->
     exists err w',
       run (Server.CreateJob (inl req) jobID) w = Some (overloaded err, w')
       /\ worker w' = worker w
       /\ (let old := hash_at (storage w) (key_meta jobID) in
           let new := hash_at (storage w') (key_meta jobID) in
           new !! "status" = Some StatusFailed
           /\ new !! "error" = Some err
           /\ new !! "completed_at"
              = (if is_empty (clock w) then old !! "completed_at" else Some (clock w))
           /\ new !! "model" = Some (jr_Model req)
           /\ new !! "created_at" = Some (clock w)
           /\ new !! "messages"
              = (if (0 <? length (jr_Messages req))%nat
                 then Some (json_array (jr_Messages req)) else old !! "messages")
           /\ new !! "options"
              = (if (0 <? size (jr_Options req))%nat
                 then Some (json_object (jr_Options req)) else old !! "options")
           /\ forall field,
                field <> "status" -> field <> "error" -> field <> "completed_at" ->
                field <> "model" -> field <> "created_at" -> field <> "messages" ->
                field <> "options" -> new !! field = old !! field)
       /\ lists (storage w') = lists (storage w)
       /\ counters (storage w') = counters (storage w)
       /\ expiring (storage w') = expiring (storage w)
       /\ forall key, key <> key_meta jobID ->
            hash_at (storage w') key = hash_at (storage w) key)
  /\ (forall (now : string) (w1 w2 w3 : World),
        maxQueueSize (worker w2)
          <= activeJobs (worker w1) + Z.of_nat (length (queue (worker w1))) ->
        exists err,
          run_among (Server.enqueueJob jobID now) [w1; w2; w3]
          = Some (overloaded err,
                  [w1; w2;
                   with_storage
                     (hset (key_meta jobID) (Storage.status_data StatusFailed now err)) w3])).
Proof.
  split.
  - intros w Hfull.
    set (err := "queue full: active=" +:+ fmt_d (activeJobs (worker w)) +:+ ", queued="
                  +:+ fmt_d (Z.of_nat (length (queue (worker w)))) +:+ ", max="
                  +:+ fmt_d (maxQueueSize (worker w))).
    exists err. rewrite run_CreateJob_stored. unfold Server.enqueueJob.
    rewrite run_bind, run_Enqueue_full by exact Hfull. fold err.
    rewrite run_bind, run_UpdateJobStatus. cbn [run mret Prog_ret clock with_storage].
    eexists. split; [reflexivity |].
    cbn [storage worker with_storage].
    destruct (stored_request_frame req jobID (clock w) (storage w)) as (Hl & Hc & He & Hh).
    split; [reflexivity |]. split; [| split; [| split; [| split]]].
    + cbn zeta. rewrite hash_at_hset.
      assert (Herr : is_empty err = false) by reflexivity.
      repeat split; try (intros field H1 H2 H3 H4 H5 H6 H7);
        rewrite status_data_lookup, ?Herr, ?stored_request_lookup;
        rewrite ?eqb_other by assumption; cbn [String.eqb Ascii.eqb Bool.eqb andb];
        try reflexivity.
    + exact Hl.
    + exact Hc.
    + exact He.
    + intros key Hkey. rewrite hash_at_hset_ne by done. by apply Hh.
  - intros now w1 w2 w3 Hfull. eexists.
    unfold Server.enqueueJob, Worker.Enqueue.
    cbn [run_among mbind Prog_bind bind call exec fst snd].
    destruct (Z.leb_spec (maxQueueSize (worker w2))
                (activeJobs (worker w1) + Z.of_nat (length (queue (worker w1)))));
      [| lia].
    cbn [run_among mbind mret Prog_bind Prog_ret bind call exec Storage.UpdateJobStatus].
    reflexivity.
Qed.

Lemma CreateJob_overload_witness :
  exists err w',
    run (Server.CreateJob (inl hello_request) "job-c") busy_world = Some (overloaded err, w')
    /\ hash_at (storage w') (key_meta "job-c") !! "status" = Some StatusFailed
    /\ hash_at (storage w') (key_meta "job-c") !! "model" = Some "gpt-oss:20b"
    /\ worker w' = worker busy_world.
Proof.
  destruct (proj1 (CreateJob_overload hello_request "job-c") busy_world)
    as (err & w' & Hrun & Hw & (Hs & _ & _ & Hm & _) & _).
  - vm_compute. discriminate.
  - exists err, w'. by repeat split.
Defined.

(** ** Reading a job (Storage.GetChunks, Server.GetEvents, Server.GetStatus) *)

Lemma read_meta_None (h : gmap string string) : Storage.read_meta h = None <-> h = ∅.
Proof.
  split; [| intros ->; reflexivity].
  intros H. destruct (decide (h = ∅)) as [| Hne]; [done |].
  by rewrite read_meta_found in H.
Qed.

(** On a dense log the chunks above a cursor are a suffix of the log. *)
Lemma filter_above_dense (log : list ChunkData) : forall m n,
  Seq <$> log = seqZ m (Z.of_nat (length log)) ->
  filter (fun c => n < Seq c) log = drop (Z.to_nat (n - m + 1)) log.
Proof.
  induction log as [| c log IH]; intros m n H; [by rewrite drop_nil |].
  rewrite seqZ_cons in H by (simpl; lia). simpl in H. injection H as Hc Hrest.
  replace (Z.pred (Z.of_nat (S (length log)))) with (Z.of_nat (length log)) in Hrest by lia.
  rewrite filter_cons, (IH _ n Hrest). destruct (decide (n < Seq c)) as [Hlt | Hge].
  - replace (Z.to_nat (n - m + 1)) with 0%nat by lia.
    replace (Z.to_nat (n - Z.succ m + 1)) with 0%nat by lia. reflexivity.
  - replace (Z.to_nat (n - m + 1)) with (S (Z.to_nat (n - Z.succ m + 1))) by lia.
    reflexivity.
Qed.

Lemma run_GetChunks jobID fromSeq w :
  run (Storage.GetChunks jobID fromSeq) w
  = Some (Storage.GetChunks_loop fromSeq (list_at (storage w) (key_chunks jobID)) [], w).
Proof. reflexivity. Qed.

Section Paging.

Variable Unmarshal : string -> OllamaStreamResponse + string.

Lemma reachable_page (N : nat) (s : System) (jobID : string) (n : Z) :
  reachable Unmarshal N s ->
  Storage.GetChunks_loop n (list_at (storage (world s)) (key_chunks jobID)) []
  = take 1000 (drop (Z.to_nat n) (list_at (storage (world s)) (key_chunks jobID))).
Proof.
  intros Hreach. destruct (reachable_Inv _ _ _ Hreach) as (ghosts & _ & Hcoh & _).
  rewrite GetChunks_loop_spec, (filter_above_dense _ 1 n (coh_dense _ _ _ _ Hcoh jobID)).
  do 2 f_equal. lia.
Qed.

(** X3: in every state the Worker can reach, [Storage.GetChunks] with
    the cursor n returns the chunks at the positions n+1, ..., n+1000 of
    the log, as far as the log goes (the first 1000 chunks for a
    negative cursor), and changes nothing. *)
Theorem GetChunks_page (N : nat) (s : System) (jobID : string) (n : Z) :
  reachable Unmarshal N s ->
  run (Storage.GetChunks jobID n) (world s)
  = Some (take 1000 (drop (Z.to_nat n) (list_at (storage (world s)) (key_chunks jobID))),
          world s).
Proof. intros Hreach. by rewrite run_GetChunks, (reachable_page N). Qed.

(** X4: in every state the Worker can reach, a request for the events
    of a job whose from_seq is absent, empty, not a decimal integer or
    out of the range of an int is served from the start of the log: 404
    when the job has no metadata, else 200 with the stored status and
    the first 1000 chunks of the log. *)
Theorem GetEvents_default_cursor (N : nat) (s : System) (jobID seqStr : string) :
  reachable Unmarshal N s ->
  Atoi seqStr = None ->
  run (Server.GetEvents jobID seqStr) (world s)
  = Some (match Storage.read_meta (hash_at (storage (world s)) (key_meta jobID)) with
          | None => {| resp_code := StatusNotFound; resp_body := BodyText "job not found" |}
          | Some meta =>
              {| resp_code := StatusOK;
                 resp_body := BodyEvents
                   {| er_Status := jm_Status meta;
                      er_Chunks := take 1000 (list_at (storage (world s)) (key_chunks jobID)) |} |}
          end, world s).
Proof.
  intros Hreach Hn. unfold Server.GetEvents, Server.fromSeq. rewrite Hn.
  replace (if is_empty seqStr then -1 else -1) with (-1) by (by destruct (is_empty seqStr)).
  rewrite run_bind, run_GetJobMeta.
  destruct (Storage.read_meta _) as [meta |]; [| reflexivity].
  rewrite run_bind, run_GetChunks, (reachable_page N) by done. reflexivity.
Qed.

End Paging.

Lemma GetChunks_page_witness :
  exists s, S1_completed = Some s
    /\ run (Storage.GetChunks "job-a" 1) (world s)
       = Some (take 1000 (drop (Z.to_nat 1)
                 (list_at (storage (world s)) (key_chunks "job-a"))), world s).
Proof.
  destruct S1_completed as [s |] eqn:E.
  - exists s. split; [reflexivity |].
    apply (GetChunks_page hello_unmarshal 1 s "job-a" 1).
    eexists _, _, _. split; [apply started_one | exact E].
  - no_run E.
Defined.

Lemma GetEvents_default_cursor_witness :
  exists s, S1_completed = Some s
    /\ run (Server.GetEvents "job-a" "latest") (world s)
       = Some (match Storage.read_meta (hash_at (storage (world s)) (key_meta "job-a")) with
          | None => {| resp_code := StatusNotFound; resp_body := BodyText "job not found" |}
          | Some meta =>
              {| resp_code := StatusOK;
                 resp_body := BodyEvents
                   {| er_Status := jm_Status meta;
                      er_Chunks := take 1000 (list_at (storage (world s)) (key_chunks "job-a")) |} |}
          end, world s).
Proof.
  destruct S1_completed as [s |] eqn:E.
  - exists s. split; [reflexivity |].
    apply (GetEvents_default_cursor hello_unmarshal 1 s "job-a" "latest").
    + eexists _, _, _. split; [apply started_one | exact E].
    + reflexivity.
  - no_run E.
Defined.

(** X5: the three GET endpoints of the Worker always answer and change
    nothing, neither the keyspace nor the Worker's memory; events and
    status answer 404 exactly when the metadata hash of the job is
    missing or empty, and 200 otherwise. *)
Theorem GET_endpoints_read_only (w : World) (jobID seqStr : string) :
  (exists resp,
     run (Server.GetEvents jobID seqStr) w = Some (resp, w)
     /\ (resp_code resp = StatusNotFound \/ resp_code resp = StatusOK)
     /\ (resp_code resp = StatusNotFound <-> hash_at (storage w) (key_meta jobID) = ∅))
  /\ (exists resp,
        run (Server.GetStatus jobID) w = Some (resp, w)
        /\ (resp_code resp = StatusNotFound \/ resp_code resp = StatusOK)
        /\ (resp_code resp = StatusNotFound <-> hash_at (storage w) (key_meta jobID) = ∅))
  /\ (exists stats,
        run Server.GetWorkerStats w
        = Some ({| resp_code := StatusOK; resp_body := BodyStats stats |}, w)).
Proof.
  split; [| split].
  - unfold Server.GetEvents. rewrite run_bind, run_GetJobMeta.
    destruct (Storage.read_meta _) as [meta |] eqn:E.
    + eexists. split; [reflexivity |]. split; [by right |]. simpl.
      split; [done |]. intros H. apply read_meta_None in H. congruence.
    + eexists. split; [reflexivity |]. split; [by left |]. simpl.
      split; [| done]. intros _. by apply read_meta_None.
  - unfold Server.GetStatus. rewrite run_bind, run_GetJobMeta.
    destruct (Storage.read_meta _) as [meta |] eqn:E.
    + eexists. split; [reflexivity |]. split; [by right |]. simpl.
      split; [done |]. intros H. apply read_meta_None in H. congruence.
    + eexists. split; [reflexivity |]. split; [by left |]. simpl.
      split; [| done]. intros _. by apply read_meta_None.
  - eexists. reflexivity.
Qed.

(** ** The procedures of an executor, run on their own *)

Lemma own_refl jobID w : own_keys_only jobID w w.
Proof. repeat split; try done; lia. Qed.

Lemma own_trans jobID w1 w2 w3 :
  own_keys_only jobID w1 w2 -> own_keys_only jobID w2 w3 -> own_keys_only jobID w1 w3.
Proof.
  intros (Hw & Hc & Ho & Hk & Hl & Hn) (Hw' & Hc' & Ho' & Hk' & Hl' & Hn').
  split; [congruence |]. split; [congruence |]. split; [congruence |].
  split; [| split; [by etrans | lia]].
  intros key Hkey. destruct (Hk key Hkey) as (? & ? & ? & ?).
  destruct (Hk' key Hkey) as (? & ? & ? & ?). repeat split; congruence.
Qed.

Lemma own_exec {X} (c : Cmd X) (jobID : string) (w : World) :
  may_issue jobID c -> exists x w', exec c w = Some (x, w') /\ own_keys_only jobID w w'.
Proof.
  intros Hc.
  destruct c; simpl in Hc; try contradiction;
    try (eexists _, _; split; [reflexivity | apply own_refl]);
    try subst key; (eexists _, _; split; [reflexivity |]);
    repeat split; keyspace; try done; try lia; try (by apply prefix_app_r);
    try (simpl; rewrite lookup_insert_ne; [done | intros <-; apply H; unfold key_of; tauto]).
  all: unfold expire; destruct (key_exists (storage w) key); try done; try lia.
  simpl. rewrite lookup_insert_ne; [done |]. by intros <-.
Qed.

Lemma run_Confined {R} (jobID : string) (p : Prog R) : forall w,
  Confined jobID p -> exists r w', run p w = Some (r, w') /\ own_keys_only jobID w w'.
Proof.
  induction p as [r | X c k IH]; intros w H.
  - exists r, w. split; [reflexivity | apply own_refl].
  - destruct H as [Hc Hk]. destruct (own_exec c jobID w Hc) as (x & w1 & Hex & Hown).
    destruct (IH x w1 (Hk x)) as (r & w' & Hrun & Hown').
    exists r, w'. split; [simpl; by rewrite Hex | by eapply own_trans].
Qed.

Lemma Confined_bind {A B} (jobID : string) (p : Prog A) (f : A -> Prog B) :
  Confined jobID p -> (forall a, Confined jobID (f a)) -> Confined jobID (p ≫= f).
Proof.
  intros Hp Hf. induction p as [a | X c k IH]; [apply Hf |].
  destruct Hp as [Hc Hk]. split; [exact Hc |]. intros x. by apply IH.
Qed.

Lemma Confined_finishJobWithError jobID errorMsg :
  Confined jobID (Worker.finishJobWithError jobID errorMsg).
Proof. repeat (split; [done |]; intros ?). done. Qed.

Lemma Confined_afterScan jobID scanErr : Confined jobID (Worker.afterScan jobID scanErr).
Proof.
  destruct scanErr as [err |]; [apply Confined_finishJobWithError |].
  split; [done |]. intros now. split; [done |]. intros [].
  split; [by left |]. intros []. split; [right; by left |]. intros [].
  split; [right; by right |]. by intros [].
Qed.

Section Confinement.

Variable Unmarshal : string -> OllamaStreamResponse + string.

Lemma Confined_scanLoop jobID lines scanErr buffered : forall finishReason,
  Confined jobID (Worker.scanLoop Unmarshal jobID lines scanErr buffered finishReason).
Proof.
  induction lines as [| text rest IH]; intros finishReason; cbn [Worker.scanLoop].
  - apply Confined_afterScan.
  - split; [done |]. intros c. prog_norm.
    destruct c; [apply Confined_finishJobWithError |].
    destruct (is_empty (TrimSpace text) || negb (HasPrefix (TrimSpace text) "data:"));
      [apply IH |].
    destruct (is_empty _ || String.eqb _ "[DONE]"); [apply Confined_afterScan |].
    destruct (Unmarshal _) as [streamResp | err]; [| apply Confined_finishJobWithError].
    split; [done |]. intros seq. split; [done |]. intros [].
    destruct (osr_Done streamResp); [apply Confined_afterScan | apply IH].
Qed.

Lemma Confined_processJob jobID : Confined jobID (Worker.processJob Unmarshal jobID).
Proof.
  split; [done |]. intros result. prog_norm.
  destruct (Storage.read_meta result) as [meta |]; [| done].
  split; [done |]. intros []. split; [done |]. intros messages.
  split; [done |]. intros options. split; [done |]. intros resp.
  destruct resp as [err | err | err | StatusCode lines scanErr buffered];
    try apply Confined_finishJobWithError.
  destruct (negb (StatusCode =? 200)); [apply Confined_finishJobWithError |].
  apply Confined_scanLoop.
Qed.

(** X6: for every state of the keyspace and of the Worker, whatever the
    backend answers and whether or not the job is known or cancelled,
    [processJob] returns, and it has touched nothing but the three keys
    of its job: the Worker's queue, counters and cancellation registry
    and every key of every other job are as before; the log of the job
    has only grown at its end and its counter has not gone down. *)
Theorem processJob_own_keys (w : World) (jobID : string) :
  exists w',
    run (Worker.processJob Unmarshal jobID) w = Some (tt, w')
    /\ own_keys_only jobID w w'.
Proof.
  destruct (run_Confined jobID _ w (Confined_processJob jobID)) as ([] & w' & Hrun & Hown).
  by exists w'.
Qed.

End Confinement.

(** ** How [processJob] leaves a job *)

Lemma key_exists_expire key ttl st key' :
  key_exists (expire key ttl st) key' = key_exists st key'.
Proof. unfold expire. by destruct (key_exists st key). Qed.

Lemma expiring_expire_eq key ttl st :
  key_exists st key = true -> expiring (expire key ttl st) !! key = Some ttl.
Proof. intros H. unfold expire. rewrite H. simpl. by rewrite lookup_insert_eq. Qed.

Lemma expiring_expire_keep key ttl st key' :
  expiring st !! key' = Some ttl -> expiring (expire key ttl st) !! key' = Some ttl.
Proof.
  intros H. unfold expire. destruct (key_exists st key); [| done]. simpl.
  destruct (decide (key = key')) as [-> | Hne];
    [by rewrite lookup_insert_eq | by rewrite lookup_insert_ne].
Qed.

Lemma expiring_hset key values st : expiring (hset key values st) = expiring st.
Proof. reflexivity. Qed.

Lemma finish_ends_failed jobID errorMsg w :
  errorMsg <> "" ->
  exists w', run (Worker.finishJobWithError jobID errorMsg) w = Some (tt, w')
             /\ expiring (storage w') = expiring (storage w)
             /\ (forall w0, expiring (storage w) = expiring (storage w0) ->
                   ends_failed jobID w0 w').
Proof.
  intros Hmsg. eexists. split; [apply run_finishJobWithError |]. keyspace.
  split; [reflexivity |]. intros w0 Hexp. unfold ends_failed. keyspace.
  split; [apply status_data_status |]. split; [by rewrite <- Hexp |].
  exists errorMsg. split; [done |]. split.
  - unfold Storage.status_data. destruct errorMsg; [done |].
    destruct (is_empty (clock w)); cbn [is_empty]; by fields.
  - by rewrite last_snoc.
Qed.

Lemma afterScan_ends_completed jobID w :
  exists w', run (Worker.afterScan jobID None) w = Some (tt, w')
             /\ ends_completed jobID w'.
Proof.
  eexists. split; [reflexivity |]. unfold ends_completed. keyspace.
  split; [apply status_data_status |].
  intros key [-> | [-> | ->]] H; rewrite !key_exists_expire in H.
  - do 2 apply expiring_expire_keep. by apply expiring_expire_eq.
  - apply expiring_expire_keep. apply expiring_expire_eq. by rewrite key_exists_expire.
  - apply expiring_expire_eq. by rewrite !key_exists_expire.
Qed.

Lemma prefixed_nonempty (c : ascii) (prefix err : string) : String c prefix +:+ err <> "".
Proof. done. Qed.

Lemma afterScan_ends jobID scanErr w :
  exists w',
    run (Worker.afterScan jobID scanErr) w = Some (tt, w')
    /\ forall w0, expiring (storage w) = expiring (storage w0) ->
         ends_completed jobID w' \/ ends_failed jobID w0 w'.
Proof.
  destruct scanErr as [err |]; cbn [Worker.afterScan].
  - destruct (finish_ends_failed jobID ("stream error: " +:+ err) w) as (w' & Hrun & _ & H);
      [done |].
    exists w'. split; [exact Hrun |]. intros w0 H0. right. by apply H.
  - destruct (afterScan_ends_completed jobID w) as (w' & Hrun & H).
    exists w'. split; [exact Hrun |]. intros w0 _. by left.
Qed.

Section Ending.

Variable Unmarshal : string -> OllamaStreamResponse + string.

Lemma scanLoop_ends jobID lines scanErr buffered : forall finishReason w,
  exists w',
    run (Worker.scanLoop Unmarshal jobID lines scanErr buffered finishReason) w
    = Some (tt, w')
    /\ forall w0, expiring (storage w) = expiring (storage w0) ->
         ends_completed jobID w' \/ ends_failed jobID w0 w'.
Proof.
  induction lines as [| text rest IH]; intros finishReason w; cbn [Worker.scanLoop].
  - apply afterScan_ends.
  - rewrite run_bind. cbn [run Worker.isCancelled call exec].
    destruct (default false (cancelled (worker w) !! jobID)).
    { destruct (finish_ends_failed jobID "cancelled" w) as (w' & Hrun & _ & H); [done |].
      exists w'. split; [exact Hrun |]. intros w0 H0. right. by apply H. }
    destruct (is_empty (TrimSpace text) || negb (HasPrefix (TrimSpace text) "data:"));
      [apply IH |].
    destruct (is_empty _ || String.eqb _ "[DONE]"); [apply afterScan_ends |].
    destruct (Unmarshal _) as [streamResp | err].
    + rewrite run_bind. cbn [run Storage.IncrSeq call exec].
      rewrite run_bind. cbn [run Storage.AddChunk call exec].
      destruct (osr_Done streamResp).
      * match goal with |- context [run _ ?w1] =>
          destruct (afterScan_ends jobID (Worker.Err rest scanErr buffered) w1)
            as (w' & Hrun & H) end.
        exists w'. split; [exact Hrun |]. intros w0 H0. apply H. by rewrite <- H0.
      * match goal with |- context [run (Worker.scanLoop _ _ _ _ _ ?fr) ?w1] =>
          destruct (IH fr w1) as (w' & Hrun & H) end.
        exists w'. split; [exact Hrun |]. intros w0 H0. apply H. by rewrite <- H0.
    + destruct (finish_ends_failed jobID ("decode error: " +:+ err) w) as (w' & Hrun & _ & H);
        [done |].
      exists w'. split; [exact Hrun |]. intros w0 H0. right. by apply H.
Qed.

(** X7: for every state in which the job has metadata, whatever the
    backend answers and whenever the job is cancelled, [processJob]
    returns and leaves the job either completed, with a time to live of
    24 hours on each key of the job that exists, or failed, with the
    same non-empty error in the metadata and in the last chunk of the
    log, that chunk being the terminal chunk numbered by the counter,
    and with no time to live set: a failed job is never given one. *)
Theorem processJob_ends_terminal (w : World) (jobID : string) :
  hash_at (storage w) (key_meta jobID) <> ∅ ->
  exists w',
    run (Worker.processJob Unmarshal jobID) w = Some (tt, w')
    /\ (ends_completed jobID w' \/ ends_failed jobID w w').
Proof.
  intros Hmeta. unfold Worker.processJob.
  rewrite run_bind, run_GetJobMeta, read_meta_found by done.
  rewrite run_bind, run_UpdateJobStatus.
  rewrite run_bind. cbn [run call exec]. rewrite run_bind. cbn [run call exec].
  rewrite run_bind. cbn [run call exec].
  match goal with |- context [ollama ?w1 _] => set (w1' := w1) end.
  destruct (ollama w1' _) as [err | err | err | StatusCode lines scanErr buffered].
  - destruct (finish_ends_failed jobID ("marshal error: " +:+ err) w1')
      as (w' & Hrun & _ & H); [done |].
    exists w'. split; [exact Hrun |]. right. by apply H.
  - destruct (finish_ends_failed jobID ("create request error: " +:+ err) w1')
      as (w' & Hrun & _ & H); [done |].
    exists w'. split; [exact Hrun |]. right. by apply H.
  - destruct (finish_ends_failed jobID ("ollama request error: " +:+ err) w1')
      as (w' & Hrun & _ & H); [done |].
    exists w'. split; [exact Hrun |]. right. by apply H.
  - destruct (negb (StatusCode =? 200)).
    + destruct (finish_ends_failed jobID ("ollama status: " +:+ fmt_d StatusCode) w1')
        as (w' & Hrun & _ & H); [done |].
      exists w'. split; [exact Hrun |]. right. by apply H.
    + destruct (scanLoop_ends jobID lines scanErr buffered "stop" w1') as (w' & Hrun & H).
      exists w'. split; [exact Hrun |]. by apply H.
Qed.

(** X8: when the upstream call of a known job fails before the body of
    the response is read (the request cannot be built or sent, or the
    status is not 200), [processJob] appends exactly one chunk, the
    terminal chunk of the failure under the next sequence number, and
    stores the status "failed" with the error message. *)
Theorem processJob_upstream_failure (w : World) (jobID : string) (meta : JobMeta)
    (message : string) :
  Storage.read_meta (hash_at (storage w) (key_meta jobID)) = Some meta ->
  upstream_failure
    (ollama w {| or_model := jm_Model meta;
                 or_messages := default "" (hash_at (storage w) (key_meta jobID) !! "messages");
                 or_options := default "" (hash_at (storage w) (key_meta jobID) !! "options") |})
  = Some message ->
  exists w',
    run (Worker.processJob Unmarshal jobID) w = Some (tt, w')
    /\ list_at (storage w') (key_chunks jobID)
       = list_at (storage w) (key_chunks jobID)
         ++ [error_chunk (counter_at (storage w) (key_seq jobID) + 1) message]
    /\ counter_at (storage w') (key_seq jobID) = counter_at (storage w) (key_seq jobID) + 1
    /\ hash_at (storage w') (key_meta jobID) !! "status" = Some StatusFailed
    /\ hash_at (storage w') (key_meta jobID) !! "error" = Some message.
Proof.
  intros Hmeta Hfail. unfold Worker.processJob.
  rewrite run_bind, run_GetJobMeta, Hmeta.
  rewrite run_bind, run_UpdateJobStatus.
  rewrite run_bind. cbn [run call exec]. rewrite run_bind. cbn [run call exec].
  rewrite run_bind. cbn [run call exec]. keyspace.
  assert (Hm : forall field, field <> "status" ->
            set_fields (Storage.status_data StatusRunning "" "")
              (hash_at (storage w) (key_meta jobID)) !! field
            = hash_at (storage w) (key_meta jobID) !! field).
  { intros field Hf. unfold Storage.status_data. cbn [is_empty]. by fields. }
  rewrite !Hm by done.
  assert (Hend : forall w1 msg, msg <> "" ->
            exists w', run (Worker.finishJobWithError jobID msg) w1 = Some (tt, w')
              /\ list_at (storage w') (key_chunks jobID)
                 = list_at (storage w1) (key_chunks jobID)
                   ++ [error_chunk (counter_at (storage w1) (key_seq jobID) + 1) msg]
              /\ counter_at (storage w') (key_seq jobID)
                 = counter_at (storage w1) (key_seq jobID) + 1
              /\ hash_at (storage w') (key_meta jobID) !! "status" = Some StatusFailed
              /\ hash_at (storage w') (key_meta jobID) !! "error" = Some msg).
  { intros w1 msg Hmsg. eexists. split; [apply run_finishJobWithError |]. keyspace.
    split; [done |]. split; [done |]. split; [apply status_data_status |].
    unfold Storage.status_data. destruct msg; [done |].
    destruct (is_empty (clock w1)); cbn [is_empty]; by fields. }
  destruct (ollama w _) as [err | err | err | StatusCode lines scanErr buffered];
    simpl in Hfail; try (injection Hfail as <-).
  - match goal with |- context [run _ ?w1] => destruct (Hend w1 ("marshal error: " +:+ err))
      as (w' & Hrun & Hl & Hc & Hs & He) end; [done |].
    exists w'. revert Hl Hc. keyspace. done.
  - match goal with |- context [run _ ?w1] => destruct (Hend w1 ("create request error: " +:+ err))
      as (w' & Hrun & Hl & Hc & Hs & He) end; [done |].
    exists w'. revert Hl Hc. keyspace. done.
  - match goal with |- context [run _ ?w1] => destruct (Hend w1 ("ollama request error: " +:+ err))
      as (w' & Hrun & Hl & Hc & Hs & He) end; [done |].
    exists w'. revert Hl Hc. keyspace. done.
  - destruct (negb (StatusCode =? 200)); [| discriminate]. injection Hfail as <-.
    match goal with |- context [run _ ?w1] =>
      destruct (Hend w1 ("ollama status: " +:+ fmt_d StatusCode))
      as (w' & Hrun & Hl & Hc & Hs & He) end; [done |].
    exists w'. revert Hl Hc. keyspace. done.
Qed.

(** X9: a job without metadata (never created, or expired) is skipped:
    [processJob] returns at once and nothing has changed; no chunk is
    appended and the backend is not called. *)
Theorem processJob_unknown_job (w : World) (jobID : string) :
  hash_at (storage w) (key_meta jobID) = ∅ ->
  run (Worker.processJob Unmarshal jobID) w = Some (tt, w).
Proof.
  intros Hmeta. unfold Worker.processJob. by rewrite run_bind, run_GetJobMeta, Hmeta.
Qed.

End Ending.

Lemma processJob_ends_terminal_witness :
  exists w',
    run (Worker.processJob hello_unmarshal "job-a") stored_world = Some (tt, w')
    /\ (ends_completed "job-a" w' \/ ends_failed "job-a" stored_world w').
Proof.
  apply (processJob_ends_terminal hello_unmarshal stored_world "job-a").
  apply (lookup_nonempty _ "status" StatusQueued). reflexivity.
Defined.

Lemma processJob_upstream_failure_witness :
  exists w',
    run (Worker.processJob hello_unmarshal "job-a") stored_world = Some (tt, w')
    /\ list_at (storage w') (key_chunks "job-a")
       = list_at (storage stored_world) (key_chunks "job-a")
         ++ [error_chunk (counter_at (storage stored_world) (key_seq "job-a") + 1)
               "ollama request error: connection refused"]
    /\ counter_at (storage w') (key_seq "job-a")
       = counter_at (storage stored_world) (key_seq "job-a") + 1
    /\ hash_at (storage w') (key_meta "job-a") !! "status" = Some StatusFailed
    /\ hash_at (storage w') (key_meta "job-a") !! "error"
       = Some "ollama request error: connection refused".
Proof.
  apply (processJob_upstream_failure hello_unmarshal stored_world "job-a"
           {| jm_Status := StatusQueued; jm_Model := "gpt-oss:20b";
              jm_CreatedAt := "2025-01-01T00:00:00Z"; jm_CompletedAt := "";
              jm_Error := "" |}).
  - reflexivity.
  - reflexivity.
Defined.

Lemma processJob_unknown_job_witness :
  run (Worker.processJob hello_unmarshal "job-a") busy_world = Some (tt, busy_world).
Proof. apply (processJob_unknown_job hello_unmarshal busy_world "job-a"). reflexivity. Defined.

(** ** Admission, one call at a time (Worker.Enqueue, Server.CreateJob) *)

Lemma run_Enqueue_room jobID w :
  activeJobs (worker w) + Z.of_nat (length (queue (worker w))) < maxQueueSize (worker w) ->
  Z.of_nat (length (queue (worker w))) < maxQueueSize (worker w) ->
  run (Worker.Enqueue jobID) w
  = Some (None,
          with_worker (fun ws => set_counts (activeJobs ws) (queuedJobs ws + 1) ws)
            (with_worker (set_queue (queue (worker w) ++ [jobID])) w)).
Proof.
  intros Hload Hroom. unfold Worker.Enqueue. cbn -[fmt_d Z.leb Z.ltb Z.add].
  destruct (Z.leb_spec (maxQueueSize (worker w))
              (activeJobs (worker w) + Z.of_nat (length (queue (worker w))))); [lia |].
  cbn -[fmt_d Z.leb Z.ltb Z.add].
  destruct (Z.ltb_spec (Z.of_nat (length (queue (worker w)))) (maxQueueSize (worker w)));
    [reflexivity | lia].
Qed.

Lemma run_Enqueue_channel_full jobID w :
  activeJobs (worker w) + Z.of_nat (length (queue (worker w))) < maxQueueSize (worker w) ->
  maxQueueSize (worker w) <= Z.of_nat (length (queue (worker w))) ->
  run (Worker.Enqueue jobID) w = Some (Some "queue channel full", w).
Proof.
  intros Hload Hroom. unfold Worker.Enqueue. cbn -[fmt_d Z.leb Z.ltb Z.add].
  destruct (Z.leb_spec (maxQueueSize (worker w))
              (activeJobs (worker w) + Z.of_nat (length (queue (worker w))))); [lia |].
  cbn -[fmt_d Z.leb Z.ltb Z.add].
  destruct (Z.ltb_spec (Z.of_nat (length (queue (worker w)))) (maxQueueSize (worker w)));
    [lia | reflexivity].
Qed.

(** X10: [Worker.Enqueue], run with no other goroutine in between,
    never blocks.  It accepts the job exactly when the active jobs plus
    the length of the channel are below the ceiling and the channel has
    room; then the job id is the new last element of the channel and
    the counter of queued jobs has gone up by one.  Otherwise it returns
    an error and nothing has changed.  In both cases the keyspace, the
    counter of active jobs and the registry are as before. *)
Theorem Enqueue_outcome (w : World) (jobID : string) :
  exists err w',
    run (Worker.Enqueue jobID) w = Some (err, w')
    /\ storage w' = storage w
    /\ activeJobs (worker w') = activeJobs (worker w)
    /\ cancelled (worker w') = cancelled (worker w)
    /\ maxQueueSize (worker w') = maxQueueSize (worker w)
    /\ concurrency (worker w') = concurrency (worker w)
    /\ if (activeJobs (worker w) + Z.of_nat (length (queue (worker w)))
             <? maxQueueSize (worker w))
          && (Z.of_nat (length (queue (worker w))) <? maxQueueSize (worker w))
       then err = None
            /\ queue (worker w') = queue (worker w) ++ [jobID]
            /\ queuedJobs (worker w') = queuedJobs (worker w) + 1
       else err <> None /\ w' = w.
Proof.
  destruct (Z.ltb_spec (activeJobs (worker w) + Z.of_nat (length (queue (worker w))))
              (maxQueueSize (worker w))) as [Hload | Hload].
  - destruct (Z.ltb_spec (Z.of_nat (length (queue (worker w)))) (maxQueueSize (worker w)))
      as [Hroom | Hroom].
    + eexists _, _. split; [by apply run_Enqueue_room |]. by cbn.
    + eexists _, _. split; [by apply run_Enqueue_channel_full |]. by cbn.
  - eexists _, _. split; [by apply run_Enqueue_full |]. by cbn.
Qed.

Lemma run_GetStats w :
  run Worker.GetStats w
  = Some ({| Worker.st_active := activeJobs (worker w);
             Worker.st_queued := Z.of_nat (length (queue (worker w)));
             Worker.st_capacity := concurrency (worker w);
             Worker.st_max_queue := maxQueueSize (worker w) |}, w).
Proof. reflexivity. Qed.

(** X11: a decodable create-job request that arrives when the active
    jobs plus the length of the channel are below the ceiling, and is
    served with no other goroutine in between, is answered 200 with the
    job id drawn and the status "queued".  The metadata of the job then
    holds the status "queued", the model of the request and the time of
    the clock as created_at; the messages and the options are stored as
    JSON text when the request has any (the options as one object, in
    the order of their keys), and not written otherwise; the job id is
    the last element of the channel, the counter of queued jobs is one
    higher, no log and no counter has been written, and the status
    endpoint reports the job as queued. *)
Theorem CreateJob_accepted (w : World) (req : JobRequest) (jobID : string) :
  activeJobs (worker w) + Z.of_nat (length (queue (worker w))) < maxQueueSize (worker w) ->
  Z.of_nat (length (queue (worker w))) < maxQueueSize (worker w) ->
  exists w',
    run (Server.CreateJob (inl req) jobID) w
    = Some ({| resp_code := StatusOK;
               resp_body := BodyJob {| jresp_JobID := jobID;
                                       jresp_Status := StatusQueued |} |}, w')
    /\ (let old := hash_at (storage w) (key_meta jobID) in
        let new := hash_at (storage w') (key_meta jobID) in
        new !! "status" = Some StatusQueued
        /\ new !! "model" = Some (jr_Model req)
        /\ new !! "created_at" = Some (clock w)
        /\ new !! "messages"
           = (if (0 <? length (jr_Messages req))%nat
              then Some (json_array (jr_Messages req)) else old !! "messages")
        /\ new !! "options"
           = (if (0 <? size (jr_Options req))%nat
              then Some (json_object (jr_Options req)) else old !! "options"))
    /\ queue (worker w') = queue (worker w) ++ [jobID]
    /\ queuedJobs (worker w') = queuedJobs (worker w) + 1
    /\ activeJobs (worker w') = activeJobs (worker w)
    /\ lists (storage w') = lists (storage w)
    /\ counters (storage w') = counters (storage w)
    /\ exists status,
         run (Server.GetStatus jobID) w'
         = Some ({| resp_code := StatusOK; resp_body := BodyStatus status |}, w')
         /\ sr_Status status = StatusQueued /\ sr_CreatedAt status = clock w.
Proof.
  intros Hload Hroom. rewrite run_CreateJob_stored. unfold Server.enqueueJob.
  rewrite run_bind, run_Enqueue_room by done. cbn [run mret Prog_ret].
  eexists. split; [reflexivity |]. keyspace.
  destruct (stored_request_frame req jobID (clock w) (storage w)) as (Hl & Hc & _ & _).
  assert (Hfields :
    hash_at (stored_request req jobID (clock w) (storage w)) (key_meta jobID) !! "status"
    = Some StatusQueued
    /\ hash_at (stored_request req jobID (clock w) (storage w)) (key_meta jobID) !! "model"
       = Some (jr_Model req)
    /\ hash_at (stored_request req jobID (clock w) (storage w)) (key_meta jobID)
         !! "created_at" = Some (clock w)
    /\ hash_at (stored_request req jobID (clock w) (storage w)) (key_meta jobID)
         !! "messages"
       = (if (0 <? length (jr_Messages req))%nat
          then Some (json_array (jr_Messages req))
          else hash_at (storage w) (key_meta jobID) !! "messages")
    /\ hash_at (stored_request req jobID (clock w) (storage w)) (key_meta jobID)
         !! "options"
       = (if (0 <? size (jr_Options req))%nat
          then Some (json_object (jr_Options req))
          else hash_at (storage w) (key_meta jobID) !! "options")).
  { rewrite !stored_request_lookup. cbn [String.eqb Ascii.eqb Bool.eqb andb].
    repeat split;
      by destruct (0 <? length (jr_Messages req))%nat, (0 <? size (jr_Options req))%nat. }
  split; [exact Hfields |].
  split; [reflexivity |]. split; [reflexivity |]. split; [reflexivity |].
  split; [exact Hl |]. split; [exact Hc |].
  destruct Hfields as (Hs & _ & Hcr & _).
  unfold Server.GetStatus. rewrite run_bind, run_GetJobMeta. keyspace.
  rewrite read_meta_found by (by eapply lookup_nonempty).
  eexists. split; [reflexivity |].
  cbn [sr_Status sr_CreatedAt jm_Status jm_CreatedAt]. by rewrite Hs, Hcr.
Qed.

Lemma CreateJob_accepted_witness :
  json_object (jr_Options tuned_request)
  = "{" +:+ dquote +:+ "num_predict" +:+ dquote +:+ ":64,"
        +:+ dquote +:+ "temperature" +:+ dquote +:+ ":0.7}"
  /\ exists w',
    run (Server.CreateJob (inl tuned_request) "job-a") idle_world
    = Some ({| resp_code := StatusOK;
               resp_body := BodyJob {| jresp_JobID := "job-a";
                                       jresp_Status := StatusQueued |} |}, w')
    /\ hash_at (storage w') (key_meta "job-a") !! "options"
       = Some (json_object (jr_Options tuned_request))
    /\ queue (worker w') = ["job-a"].
Proof.
  split; [vm_compute; reflexivity |].
  destruct (CreateJob_accepted idle_world tuned_request "job-a")
    as (w' & Hrun & (_ & _ & _ & _ & Ho) & Hq & _); [vm_compute; reflexivity .. |].
  exists w'. split; [exact Hrun |]. split; [exact Ho | exact Hq].
Defined.

(** ** Cancelling, and one turn of an executor *)

Lemma hset_idem key (a b : string * string) st :
  hset key [a; b] (hset key [a; b] st) = hset key [a; b] st.
Proof.
  unfold hset. cbn [hashes lists counters expiring]. f_equal.
  rewrite insert_insert_eq. f_equal.
  unfold hash_at. cbn [hashes]. rewrite lookup_insert_eq. cbn [default]. unfold id.
  unfold set_fields. cbn [foldl]. apply map_eq. intros field.
  destruct (decide (fst b = field)) as [<- | Hb]; [by rewrite !lookup_insert_eq |].
  destruct (decide (fst a = field)) as [<- | Ha].
  - rewrite !(lookup_insert_ne _ (fst b)) by done. by rewrite !lookup_insert_eq.
  - by rewrite !lookup_insert_ne by done.
Qed.

Lemma hset_idem_one key (a : string * string) st :
  hset key [a] (hset key [a] st) = hset key [a] st.
Proof.
  unfold hset. cbn [hashes lists counters expiring]. f_equal.
  rewrite insert_insert_eq. f_equal.
  unfold hash_at. cbn [hashes]. rewrite lookup_insert_eq. cbn [default]. unfold id.
  unfold set_fields. cbn [foldl]. by rewrite insert_insert_eq.
Qed.

(** X12: for every state and every job id, known or not, the cancel
    endpoint answers 200; it enters the job in the cancellation registry
    and writes the status "cancelled" and the completion time, and that
    is all it does: the job stays in the channel if it is there, the
    counters, every log, every sequence counter and every time to live
    are as before, as are the other fields of the job (model,
    created_at, error, messages, options) and every other job.
    [isCancelled] answers true afterwards, and a second cancel at the
    same time of the clock changes nothing more. *)
Theorem CancelJob_effect (w : World) (jobID : string) :
  exists w',
    run (Server.CancelJob jobID) w
    = Some ({| resp_code := StatusOK; resp_body := BodyEmpty |}, w')
    /\ cancelled (worker w') = <[jobID := true]> (cancelled (worker w))
    /\ queue (worker w') = queue (worker w)
    /\ activeJobs (worker w') = activeJobs (worker w)
    /\ queuedJobs (worker w') = queuedJobs (worker w)
    /\ lists (storage w') = lists (storage w)
    /\ counters (storage w') = counters (storage w)
    /\ expiring (storage w') = expiring (storage w)
    /\ (forall other, other <> jobID ->
          hash_at (storage w') (key_meta other) = hash_at (storage w) (key_meta other))
    /\ (forall field, field <> "status" -> field <> "completed_at" ->
          hash_at (storage w') (key_meta jobID) !! field
          = hash_at (storage w) (key_meta jobID) !! field)
    /\ run (Worker.isCancelled jobID) w' = Some (true, w')
    /\ run (Server.CancelJob jobID) w'
       = Some ({| resp_code := StatusOK; resp_body := BodyEmpty |}, w').
Proof.
  eexists. split; [reflexivity |]. keyspace.
  do 7 (split; [reflexivity |]).
  split; [| split; [| split]].
  - intros other Hne. apply hash_at_hset_ne. intros H. by apply key_meta_inj in H.
  - intros field H1 H2. unfold Storage.status_data. cbn [is_empty].
    destruct (is_empty (clock w)); cbn zeta; by fields.
  - cbn [run Worker.isCancelled call exec]. unfold with_storage, with_worker, set_cancelled.
    cbn [worker cancelled]. by rewrite lookup_insert_eq.
  - cbn [run Server.CancelJob Worker.Cancel Storage.UpdateJobStatus mbind Prog_bind bind
           call exec mret Prog_ret clock with_storage with_worker worker storage].
    do 2 f_equal. unfold with_storage, with_worker. cbn [storage worker clock ollama]. f_equal.
    + unfold Storage.status_data. cbn [is_empty].
      destruct (is_empty (clock w)); cbn zeta; cbn [app];
        [apply hset_idem_one | apply hset_idem].
    + unfold set_cancelled.
      cbn [concurrency maxQueueSize queue cancelled activeJobs queuedJobs].
      by rewrite insert_insert_eq.
Qed.

Section Turn.

Variable Unmarshal : string -> OllamaStreamResponse + string.

(** X13: one turn of the loop of [Worker.run], with no other goroutine
    in between.  On an empty channel the executor waits.  Otherwise it
    takes the first job id off the channel and returns from the turn,
    whatever the job and the backend do: the rest of the channel is
    as it was, the counter of active jobs is back at its value, the
    counter of queued jobs is one lower, the registry is as before, and
    only keys of that job have been written. *)
Theorem run_iteration_turn (w : World) :
  match queue (worker w) with
  | [] => run (Worker.run_iteration Unmarshal) w = None
  | jobID :: rest =>
      exists w',
        run (Worker.run_iteration Unmarshal) w = Some (tt, w')
        /\ queue (worker w') = rest
        /\ activeJobs (worker w') = activeJobs (worker w)
        /\ queuedJobs (worker w') = queuedJobs (worker w) - 1
        /\ cancelled (worker w') = cancelled (worker w)
        /\ concurrency (worker w') = concurrency (worker w)
        /\ maxQueueSize (worker w') = maxQueueSize (worker w)
        /\ forall key, ~ key_of jobID key ->
             hashes (storage w') !! key = hashes (storage w) !! key
             /\ lists (storage w') !! key = lists (storage w) !! key
             /\ counters (storage w') !! key = counters (storage w) !! key
             /\ expiring (storage w') !! key = expiring (storage w) !! key
  end.
Proof.
  unfold Worker.run_iteration. rewrite run_bind. cbn [run call exec].
  destruct (queue (worker w)) as [| jobID rest] eqn:Hq; [reflexivity |].
  rewrite run_bind. cbn [run call exec]. rewrite run_bind.
  match goal with |- context [run (Worker.processJob _ _) ?w2] =>
    destruct (run_Confined jobID _ w2 (Confined_processJob Unmarshal jobID))
      as ([] & w3 & Hrun & Hw & _ & _ & Hkeys & _) end.
  rewrite Hrun. eexists. split; [reflexivity |].
  cbn [worker with_worker set_counts queue activeJobs queuedJobs cancelled concurrency
         maxQueueSize storage with_storage].
  rewrite Hw.
  cbn [worker with_worker set_counts set_queue queue activeJobs queuedJobs cancelled
         concurrency maxQueueSize].
  split; [reflexivity |]. split; [lia |]. split; [reflexivity |].
  split; [reflexivity |]. split; [reflexivity |]. split; [reflexivity |].
  exact Hkeys.
Qed.

End Turn.

(** ** Invariants of the Worker process *)

Section Invariants.

Variable Unmarshal : string -> OllamaStreamResponse + string.

Lemma reachable_invariant (P : System -> Prop) (N : nat) :
  (started N -> forall backend t0, P (boot Unmarshal N backend t0)) ->
  (forall a s s', P s -> sys_step Unmarshal a s = Some s' -> P s') ->
  forall s, reachable Unmarshal N s -> P s.
Proof.
  intros Hboot Hstep s (backend & t0 & acts & Hst & Hrun).
  revert Hrun. generalize (Hboot Hst backend t0). generalize (boot Unmarshal N backend t0).
  induction acts as [| a acts IH]; intros s0 H0 Hrun; simpl in Hrun.
  - by injection Hrun as <-.
  - destruct (sys_step Unmarshal a s0) as [s1 |] eqn:Hs; [| discriminate].
    apply (IH s1); [by eapply Hstep | exact Hrun].
Qed.

(** A step of a goroutine is a command of its code, or the start of
    the next turn of an executor. *)
Lemma thread_step_inv (t t' : Thread) (w w' : World) :
  thread_step Unmarshal t w = Some (t', w') ->
  (exists X (c : Cmd X) x, exec c w = Some (x, w')
     /\ ((exists k, t = Handler (Vis c k) /\ t' = Handler (k x))
         \/ (exists k, t = Executor (Vis c k) /\ t' = Executor (k x))))
  \/ (exists r, t = Executor (Ret r) /\ t' = Executor (Worker.run_iteration Unmarshal)
                /\ w' = w).
Proof.
  destruct t as [[r | X c k] | [r | X c k]]; simpl; intros H; try discriminate.
  - destruct (exec c w) as [[x w1] |] eqn:Hex; [| discriminate]. injection H as <- <-.
    left. exists X, c, x. split; [done |]. left. by exists k.
  - injection H as <- <-. right. by exists r.
  - destruct (exec c w) as [[x w1] |] eqn:Hex; [| discriminate]. injection H as <- <-.
    left. exists X, c, x. split; [done |]. right. by exists k.
Qed.

(** *** The configuration and the channel *)

Lemma exec_capacity {X} (c : Cmd X) (w w' : World) (x : X) :
  exec c w = Some (x, w') ->
  concurrency (worker w') = concurrency (worker w)
  /\ maxQueueSize (worker w') = maxQueueSize (worker w)
  /\ (Z.of_nat (length (queue (worker w))) <= maxQueueSize (worker w) ->
      Z.of_nat (length (queue (worker w'))) <= maxQueueSize (worker w)).
Proof.
  destruct c; simpl; try (intros [= <- <-]; done).
  - destruct (Z.ltb_spec (Z.of_nat (length (queue (worker w)))) (maxQueueSize (worker w)));
      intros [= <- <-]; [| done].
    repeat split. simpl. rewrite length_app. simpl. lia.
  - destruct (queue (worker w)) as [| jobID rest]; [discriminate |].
    intros [= <- <-]. repeat split. simpl. lia.
Qed.

Lemma sys_step_capacity (a : Action) (s s' : System) :
  sys_step Unmarshal a s = Some s' ->
  concurrency (worker (world s')) = concurrency (worker (world s))
  /\ maxQueueSize (worker (world s')) = maxQueueSize (worker (world s))
  /\ (Z.of_nat (length (queue (worker (world s)))) <= maxQueueSize (worker (world s)) ->
      Z.of_nat (length (queue (worker (world s')))) <= maxQueueSize (worker (world s))).
Proof.
  intros Hstep. destruct a as [r | i | t | key]; simpl in Hstep.
  - destruct (admissible r (issued s)); [| discriminate]. by injection Hstep as <-.
  - destruct (threads s !! i) as [t |]; [| discriminate].
    destruct (thread_step Unmarshal t (world s)) as [[t' w'] |] eqn:Ht; [| discriminate].
    injection Hstep as <-. simpl.
    apply thread_step_inv in Ht as [(X & c & x & Hex & _) | (r & _ & _ & ->)]; [| done].
    by eapply exec_capacity.
  - by injection Hstep as <-.
  - case_bool_decide; [| discriminate]. by injection Hstep as <-.
Qed.

Lemma sys_run_capacity (acts : list Action) : forall s s',
  sys_run Unmarshal acts s = Some s' ->
  concurrency (worker (world s')) = concurrency (worker (world s))
  /\ maxQueueSize (worker (world s')) = maxQueueSize (worker (world s))
  /\ (Z.of_nat (length (queue (worker (world s)))) <= maxQueueSize (worker (world s)) ->
      Z.of_nat (length (queue (worker (world s')))) <= maxQueueSize (worker (world s))).
Proof.
  induction acts as [| a acts IH]; intros s s' Hrun; simpl in Hrun.
  - by injection Hrun as <-.
  - destruct (sys_step Unmarshal a s) as [s1 |] eqn:Hs; [| discriminate].
    destruct (sys_step_capacity _ _ _ Hs) as (Hc & Hm & Hq).
    destruct (IH _ _ Hrun) as (Hc' & Hm' & Hq').
    rewrite Hc', Hm', Hc, Hm. repeat split. intros H. rewrite <- Hm. apply Hq'.
    rewrite Hm. by apply Hq.
Qed.

Lemma reachable_capacity (N : nat) (s : System) :
  reachable Unmarshal N s ->
  concurrency (worker (world s)) = Z.of_nat N
  /\ maxQueueSize (worker (world s)) = Z.of_nat N * 2
  /\ Z.of_nat (length (queue (worker (world s)))) <= Z.of_nat N * 2.
Proof.
  intros (backend & t0 & acts & Hst & Hrun).
  destruct (sys_run_capacity _ _ _ Hrun) as (Hc & Hm & Hq).
  pose proof (started_ceiling N Hst) as Hceil.
  cbn [boot world worker] in Hc, Hm, Hq. rewrite Hc, Hm, Hceil.
  split; [reflexivity |]. split; [lia |].
  rewrite Hceil in Hq. cbn [NewWorker queue length] in Hq. lia.
Qed.

(** X14: in every state the Worker can reach with the concurrency N,
    the stats endpoint answers 200 and reports the capacity N, the
    ceiling 2N, a number of active jobs between 0 and N and a number of
    queued jobs, the length of the channel, between 0 and 2N; the
    configuration is never changed and the channel never holds more
    than 2N job ids. *)
Theorem GetWorkerStats_within_bounds (N : nat) (s : System) :
  reachable Unmarshal N s ->
  exists stats,
    run Server.GetWorkerStats (world s)
    = Some ({| resp_code := StatusOK; resp_body := BodyStats stats |}, world s)
    /\ Worker.st_capacity stats = Z.of_nat N
    /\ Worker.st_max_queue stats = 2 * Z.of_nat N
    /\ 0 <= Worker.st_active stats <= Z.of_nat N
    /\ 0 <= Worker.st_queued stats <= 2 * Z.of_nat N.
Proof.
  intros Hreach. eexists. split; [reflexivity |]. simpl.
  destruct (reachable_capacity N s Hreach) as (Hc & Hm & Hq).
  pose proof (active_within_concurrency Unmarshal N s Hreach).
  repeat split; lia.
Qed.

(** *** The cancellation registry *)

Lemma exec_cancelled {X} (c : Cmd X) (w w' : World) (x : X) (jobID : string) :
  exec c w = Some (x, w') ->
  cancelled (worker w) !! jobID = Some true -> cancelled (worker w') !! jobID = Some true.
Proof.
  destruct c; simpl; try (intros [= <- <-]; done).
  - destruct (_ <? _); intros [= <- <-]; done.
  - destruct (queue (worker w)); [discriminate |]. intros [= <- <-]. done.
  - intros [= <- <-] H. simpl.
    destruct (decide (jobID0 = jobID)) as [-> | Hne];
      [by rewrite lookup_insert_eq | by rewrite lookup_insert_ne].
Qed.

Lemma sys_step_cancelled (a : Action) (s s' : System) (jobID : string) :
  sys_step Unmarshal a s = Some s' ->
  cancelled (worker (world s)) !! jobID = Some true ->
  cancelled (worker (world s')) !! jobID = Some true.
Proof.
  intros Hstep. destruct a as [r | i | t | key]; simpl in Hstep.
  - destruct (admissible r (issued s)); [| discriminate]. by injection Hstep as <-.
  - destruct (threads s !! i) as [t |]; [| discriminate].
    destruct (thread_step Unmarshal t (world s)) as [[t' w'] |] eqn:Ht; [| discriminate].
    injection Hstep as <-. simpl.
    apply thread_step_inv in Ht as [(X & c & x & Hex & _) | (r & _ & _ & ->)]; [| done].
    by eapply exec_cancelled.
  - by injection Hstep as <-.
  - case_bool_decide; [| discriminate]. by injection Hstep as <-.
Qed.

(** X15: a cancellation is never taken back.  Once a job id is in the
    registry it is there in every later state, whatever the handlers
    and the executors do, and [isCancelled] answers true: no code path
    removes an entry, not even when the job has ended or expired. *)
Theorem cancel_is_permanent (acts : list Action) (s s' : System) (jobID : string) :
  sys_run Unmarshal acts s = Some s' ->
  cancelled (worker (world s)) !! jobID = Some true ->
  cancelled (worker (world s')) !! jobID = Some true
  /\ run (Worker.isCancelled jobID) (world s') = Some (true, world s').
Proof.
  intros Hrun Hc.
  assert (H : cancelled (worker (world s')) !! jobID = Some true).
  { revert s Hrun Hc. induction acts as [| a acts IH]; intros s Hrun Hc; simpl in Hrun.
    - by injection Hrun as <-.
    - destruct (sys_step Unmarshal a s) as [s1 |] eqn:Hs; [| discriminate].
      apply (IH s1 Hrun). by eapply sys_step_cancelled. }
  split; [exact H |]. cbn [run Worker.isCancelled call exec]. by rewrite H.
Qed.

End Invariants.

Lemma GetWorkerStats_within_bounds_witness :
  exists s, S1_queued = Some s
    /\ exists stats,
         run Server.GetWorkerStats (world s)
         = Some ({| resp_code := StatusOK; resp_body := BodyStats stats |}, world s)
         /\ Worker.st_capacity stats = Z.of_nat 1
         /\ Worker.st_max_queue stats = 2 * Z.of_nat 1
         /\ 0 <= Worker.st_active stats <= Z.of_nat 1
         /\ 0 <= Worker.st_queued stats <= 2 * Z.of_nat 1.
Proof.
  destruct S1_queued as [s |] eqn:E.
  - exists s. split; [reflexivity |].
    apply (GetWorkerStats_within_bounds hello_unmarshal 1 s).
    eexists _, _, _. split; [apply started_one | exact E].
  - no_run E.
Defined.

Lemma cancel_is_permanent_witness :
  exists s s', S4_cancelled = Some s /\ S4_finished = Some s'
    /\ cancelled (worker (world s')) !! "job-a" = Some true
    /\ run (Worker.isCancelled "job-a") (world s') = Some (true, world s').
Proof.
  destruct S4_cancelled as [s |] eqn:E; [| no_run E].
  destruct S4_finished as [s' |] eqn:F; [| no_run F].
  exists s, s'. split; [reflexivity |]. split; [reflexivity |].
  apply (cancel_is_permanent hello_unmarshal (replicate 6 (Step 0%nat)) s s' "job-a").
  - unfold S4_finished in F. by rewrite E in F.
  - replace (world s) with (world_of S4_cancelled) by (by rewrite E).
    vm_compute. reflexivity.
Defined.

(** *** The chunks of a log *)

Lemma Appends_bind {A B} (P : ChunkData -> Prop) (p : Prog A) (f : A -> Prog B) :
  Appends P p -> (forall a, Appends P (f a)) -> Appends P (p ≫= f).
Proof.
  intros Hp Hf. induction p as [a | X c k IH]; [apply Hf |].
  destruct Hp as [Hc Hk]. split; [exact Hc |]. intros x. by apply IH.
Qed.

(** A handler appends nothing. *)
Lemma handler_Appends {R} (P : ChunkData -> Prop) (p : Prog R) : forall g Q,
  handler_ghost g -> Safe g p Q -> Appends P p.
Proof.
  induction p as [r | X c k IH]; intros g Q Hg Hsafe; [exact I |].
  destruct Hsafe as [Hal Hk]. split.
  - destruct c; try exact I. destruct Hal as (jobID & b & -> & _). destruct Hg.
  - intros x. apply (IH x (next g c x) Q); [by apply handler_ghost_next | apply Hk].
Qed.

Lemma translated_well_formed Unmarshal chunk : translated Unmarshal chunk -> well_formed chunk.
Proof.
  intros [(payload & r & _ & ->) | (errorMsg & ->)]; unfold well_formed; simpl.
  - destruct (osr_Done r); [destruct (String.eqb (osr_DoneReason r) "length") |];
      repeat split; try done; auto.
  - repeat split; try done; auto.
Qed.

Lemma exec_lists {X} (c : Cmd X) (w w' : World) (x : X) :
  exec c w = Some (x, w') ->
  match c with
  | RPush key item =>
      list_at (storage w') key = list_at (storage w) key ++ [item]
      /\ forall key', key <> key' -> list_at (storage w') key' = list_at (storage w) key'
  | _ => forall key, list_at (storage w') key = list_at (storage w) key
  end.
Proof.
  destruct c; simpl; try (intros [= <- <-]; intros; by keyspace).
  - intros [= <- <-]. split; [by keyspace |]. intros key' Hne. keyspace.
    by apply list_at_rpush_ne.
  - destruct (_ <? _); intros [= <- <-]; done.
  - destruct (queue (worker w)); [discriminate |]. intros [= <- <-]. done.
Qed.

Section Chunks.

Variable Unmarshal : string -> OllamaStreamResponse + string.

Lemma Appends_run_iteration :
  Appends (translated Unmarshal) (Worker.run_iteration Unmarshal).
Proof.
  split; [exact I |]. intros jobID. split; [exact I |]. intros [].
  cbn [mbind mret Prog_bind Prog_ret bind call].
  apply (Appends_bind _ (Worker.processJob Unmarshal jobID)); [apply Appends_processJob |].
  intros []. split; [exact I |]. by intros [].
Qed.

Lemma reachable_translated (N : nat) (s : System) :
  reachable Unmarshal N s ->
  Forall (thread_appends (translated Unmarshal)) (threads s)
  /\ forall key, Forall (translated Unmarshal) (list_at (storage (world s)) key).
Proof.
  revert s. apply reachable_invariant.
  - intros _ backend t0. simpl. split; [| by intros key].
    apply Forall_replicate. apply Appends_run_iteration.
  - intros a s s' (Hthreads & Hlogs) Hstep.
    destruct a as [r | i | t | key]; simpl in Hstep.
    + destruct (admissible r (issued s)); [| discriminate]. injection Hstep as <-. simpl.
      split; [| done]. apply Forall_app. split; [done |]. constructor; [| constructor].
      apply (handler_Appends _ _ (start_ghost r) (fun _ _ => True));
        [apply handler_ghost_start | apply Safe_handler].
    + destruct (threads s !! i) as [t |] eqn:Hi; [| discriminate].
      destruct (thread_step Unmarshal t (world s)) as [[t' w'] |] eqn:Ht; [| discriminate].
      injection Hstep as <-. simpl.
      pose proof (proj1 (Forall_lookup _ _) Hthreads i t Hi) as Happ.
      apply thread_step_inv in Ht
        as [(X & c & x & Hex & Hshape) | (r & -> & -> & ->)].
      * assert (Hc : match c with RPush _ item => translated Unmarshal item | _ => True end
                     /\ thread_appends (translated Unmarshal) t').
        { destruct Hshape as [(k & -> & ->) | (k & -> & ->)]; destruct Happ as [Hc Hk];
            (split; [exact Hc | apply Hk]). }
        destruct Hc as [Hc Ht']. split; [by apply Forall_insert |].
        pose proof (exec_lists _ _ _ _ Hex) as Hl. intros key'.
        destruct c; try (rewrite Hl; apply Hlogs).
        destruct Hl as [Hl Hne]. destruct (decide (key = key')) as [<- | Hk].
        -- rewrite Hl. apply Forall_app. split; [apply Hlogs |]. by constructor.
        -- rewrite Hne by done. apply Hlogs.
      * split; [| done]. apply Forall_insert; [done |]. apply Appends_run_iteration.
    + by injection Hstep as <-.
    + case_bool_decide; [| discriminate]. injection Hstep as <-. simpl.
      split; [done |]. intros key'. rewrite list_at_remove. by case_decide.
Qed.

(** X16: in every state the Worker can reach, every chunk of every log
    is well formed: it carries a finish reason exactly when it is done;
    the finish reason is "stop", "length" or "error"; a chunk with the
    finish reason "error" has an empty delta; and a chunk that carries
    an error has the finish reason "error" (and so is done). *)
Theorem log_chunks_well_formed (N : nat) (s : System) (jobID : string) (chunk : ChunkData) :
  reachable Unmarshal N s ->
  chunk ∈ list_at (storage (world s)) (key_chunks jobID) ->
  well_formed chunk.
Proof.
  intros Hreach Hin. destruct (reachable_translated N s Hreach) as [_ Hlogs].
  apply (translated_well_formed Unmarshal).
  by eapply (proj1 (Forall_forall _ _) (Hlogs (key_chunks jobID))).
Qed.

End Chunks.

Lemma log_chunks_well_formed_witness :
  exists s, S1_completed = Some s /\ well_formed (hello_chunk 3).
Proof.
  destruct S1_completed as [s |] eqn:E.
  - exists s. split; [reflexivity |].
    apply (log_chunks_well_formed hello_unmarshal 1 s "job-a" (hello_chunk 3)).
    + eexists _, _, _. split; [apply started_one | exact E].
    + replace (world s) with (world_of S1_completed) by (by rewrite E).
      apply (list_elem_of_lookup_2 _ 2%nat). vm_compute. reflexivity.
  - no_run E.
Defined.

(** *** The done chunk of a log *)

Lemma Seals_bind {A B} (p : Prog A) (f : A -> Prog B) : forall sealed,
  Seals sealed p -> (forall a sealed', Seals sealed' (f a)) -> Seals sealed (p ≫= f).
Proof.
  induction p as [a | X c k IH]; intros sealed Hp Hf; [apply Hf |].
  destruct Hp as [Hc Hk]. split; [exact Hc |]. intros x. by apply IH.
Qed.

(** A handler appends nothing. *)
Lemma handler_Seals {R} (p : Prog R) : forall g Q sealed,
  handler_ghost g -> Safe g p Q -> Seals sealed p.
Proof.
  induction p as [r | X c k IH]; intros g Q sealed Hg Hsafe; [exact I |].
  destruct Hsafe as [Hal Hk]. split.
  - destruct c; try exact I. destruct Hal as (jobID & b & -> & _). destruct Hg.
  - intros x. apply (IH x (next g c x) Q); [by apply handler_ghost_next | apply Hk].
Qed.

Lemma Seals_finishJobWithError jobID errorMsg seal :
  errorMsg <> "" -> seal <> Closed ->
  Seals seal (Worker.finishJobWithError jobID errorMsg).
Proof.
  intros Hmsg Hseal. split; [done |]. intros seq. split.
  - by destruct seal.
  - intros []. split; [done |]. intros now. split; [done |]. by intros [].
Qed.

Lemma Seals_afterScan jobID scanErr seal :
  seal <> Closed -> Seals seal (Worker.afterScan jobID scanErr).
Proof.
  intros Hseal. destruct scanErr as [err |]; [by apply Seals_finishJobWithError |].
  repeat (split; [done |]; intros ?). done.
Qed.

Lemma done_ends_nil : done_ends [].
Proof. intros i chunk H. by rewrite lookup_nil in H. Qed.

Lemma done_ends_snoc (log : list ChunkData) (item : ChunkData) :
  Forall (fun chunk => Done chunk = false) log -> done_ends (log ++ [item]).
Proof.
  intros Hlog i chunk Hi Hdone. left. rewrite length_app. simpl.
  apply lookup_app_Some in Hi as [Hi | [Hge Hi]].
  - pose proof (proj1 (Forall_lookup _ _) Hlog i chunk Hi) as H. simpl in H. congruence.
  - apply list_lookup_singleton_Some in Hi as [Hz _]. lia.
Qed.

Lemma done_ends_failure (before : list ChunkData) (final item : ChunkData) :
  Forall (fun chunk => Done chunk = false) before ->
  Error final = "" -> Error item <> "" ->
  done_ends ((before ++ [final]) ++ [item]).
Proof.
  intros Hlog Hfinal Hitem i chunk Hi Hdone. rewrite !length_app. simpl.
  apply lookup_app_Some in Hi as [Hi | [Hge Hi]].
  - apply lookup_app_Some in Hi as [Hi | [Hge Hi]].
    + pose proof (proj1 (Forall_lookup _ _) Hlog i chunk Hi) as H. simpl in H. congruence.
    + apply list_lookup_singleton_Some in Hi as [Hz <-]. right.
      split; [exact Hfinal |]. split; [lia |]. exists item. split; [| exact Hitem].
      replace (S i) with (length (before ++ [final]) + 0)%nat
        by (rewrite length_app; simpl; lia).
      by rewrite lookup_app_r, Nat.add_comm, Nat.add_sub by lia.
  - apply list_lookup_singleton_Some in Hi as [Hz _]. left.
    rewrite length_app in Hz, Hge. simpl in Hz, Hge. lia.
Qed.

(** The position after a command that is neither an append nor a
    receive holds a job only if the position before did. *)
Lemma next_holds {X} (c : Cmd X) (g : Ghost) (x : X) jobID pending b :
  allowed g c ->
  next g c x = GHolds jobID pending b ->
  match c with
  | RPush key item => key = key_chunks jobID /\ exists pending' b', g = GHolds jobID pending' b'
  | Receive => True
  | _ => exists pending' b', g = GHolds jobID pending' b'
  end.
Proof.
  destruct c; simpl; intros Hal Hn; try (subst g; eauto; fail); try exact I.
  - destruct Hal as (id & b0 & -> & ->). injection Hn as -> _ _. eauto.
  - destruct Hal as (id & b0 & -> & _). injection Hn as -> _ _. eauto.
  - destruct Hal as (id & b0 & [-> | ->] & _); discriminate.
  - subst g. discriminate.
  - destruct Hal as (id & ->). injection Hn as -> _ _. eauto.
  - destruct Hal as (id & [-> | ->]); [| discriminate]. injection Hn as -> _ _. eauto.
Qed.

Section DoneChunk.

Variable Unmarshal : string -> OllamaStreamResponse + string.

Lemma Seals_scanLoop jobID lines scanErr buffered : forall finishReason,
  Seals Open (Worker.scanLoop Unmarshal jobID lines scanErr buffered finishReason).
Proof.
  induction lines as [| text rest IH]; intros finishReason; cbn [Worker.scanLoop].
  - by apply Seals_afterScan.
  - split; [done |]. intros c. cbn [seal_next mbind mret Prog_bind Prog_ret bind call].
    destruct c; [by apply Seals_finishJobWithError |].
    destruct (is_empty (TrimSpace text) || negb (HasPrefix (TrimSpace text) "data:"));
      [apply IH |].
    destruct (is_empty _ || String.eqb _ "[DONE]"); [by apply Seals_afterScan |].
    destruct (Unmarshal _) as [streamResp | err]; [| by apply Seals_finishJobWithError].
    destruct (osr_Done streamResp) eqn:Hdone.
    + split; [done |]. intros seq. split; [done |]. intros [].
      cbn [seal_next Error Done is_empty negb]. by apply Seals_afterScan.
    + split; [done |]. intros seq. split; [done |]. intros [].
      cbn [seal_next Error Done is_empty negb]. apply IH.
Qed.

Lemma Seals_processJob jobID : Seals Open (Worker.processJob Unmarshal jobID).
Proof.
  split; [done |]. intros result. cbn [seal_next mbind mret Prog_bind Prog_ret bind call].
  destruct (Storage.read_meta result) as [meta |]; [| done].
  split; [done |]. intros []. split; [done |]. intros messages.
  split; [done |]. intros options. split; [done |]. intros resp.
  cbn [seal_next].
  destruct resp as [err | err | err | StatusCode lines scanErr buffered];
    try (by apply Seals_finishJobWithError).
  destruct (negb (StatusCode =? 200)); [by apply Seals_finishJobWithError |].
  apply Seals_scanLoop.
Qed.

Lemma Seals_run_iteration seal : Seals seal (Worker.run_iteration Unmarshal).
Proof.
  split; [done |]. intros jobID. split; [done |]. intros [].
  cbn [seal_next mbind mret Prog_bind Prog_ret bind call].
  apply (Seals_bind (Worker.processJob Unmarshal jobID)); [apply Seals_processJob |].
  intros [] seal'. split; [done |]. by intros [].
Qed.

(** A step of a goroutine, with the position it leads to. *)
Lemma thread_step_ghost (t t' : Thread) (g : Ghost) (ghosts : list Ghost) (i : nat)
    (w w' : World) (used : gset string) :
  ghosts !! i = Some g -> thread_safe g t ->
  thread_step Unmarshal t w = Some (t', w') ->
  Coherent ghosts (queue (worker w)) used (storage w) ->
  activeJobs (worker w) = tally ghosts ->
  exists g', thread_safe g' t'
    /\ Coherent (<[i := g']> ghosts) (queue (worker w')) used (storage w')
    /\ activeJobs (worker w') = tally (<[i := g']> ghosts)
    /\ ((exists X (c : Cmd X) x, exec c w = Some (x, w') /\ allowed g c /\ g' = next g c x
           /\ ((exists k, t = Handler (Vis c k) /\ t' = Handler (k x))
               \/ (exists k, t = Executor (Vis c k) /\ t' = Executor (k x))))
        \/ (g' = GIdle /\ w' = w /\ t' = Executor (Worker.run_iteration Unmarshal))).
Proof.
  intros Hi Hsafe Hstep Hcoh Hact.
  destruct t as [[r | X c k] | [r | X c k]]; simpl in Hstep, Hsafe.
  - discriminate.
  - destruct (exec c w) as [[x w1] |] eqn:Hex; [| discriminate].
    injection Hstep as <- <-. destruct Hsafe as [Hh [Hal Hk]].
    exists (next g c x). split; [| split; [| split]].
    + split; [by apply handler_ghost_next | apply Hk].
    + by eapply command_coherent.
    + by eapply command_tally.
    + left. exists X, c, x. repeat split; try done. left. by exists k.
  - injection Hstep as <- <-. exists GIdle.
    split; [apply Safe_run_iteration |]. split; [| split].
    + apply (Coherent_update _ _ _ _ _ g); [done | by left | done | done | done].
    + rewrite (tally_insert _ _ _ _ Hi), Hsafe. simpl. lia.
    + by right.
  - destruct (exec c w) as [[x w1] |] eqn:Hex; [| discriminate].
    injection Hstep as <- <-. destruct Hsafe as [Hal Hk].
    exists (next g c x). split; [apply Hk |]. split; [| split].
    + by eapply command_coherent.
    + by eapply command_tally.
    + left. exists X, c, x. repeat split; try done. right. by exists k.
Qed.

Lemma sys_step_Sealed (a : Action) (s s' : System) (ghosts : list Ghost)
    (seals : list Seal) :
  Inv s ghosts -> Sealed s ghosts seals -> sys_step Unmarshal a s = Some s' ->
  exists ghosts' seals', Inv s' ghosts' /\ Sealed s' ghosts' seals'.
Proof.
  intros (Hsafe & Hcoh & Hact) (Hseals & Hopen & Hlast) Hstep.
  destruct a as [r | i | t | key]; simpl in Hstep.
  - (* a request arrives *)
    destruct (admissible r (issued s)) eqn:Hadm; [| discriminate].
    injection Hstep as <-. exists (ghosts ++ [start_ghost r]), (seals ++ [Open]).
    split; [split; [| split] | split; [| split]]; simpl.
    + apply Forall2_app; [done |]. constructor; [| constructor].
      split; [apply handler_ghost_start | apply Safe_handler].
    + by apply Coherent_arrive.
    + rewrite tally_app, Hact. destruct r; simpl; lia.
    + apply Forall2_app; [done |]. constructor; [| constructor].
      apply (handler_Seals _ (start_ghost r) (fun _ _ => True));
        [apply handler_ghost_start | apply Safe_handler].
    + intros j jobID pending b seal Hj Hf.
      apply lookup_app_Some in Hj as [Hj | [_ Hj]].
      * apply (Hopen j jobID pending b seal Hj).
        pose proof (lookup_lt_Some _ _ _ Hj) as Hlt.
        rewrite (Forall2_length _ _ _ Hsafe), <- (Forall2_length _ _ _ Hseals) in Hlt.
        by rewrite lookup_app_l in Hf.
      * apply list_lookup_singleton_Some in Hj as [_ Hj]. by destruct r.
    + done.
  - (* a goroutine takes a step *)
    destruct (threads s !! i) as [t |] eqn:Hi; [| discriminate].
    destruct (thread_step Unmarshal t (world s)) as [[t' w'] |] eqn:Ht; [| discriminate].
    injection Hstep as <-.
    destruct (Forall2_lookup_r _ _ _ _ _ Hsafe Hi) as (g & Hg & Hgt).
    destruct (Forall2_lookup_r _ _ _ _ _ Hseals Hi) as (f & Hf & Hft).
    destruct (thread_step_ghost _ _ _ _ _ _ _ _ Hg Hgt Ht Hcoh Hact)
      as (g' & Hsafe' & Hcoh' & Hact' & Hkind).
    destruct Hkind as [(X & c & x & Hex & Hal & -> & Hshape) | (-> & -> & ->)].
    + assert (Hc : match c with
                   | RPush _ item =>
                       match f with
                       | Open => True
                       | AfterDone => Error item <> ""
                       | Closed => False
                       end
                   | _ => True
                   end
                   /\ thread_seals (seal_next f c) t').
      { destruct Hshape as [(k & -> & ->) | (k & -> & ->)]; destruct Hft as [Hc Hk];
          (split; [exact Hc | apply Hk]). }
      destruct Hc as [Hc Hft'].
      exists (<[i := next g c x]> ghosts), (<[i := seal_next f c]> seals).
      split; [split; [by apply Forall2_insert | done] |].
      pose proof (exec_lists _ _ _ _ Hex) as Hl.
      split; [by apply Forall2_insert | split]; simpl.
      * intros j jobID pending b seal Hj Hfj.
        destruct (decide (j = i)) as [-> | Hne].
        -- rewrite list_lookup_insert_eq in Hj by (by eapply lookup_lt_Some).
           rewrite list_lookup_insert_eq in Hfj by (by eapply lookup_lt_Some).
           injection Hj as Hj. injection Hfj as Hfj.
           pose proof (next_holds c g x jobID pending b Hal Hj) as Hprev.
           destruct c; try (destruct Hprev as (p0 & b0 & ->); simpl in Hfj; subst seal;
                            rewrite Hl; by apply (Hopen i jobID p0 b0 f)).
           ++ destruct Hprev as (-> & p0 & b0 & ->). destruct Hl as [Hl _]. rewrite Hl.
              pose proof (Hopen i jobID p0 b0 f Hg Hf) as Hlog.
              simpl in Hfj. subst seal.
              destruct (is_empty (Error item)) eqn:He; cbn [negb]; [| exact I].
              apply is_empty_true in He.
              destruct f; [| by destruct Hc | by destruct Hc].
              destruct (Done item) eqn:Hd.
              ** exists (list_at (storage (world s)) (key_chunks jobID)), item. done.
              ** apply Forall_app. split; [exact Hlog |]. by repeat constructor.
           ++ simpl in Hj. injection Hj as <- _ _. rewrite Hl.
              simpl in Hfj. subst seal.
              simpl in Hex. destruct (queue (worker (world s))) as [| id rest] eqn:Hq;
                [discriminate |]. injection Hex as -> _.
              destruct (coh_queued _ _ _ _ Hcoh x) as [Hlog _]; [left |].
              rewrite Hlog. constructor.
        -- rewrite list_lookup_insert_ne in Hj by done.
           rewrite list_lookup_insert_ne in Hfj by done.
           pose proof (Hopen j jobID pending b seal Hj Hfj) as Hold.
           destruct c; try (rewrite Hl; exact Hold).
           destruct Hal as (id & b0 & -> & ->). destruct Hl as [_ Hl].
           rewrite Hl; [exact Hold |]. intros Heq. apply key_chunks_inj in Heq. subst id.
           apply Hne. by eapply (coh_excl _ _ _ _ Hcoh j i).
      * intros jobID. destruct c; try (rewrite Hl; apply Hlast).
        destruct Hal as (id & b0 & -> & ->). destruct Hl as [Hl Hother].
        destruct (decide (id = jobID)) as [-> | Hne].
        -- rewrite Hl. pose proof (Hopen i jobID _ b0 f Hg Hf) as Hlog.
           destruct f; [| | by destruct Hc].
           ++ by apply done_ends_snoc.
           ++ destruct Hlog as (before & final & -> & Hbefore & _ & Hfinal).
              by apply done_ends_failure.
        -- rewrite Hother; [apply Hlast |]. intros Heq. by apply key_chunks_inj in Heq.
    + exists (<[i := GIdle]> ghosts), (<[i := Open]> seals).
      split; [split; [by apply Forall2_insert | done] |].
      split; [apply Forall2_insert; [done | apply Seals_run_iteration] | split]; simpl.
      * intros j jobID pending b seal Hj Hfj.
        destruct (decide (j = i)) as [-> | Hne].
        -- rewrite list_lookup_insert_eq in Hj by (by eapply lookup_lt_Some). discriminate.
        -- rewrite list_lookup_insert_ne in Hj by done.
           rewrite list_lookup_insert_ne in Hfj by done. by eapply Hopen.
      * done.
  - (* the clock *)
    injection Hstep as <-. exists ghosts, seals.
    split; [split; [done | split; done] | split; [done | split; done]].
  - (* a key expires *)
    case_bool_decide as Hkey; [| discriminate]. injection Hstep as <-.
    exists ghosts, seals. split; [split; [done | split; [| done]] | split; [done | split]];
      simpl.
    + by apply Coherent_expired.
    + intros j jobID pending b seal Hj Hfj. rewrite list_at_remove.
      case_decide as Hk; [| by eapply Hopen]. subst key.
      destruct (coh_retired _ _ _ _ Hcoh jobID) as (_ & _ & Hnone);
        [right; by left |].
      by destruct (Hnone j _ Hj).
    + intros jobID. rewrite list_at_remove. case_decide; [apply done_ends_nil | done].
Qed.

Lemma reachable_Sealed (N : nat) (s : System) :
  reachable Unmarshal N s -> exists ghosts seals, Inv s ghosts /\ Sealed s ghosts seals.
Proof.
  revert s. apply reachable_invariant.
  - intros _ backend t0. exists (replicate N GIdle), (replicate N Open).
    split; [apply boot_Inv |]. split; [| split]; simpl.
    + clear. induction N as [| N IH]; simpl; constructor;
        [apply Seals_run_iteration | exact IH].
    + intros i jobID pending b seal Hi. apply lookup_replicate in Hi as [[=] _].
    + intros jobID. apply done_ends_nil.
  - intros a s s' (ghosts & seals & Hinv & Hsealed) Hstep. by eapply sys_step_Sealed.
Qed.

(** X17: in every state the Worker can reach, under any interleaving of
    its handlers and executors, a done chunk of a log is the last chunk
    of the log, or it carries no error and is followed by exactly one
    chunk, the last, which carries an error (the terminal chunk of a
    read error that the scanner had met when the executor left the loop
    on the done record).  Nothing is ever appended after a chunk that
    carries an error, and nothing but such a chunk after a done chunk:
    a log holds at most two done chunks. *)
Theorem done_chunk_ends_log (N : nat) (s : System) (jobID : string) (i : nat)
    (chunk : ChunkData) :
  reachable Unmarshal N s ->
  list_at (storage (world s)) (key_chunks jobID) !! i = Some chunk ->
  Done chunk = true ->
  S i = length (list_at (storage (world s)) (key_chunks jobID))
  \/ (Error chunk = ""
      /\ S (S i) = length (list_at (storage (world s)) (key_chunks jobID))
      /\ exists failure,
           list_at (storage (world s)) (key_chunks jobID) !! S i = Some failure
           /\ Error failure <> "").
Proof.
  intros Hreach Hi Hdone.
  destruct (reachable_Sealed N s Hreach) as (ghosts & seals & _ & _ & _ & Hlast).
  by eapply Hlast.
Qed.

End DoneChunk.

Lemma done_chunk_ends_log_witness :
  exists s, S1_cut = Some s
    /\ Seq <$> list_at (storage (world s)) (key_chunks "job-a") = [1; 2; 3; 4]
    /\ (3%nat = length (list_at (storage (world s)) (key_chunks "job-a"))
        \/ (Error (hello_chunk 3) = ""
            /\ 4%nat = length (list_at (storage (world s)) (key_chunks "job-a"))
            /\ exists failure,
                 list_at (storage (world s)) (key_chunks "job-a") !! 3%nat = Some failure
                 /\ Error failure <> "")).
Proof.
  destruct S1_cut as [s |] eqn:E.
  - exists s. split; [reflexivity |].
    assert (Hw : world s = world_of S1_cut) by (by rewrite E).
    split; [rewrite Hw; vm_compute; reflexivity |].
    apply (done_chunk_ends_log hello_unmarshal 1 s "job-a" 2%nat (hello_chunk 3)).
    + eexists _, _, _. split; [apply started_one | exact E].
    + rewrite Hw. vm_compute. reflexivity.
    + reflexivity.
  - no_run E.
Defined.

(** ** The Worker's entry point *)

Lemma settings_workers (Getenv : string -> string) :
  WorkerMain.workers (WorkerMain.settings Getenv)
  = match Atoi (Getenv "WORKER_CONCURRENCY") with Some val => val | None => 10 end.
Proof.
  unfold WorkerMain.settings. cbn [WorkerMain.workers].
  by destruct (Getenv "WORKER_CONCURRENCY").
Qed.

Lemma run_CreateJob_full (w : World) (req : JobRequest) (jobID : string) :
  maxQueueSize (worker w) <= activeJobs (worker w) + Z.of_nat (length (queue (worker w))) ->
  exists err w',
    run (Server.CreateJob (inl req) jobID) w
    = Some ({| resp_code := StatusTooManyRequests;
               resp_body := BodyError ("Service overloaded: " +:+ err)
                              "server_error" "rate_limit_exceeded" |}, w').
Proof.
  intros Hfull. rewrite run_CreateJob_stored. unfold Server.enqueueJob.
  rewrite run_bind, run_Enqueue_full by exact Hfull.
  rewrite run_bind, run_UpdateJobStatus. by eexists _, _.
Qed.

Section Entry.

Variable Unmarshal : string -> OllamaStreamResponse + string.

Lemma sys_run_executors (acts : list Action) : forall s s',
  sys_run Unmarshal acts s = Some s' ->
  length (filter is_executor (threads s')) = length (filter is_executor (threads s)).
Proof.
  induction acts as [| a acts IH]; intros s s' Hrun; simpl in Hrun.
  - by injection Hrun as <-.
  - destruct (sys_step Unmarshal a s) as [s1 |] eqn:Hs; [| discriminate].
    rewrite (IH _ _ Hrun). by eapply sys_step_executors.
Qed.

(** The Worker process that [main] starts. *)
Lemma start_Inv Getenv backend t0 s0 :
  WorkerMain.start Unmarshal Getenv backend t0 = Some s0 ->
  let c := WorkerMain.workers (WorkerMain.settings Getenv) in
  worker (world s0) = NewWorker c
  /\ 0 <= maxQueueSize (NewWorker c)
  /\ threads s0 = replicate (Z.to_nat c) (Executor (Worker.run_iteration Unmarshal))
  /\ Inv s0 (replicate (Z.to_nat c) GIdle).
Proof.
  unfold WorkerMain.start. cbv zeta.
  set (c := WorkerMain.workers (WorkerMain.settings Getenv)).
  destruct (Z.ltb_spec (maxQueueSize (NewWorker c)) 0) as [Hneg | Hpos]; [discriminate |].
  intros [= <-]. cbn [world worker threads].
  split; [reflexivity |]. split; [exact Hpos |]. split; [reflexivity |].
  split; [| split]; cbn [world worker threads storage issued].
  - induction (Z.to_nat c) as [| n IH]; simpl; constructor;
      [apply Safe_run_iteration | exact IH].
  - apply Coherent_boot.
  - by rewrite tally_idle.
Qed.

(** X18: a Worker started by [main] runs, for as long as it lives, with
    the concurrency read from WORKER_CONCURRENCY, or 10 when the
    variable is unset, empty or not an integer in the range of [int],
    and with twice that, as a 64-bit product, as its admission ceiling;
    the value is not validated.  The Worker starts only when that
    product is not negative; the ceiling is then twice the concurrency
    when the concurrency is not negative.  It runs as many executors as
    the concurrency says, none for a value that is zero or negative.
    With the ceiling 0 (the value 0) it answers every create-job
    request with 429. *)
Theorem main_concurrency (Getenv : string -> string)
    (backend : OllamaRequest -> UpstreamResult) (t0 : string)
    (acts : list Action) (s0 s : System) :
  WorkerMain.start Unmarshal Getenv backend t0 = Some s0 ->
  sys_run Unmarshal acts s0 = Some s ->
  let c := match Atoi (Getenv "WORKER_CONCURRENCY") with Some val => val | None => 10 end in
  MinInt <= c <= MaxInt
  /\ concurrency (worker (world s)) = c
  /\ maxQueueSize (worker (world s)) = int_wrap (c * 2)
  /\ 0 <= maxQueueSize (worker (world s))
  /\ (0 <= c -> maxQueueSize (worker (world s)) = 2 * c)
  /\ length (filter is_executor (threads s)) = Z.to_nat c
  /\ (maxQueueSize (worker (world s)) = 0 ->
      forall req jobID, exists err w',
        run (Server.CreateJob (inl req) jobID) (world s)
        = Some ({| resp_code := StatusTooManyRequests;
                   resp_body := BodyError ("Service overloaded: " +:+ err)
                                  "server_error" "rate_limit_exceeded" |}, w')).
Proof.
  intros Hstart Hrun.
  destruct (start_Inv _ _ _ _ Hstart) as (Hw & Hmake & Hthreads & Hinv).
  rewrite settings_workers in Hw, Hmake, Hthreads, Hinv. cbv zeta.
  set (c := match Atoi (Getenv "WORKER_CONCURRENCY") with Some val => val | None => 10 end)
    in *.
  assert (Hrange : MinInt <= c <= MaxInt).
  { subst c. destruct (Atoi (Getenv "WORKER_CONCURRENCY")) as [val |] eqn:E.
    - by apply Atoi_range in E.
    - unfold MinInt, MaxInt. lia. }
  destruct (sys_run_capacity Unmarshal _ _ _ Hrun) as (Hc & Hm & _).
  rewrite Hw in Hc, Hm. cbn [NewWorker concurrency maxQueueSize] in Hc, Hm, Hmake.
  split; [exact Hrange |]. split; [exact Hc |]. split; [exact Hm |].
  split; [by rewrite Hm |]. split; [| split].
  - intros Hpos. rewrite Hm.
    destruct (Z_le_gt_dec (c * 2) MaxInt) as [Hle | Hgt].
    + rewrite int_wrap_small; [lia |]. unfold MinInt. lia.
    + rewrite int_wrap_below in Hmake; unfold MaxInt in *; lia.
  - rewrite (sys_run_executors _ _ _ Hrun), Hthreads. apply executors_replicate.
  - intros Hzero req jobID. apply run_CreateJob_full.
    destruct (sys_run_Inv Unmarshal _ _ _ _ Hinv Hrun) as (ghosts & Hsafe & _ & Hact).
    pose proof (tally_le_executors _ _ Hsafe) as Hle. rewrite Hzero, Hact. lia.
Qed.

End Entry.

Lemma main_concurrency_witness :
  let Getenv := fun key : string =>
    if String.eqb key "WORKER_CONCURRENCY" then "-9223372036854775807" else "" in
  exists s0,
    WorkerMain.start hello_unmarshal Getenv hello_backend "2025-01-01T00:00:00Z" = Some s0
    /\ concurrency (worker (world s0)) = - 9223372036854775807
    /\ maxQueueSize (worker (world s0)) = 2
    /\ length (filter is_executor (threads s0)) = 0%nat.
Proof.
  intros Getenv.
  destruct (WorkerMain.start hello_unmarshal Getenv hello_backend "2025-01-01T00:00:00Z")
    as [s0 |] eqn:E; [| vm_compute in E; discriminate E].
  exists s0. split; [reflexivity |].
  destruct (main_concurrency hello_unmarshal Getenv hello_backend "2025-01-01T00:00:00Z"
              [] s0 s0 E eq_refl) as (_ & Hc & Hm & _ & _ & Hex & _).
  split; [exact Hc |]. split; [exact Hm |]. exact Hex.
Defined.

(** ** The Gateway's configuration and its entry points *)

(** X19: the Gateway checks the API key only when
    OPENAI_API_KEY_REQUIRED is exactly the string "true": with the
    variable unset, or set to anything else ("1", "TRUE", "yes"), the
    configuration has the check off and [validateAuth] lets every
    request through, whatever its Authorization header; the key it
    compares with is the value of OPENAI_API_KEY, empty when unset. *)
Theorem auth_off_unless_true (Getenv : string -> string) (authHeader : string) :
  (Gateway.APIKeyRequired (LoadConfig Getenv) = true
   <-> Getenv "OPENAI_API_KEY_REQUIRED" = "true")
  /\ Gateway.APIKey (LoadConfig Getenv) = Getenv "OPENAI_API_KEY"
  /\ (Getenv "OPENAI_API_KEY_REQUIRED" <> "true" ->
      Gateway.validateAuth (LoadConfig Getenv) authHeader = None).
Proof.
  assert (Hreq : Gateway.APIKeyRequired (LoadConfig Getenv) = true
                 <-> Getenv "OPENAI_API_KEY_REQUIRED" = "true").
  { cbn [LoadConfig Gateway.APIKeyRequired]. unfold getEnv.
    destruct (Getenv "OPENAI_API_KEY_REQUIRED") as [| c rest] eqn:E; cbn [is_empty negb].
    - split; discriminate.
    - apply String.eqb_eq. }
  split; [exact Hreq |]. split.
  - cbn [LoadConfig Gateway.APIKey]. unfold getEnv. by destruct (Getenv "OPENAI_API_KEY").
  - intros Hne. unfold Gateway.validateAuth.
    destruct (Gateway.APIKeyRequired (LoadConfig Getenv)); [| reflexivity].
    destruct Hne. by apply Hreq.
Qed.

Section Guard.

Context {float64 : Type}.
Variable is_zero : float64 -> bool.
Variable marshal_float : float64 -> string.

(** X20: a request that [validateAuth] refuses is answered 401 with the
    reason by each of the three endpoints under /v1, whatever else the
    request holds and whatever the backend would have answered: the
    check comes before the body is decoded and before any request is
    sent to the backend.  And a request that passes the check with a
    body that cannot be decoded is answered 400, again whatever the
    backend would answer. *)
Theorem refused_before_anything_else (config : Gateway.Config) (authHeader : string) :
  (forall err, Gateway.validateAuth config authHeader = Some err ->
     (forall body post flusher turns uuid now,
        Proxy1Server.ChatCompletions float64 is_zero marshal_float config authHeader
          body post flusher turns uuid now
        = Proxy1Server.Plain (Gateway.writeError err StatusUnauthorized))
     /\ (forall now now',
           Proxy1Server.Models config authHeader now now'
           = Proxy1Server.Plain (Gateway.writeError err StatusUnauthorized))
     /\ (forall get,
           Proxy1Server.BackendStats config authHeader get
           = Proxy1Server.Plain (Gateway.writeError err StatusUnauthorized)))
  /\ (Gateway.validateAuth config authHeader = None ->
      forall err post flusher turns uuid now,
        Proxy1Server.ChatCompletions float64 is_zero marshal_float config authHeader
          (inr err) post flusher turns uuid now
        = Proxy1Server.Plain (Gateway.writeError err StatusBadRequest)).
Proof.
  split.
  - intros err H. unfold Proxy1Server.ChatCompletions, Proxy1Server.Models,
      Proxy1Server.BackendStats. by rewrite H.
  - intros H err post flusher turns uuid now. unfold Proxy1Server.ChatCompletions.
    by rewrite H.
Qed.

End Guard.

Lemma auth_off_unless_true_witness :
  Gateway.validateAuth (LoadConfig (fun _ => "")) "Bearer anything" = None.
Proof.
  apply (proj2 (proj2 (auth_off_unless_true (fun _ => "") "Bearer anything"))).
  discriminate.
Defined.

Lemma refused_before_anything_else_witness :
  Proxy1Server.Models keyed_config "Bearer wrong" 0 0
  = Proxy1Server.Plain (Gateway.writeError "invalid api key" StatusUnauthorized)
  /\ Proxy1Server.ChatCompletions Z (fun x => x =? 0) fmt_d sample_config ""
       (inr "unexpected EOF") (fun _ => Proxy1Server.PostFailed "connection refused")
       true [] "0000" 0
     = Proxy1Server.Plain (Gateway.writeError "unexpected EOF" StatusBadRequest).
Proof.
  split.
  - apply (proj1 (refused_before_anything_else (fun x => x =? 0) fmt_d
                    keyed_config "Bearer wrong") "invalid api key"). reflexivity.
  - apply (proj2 (refused_before_anything_else (fun x => x =? 0) fmt_d sample_config "")).
    reflexivity.
Defined.

(** ** Creating the job at the backend *)

Lemma run_CreateJob_response (w : World) (req : JobRequest) (jobID : string) :
  exists err w',
    run (Server.CreateJob (inl req) jobID) w
    = Some (if (activeJobs (worker w) + Z.of_nat (length (queue (worker w)))
                  <? maxQueueSize (worker w))
               && (Z.of_nat (length (queue (worker w))) <? maxQueueSize (worker w))
            then {| resp_code := StatusOK;
                    resp_body := BodyJob {| jresp_JobID := jobID;
                                            jresp_Status := StatusQueued |} |}
            else {| resp_code := StatusTooManyRequests;
                    resp_body := BodyError ("Service overloaded: " +:+ err)
                                   "server_error" "rate_limit_exceeded" |}, w').
Proof.
  rewrite run_CreateJob_stored. unfold Server.enqueueJob. rewrite run_bind.
  set (w3 := with_storage _ w).
  assert (Hw : worker w3 = worker w) by reflexivity.
  destruct (Z.ltb_spec (activeJobs (worker w) + Z.of_nat (length (queue (worker w))))
              (maxQueueSize (worker w))) as [Hload | Hload].
  - destruct (Z.ltb_spec (Z.of_nat (length (queue (worker w)))) (maxQueueSize (worker w)))
      as [Hroom | Hroom]; cbn [andb].
    + rewrite run_Enqueue_room by (by rewrite Hw). by eexists "", _.
    + rewrite run_Enqueue_channel_full by (by rewrite Hw).
      rewrite run_bind, run_UpdateJobStatus. by eexists _, _.
  - cbn [andb]. rewrite run_Enqueue_full by (by rewrite Hw).
    rewrite run_bind, run_UpdateJobStatus. by eexists _, _.
Qed.

Section Creation.

Context {float64 : Type}.
Variable is_zero : float64 -> bool.
Variable marshal_float : float64 -> string.

Local Abbreviation createBackendJob :=
  (Proxy1Server.createBackendJob float64 is_zero marshal_float).
Local Abbreviation backendReq := (Proxy1Server.backendReq float64 is_zero marshal_float).

(** X21: [createBackendJob] reports a job exactly when the backend
    answers 200 with a body that decodes, and the job id is the one of
    that body; it reports the overload exactly when the backend answers
    429; every other outcome is a failure.  The request it sends carries
    the model and the messages of the chat request, and as options those
    of temperature, top_p and max_tokens that are not zero, max_tokens
    under the name num_predict: a zero cannot be passed on. *)
Theorem createBackendJob_outcome (post : Proxy1Server.BackendJobRequest -> Proxy1Server.PostOutcome)
    (req : Proxy1Server.OpenAIChatRequest float64) :
  (forall jobID,
     createBackendJob post req = Gateway.JobCreated jobID
     <-> exists body status,
           post (backendReq req)
           = Proxy1Server.PostResponse StatusOK body
               (inl {| Proxy1Server.bjr_JobID := jobID;
                       Proxy1Server.bjr_Status := status |}))
  /\ (forall message,
        createBackendJob post req = Gateway.RateLimited message
        <-> exists decoded,
              post (backendReq req)
              = Proxy1Server.PostResponse StatusTooManyRequests message decoded)
  /\ Proxy1Server.bj_Model (backendReq req) = Proxy1Server.cr_Model float64 req
  /\ Proxy1Server.bj_Messages (backendReq req) = Proxy1Server.cr_Messages float64 req
  /\ forall key value,
       (key, value) ∈ Proxy1Server.bj_Options (backendReq req)
       <-> (key = "temperature"
            /\ is_zero (Proxy1Server.cr_Temperature float64 req) = false
            /\ value = marshal_float (Proxy1Server.cr_Temperature float64 req))
           \/ (key = "top_p"
               /\ is_zero (Proxy1Server.cr_TopP float64 req) = false
               /\ value = marshal_float (Proxy1Server.cr_TopP float64 req))
           \/ (key = "num_predict"
               /\ Proxy1Server.cr_MaxTokens float64 req <> 0
               /\ value = fmt_d (Proxy1Server.cr_MaxTokens float64 req)).
Proof.
  split; [| split; [| split; [done | split; [done |]]]].
  - intros jobID. unfold Proxy1Server.createBackendJob.
    destruct (post _) as [err | err | StatusCode body decoded].
    + split; [discriminate | by intros (? & ? & ?)].
    + split; [discriminate | by intros (? & ? & ?)].
    + destruct (Z.eqb_spec StatusCode StatusTooManyRequests) as [-> | H429].
      { split; [discriminate | by intros (? & ? & ?)]. }
      destruct (Z.eqb_spec StatusCode StatusOK) as [-> | H200]; cbn [negb].
      * destruct decoded as [[id status] | err]; cbn.
        -- split; [intros [= ->]; by eexists _, _ | by intros (? & ? & [= _ ->])].
        -- split; [discriminate | by intros (? & ? & ?)].
      * split; [discriminate | intros (? & ? & [= -> _ _]); done].
  - intros message. unfold Proxy1Server.createBackendJob.
    destruct (post _) as [err | err | StatusCode body decoded].
    + split; [discriminate | by intros (? & ?)].
    + split; [discriminate | by intros (? & ?)].
    + destruct (Z.eqb_spec StatusCode StatusTooManyRequests) as [-> | H429].
      { split; [intros [= ->]; by eexists | by intros (? & [= ->])]. }
      split; [| intros (? & [= -> _ _]); done].
      destruct (negb (StatusCode =? StatusOK)); [discriminate |].
      by destruct decoded.
  - intros key value. unfold Proxy1Server.backendReq. cbn [Proxy1Server.bj_Options].
    destruct (is_zero (Proxy1Server.cr_Temperature float64 req)),
      (is_zero (Proxy1Server.cr_TopP float64 req)),
      (Z.eqb_spec (Proxy1Server.cr_MaxTokens float64 req) 0);
      cbn [negb app]; rewrite ?elem_of_cons, ?elem_of_nil; intuition congruence.
Qed.

(** X22: the Gateway in front of a Worker.  A chat request that passes
    the check and is decoded leads to one create-job request at the
    Worker.  When the Worker admits it, the Gateway goes on with the job
    id the Worker drew; when the Worker refuses it, being at its
    ceiling, the Gateway answers 429 with the code 429 and the message
    "Service overloaded. Please try again later.", as a plain JSON
    error for a streaming request too, and never polls. *)
Theorem gateway_admission (encode : Body -> string) (w : World) (jobID : string)
    (config : Gateway.Config) (authHeader : string)
    (req : Proxy1Server.OpenAIChatRequest float64) (flusher : bool)
    (turns : list Gateway.Turn) (uuid : string) (now : Z) :
  Gateway.validateAuth config authHeader = None ->
  if (activeJobs (worker w) + Z.of_nat (length (queue (worker w))) <? maxQueueSize (worker w))
     && (Z.of_nat (length (queue (worker w))) <? maxQueueSize (worker w))
  then createBackendJob (worker_post encode w jobID) req = Gateway.JobCreated jobID
  else
    Proxy1Server.ChatCompletions float64 is_zero marshal_float config authHeader (inl req)
      (worker_post encode w jobID) flusher turns uuid now
    = let refusal :=
        Gateway.writeError "Service overloaded. Please try again later."
          StatusTooManyRequests in
      if Proxy1Server.cr_Stream float64 req
      then Proxy1Server.Events (Gateway.Refused refusal)
      else Proxy1Server.Plain refusal.
Proof.
  intros Hauth. unfold Proxy1Server.ChatCompletions. rewrite Hauth.
  unfold Proxy1Server.createBackendJob, worker_post.
  destruct (run_CreateJob_response w
              {| jr_Model := Proxy1Server.bj_Model (backendReq req);
                 jr_Messages := Proxy1Server.bj_Messages (backendReq req);
                 jr_Prompt := "";
                 jr_Options :=
                   list_to_map
                     ((fun kv => (fst kv, (dquote +:+ fst kv +:+ dquote, snd kv)))
                        <$> Proxy1Server.bj_Options (backendReq req)) |} jobID)
    as (err & w' & ->).
  destruct ((_ <? _) && (_ <? _)); [reflexivity |].
  cbn. by destruct (Proxy1Server.cr_Stream float64 req).
Qed.

End Creation.

Lemma gateway_admission_witness :
  Proxy1Server.ChatCompletions Z (fun x => x =? 0) fmt_d sample_config "" 
    (inl {| Proxy1Server.cr_Model := "gpt-oss:20b"; Proxy1Server.cr_Messages := ["{}"];
            Proxy1Server.cr_Stream := true; Proxy1Server.cr_Temperature := 0;
            Proxy1Server.cr_TopP := 0; Proxy1Server.cr_MaxTokens := 0 |})
    (worker_post (fun _ => "") busy_world "job-c") true [] "0000" 0
  = Proxy1Server.Events
      (Gateway.Refused
         (Gateway.writeError "Service overloaded. Please try again later."
            StatusTooManyRequests)).
Proof.
  apply (gateway_admission (fun x => x =? 0) fmt_d (fun _ => "") busy_world "job-c"
           sample_config ""
           {| Proxy1Server.cr_Model := "gpt-oss:20b"; Proxy1Server.cr_Messages := ["{}"];
              Proxy1Server.cr_Stream := true; Proxy1Server.cr_Temperature := 0;
              Proxy1Server.cr_TopP := 0; Proxy1Server.cr_MaxTokens := 0 |}
           true [] "0000" 0).
  reflexivity.
Defined.

(** ** The event stream and the polling loops of the Gateway *)

Section Frames.

Variables (chatID : string) (created : Z) (model : string).

Lemma streamChunks_well_ended (chunks : list Gateway.BackendChunkData) : forall lastSeq,
  well_ended (fst (fst (Gateway.streamChunks chatID created model chunks lastSeq)))
    (snd (Gateway.streamChunks chatID created model chunks lastSeq)).
Proof.
  induction chunks as [| chunk rest IH]; intros lastSeq; simpl; [constructor |].
  destruct (Gateway.bSeq chunk <=? lastSeq); [apply IH |].
  destruct (negb (is_empty (Gateway.bError chunk))).
  { exists [], (Gateway.ErrorFrame (Gateway.bError chunk)). by repeat split. }
  destruct (Gateway.bDone chunk).
  { eexists [_], Gateway.DoneFrame. repeat split. by repeat constructor. }
  specialize (IH (Gateway.bSeq chunk)).
  destruct (Gateway.streamChunks chatID created model rest (Gateway.bSeq chunk))
    as [[frames l] [|]]; simpl in *.
  - destruct IH as (datas & final & -> & Hd & Hf).
    exists (Gateway.DataFrame (Gateway.sseData chatID created model chunk) :: datas), final.
    repeat split; [| done]. by constructor.
  - by constructor.
Qed.

Lemma streamLoop_well_ended (config : Gateway.Config) (turns : list Gateway.Turn) :
  forall lastSeq retryDelay,
    well_ended (fst (Gateway.streamLoop chatID created model config turns lastSeq retryDelay))
      (snd (Gateway.streamLoop chatID created model config turns lastSeq retryDelay)).
Proof.
  induction turns as [| [| answer] rest IH]; intros lastSeq retryDelay; simpl.
  - constructor.
  - exists [], (Gateway.ErrorFrame "timeout exceeded"). by repeat split.
  - destruct (answer lastSeq) as [events | err]; [| apply IH].
    pose proof (streamChunks_well_ended (Gateway.bChunks events) lastSeq) as Hc.
    destruct (Gateway.streamChunks chatID created model (Gateway.bChunks events) lastSeq)
      as [[frames l] [|]]; simpl in *; [exact Hc |].
    destruct (Gateway.is_terminal (Gateway.bStatus events)).
    { destruct (negb (String.eqb (Gateway.bStatus events) "completed")); simpl;
        eexists frames, _; by repeat split. }
    specialize (IH l (Gateway.RetryBackoffInitMS config)).
    destruct (Gateway.streamLoop chatID created model config rest l
                (Gateway.RetryBackoffInitMS config)) as [more [|]]; simpl in *.
    + destruct IH as (datas & final & -> & Hd & Hf).
      exists (frames ++ datas), final. rewrite app_assoc.
      repeat split; [| done]. by apply Forall_app.
    + by apply Forall_app.
Qed.

(** X23: whatever the backend answers to the polls, and however the
    polls fail, a streaming request gets either a plain error, 429 or
    500, before anything is streamed, or an event stream that is well
    ended: a closed stream ends with its one final frame, the
    terminator or an error frame, and every frame before it is a data
    frame; a stream that is still open holds data frames only.  So
    nothing is written after the terminator or after an error, and no
    stream holds both. *)
Theorem stream_well_ended (config : Gateway.Config) (job : Gateway.Creation)
    (flusher : bool) (turns : list Gateway.Turn) :
  match Gateway.handleStreamingChat chatID created model config job flusher turns with
  | Gateway.Refused r =>
      Gateway.gw_code r = StatusTooManyRequests
      \/ Gateway.gw_code r = StatusInternalServerError
  | Gateway.Stream frames closed => well_ended frames closed
  end.
Proof.
  unfold Gateway.handleStreamingChat.
  destruct job as [jobID | message | err]; [| by left | by right].
  destruct flusher; [| by right]. cbn [negb].
  pose proof (streamLoop_well_ended config turns (-1) (Gateway.RetryBackoffInitMS config)) as H.
  by destruct (Gateway.streamLoop _ _ _ _ _ _ _).
Qed.

End Frames.

(** ** The waits between the polls *)

Section Waits.

Variables (chatID : string) (created : Z) (model : string).
Variable config : Gateway.Config.

Hypothesis Hconfig : backoff_in_range config.

Lemma double_in_range (d : Z) :
  Gateway.RetryBackoffInitMS config <= d <= Gateway.RetryBackoffMaxMS config ->
  int_wrap (d * 2) = d * 2.
Proof.
  destruct Hconfig as [Hinit Hmax]. unfold Proxy1Server.Millisecond in Hmax.
  intros Hd. apply int_wrap_small. unfold MinInt. lia.
Qed.

Lemma milliseconds_in_range (d : Z) :
  Gateway.RetryBackoffInitMS config <= d <= Gateway.RetryBackoffMaxMS config ->
  Proxy1Server.milliseconds d = d * Proxy1Server.Millisecond.
Proof.
  destruct Hconfig as [Hinit Hmax]. unfold Proxy1Server.milliseconds.
  unfold Proxy1Server.Millisecond in *.
  intros Hd. apply int_wrap_small. unfold MinInt. lia.
Qed.

Lemma min_backoff (d : Z) :
  Gateway.RetryBackoffInitMS config <= d <= Gateway.RetryBackoffMaxMS config ->
  Gateway.RetryBackoffInitMS config
  <= Gateway.min (int_wrap (d * 2)) (Gateway.RetryBackoffMaxMS config)
  <= Gateway.RetryBackoffMaxMS config.
Proof.
  intros Hd. rewrite double_in_range by done. destruct Hconfig as [Hinit _].
  unfold Gateway.min.
  destruct (Z.ltb_spec (d * 2) (Gateway.RetryBackoffMaxMS config)); lia.
Qed.

Lemma backoff_within (j : nat) :
  Gateway.RetryBackoffInitMS config <= backoff config j <= Gateway.RetryBackoffMaxMS config.
Proof.
  destruct Hconfig as [Hinit _]. unfold backoff.
  assert (0 < 2 ^ Z.of_nat j) by (apply Z.pow_pos_nonneg; lia). nia.
Qed.

Lemma backoff_step (j : nat) :
  Gateway.min (int_wrap (backoff config j * 2)) (Gateway.RetryBackoffMaxMS config)
  = backoff config (S j).
Proof.
  rewrite double_in_range by apply backoff_within.
  destruct Hconfig as [Hinit _]. unfold Gateway.min, backoff.
  rewrite Nat2Z.inj_succ, Z.pow_succ_r by lia.
  assert (0 < 2 ^ Z.of_nat j) by (apply Z.pow_pos_nonneg; lia).
  destruct (Z.ltb_spec (Z.min (Gateway.RetryBackoffInitMS config * 2 ^ Z.of_nat j)
                          (Gateway.RetryBackoffMaxMS config) * 2)
              (Gateway.RetryBackoffMaxMS config)); nia.
Qed.

Lemma backoff_expected (d : Z) :
  Gateway.RetryBackoffInitMS config <= d <= Gateway.RetryBackoffMaxMS config ->
  expected_wait config (Proxy1Server.milliseconds d).
Proof.
  intros Hd. right. rewrite milliseconds_in_range by done.
  unfold Proxy1Server.Millisecond. lia.
Qed.

Lemma streamSleeps_within (turns : list Gateway.Turn) : forall lastSeq retryDelay,
  Gateway.RetryBackoffInitMS config <= retryDelay <= Gateway.RetryBackoffMaxMS config ->
  Forall (expected_wait config)
    (Proxy1Server.streamSleeps chatID created model config turns lastSeq retryDelay).
Proof.
  induction turns as [| [| answer] rest IH]; intros lastSeq retryDelay Hd; simpl;
    [constructor | constructor |].
  destruct (answer lastSeq) as [events | err].
  - destruct (Gateway.streamChunks chatID created model (Gateway.bChunks events) lastSeq)
      as [[frames l] [|]]; [constructor |].
    destruct (Gateway.is_terminal (Gateway.bStatus events)); [constructor |].
    constructor; [by left |]. apply IH. destruct Hconfig. lia.
  - constructor; [by apply backoff_expected |]. apply IH. by apply min_backoff.
Qed.

Lemma gatherSleeps_within (turns : list Gateway.Turn) :
  forall lastSeq retryDelay fullContent finishReason,
    Gateway.RetryBackoffInitMS config <= retryDelay <= Gateway.RetryBackoffMaxMS config ->
    Forall (expected_wait config)
      (Proxy1Server.gatherSleeps config turns lastSeq retryDelay fullContent finishReason).
Proof.
  induction turns as [| [| answer] rest IH];
    intros lastSeq retryDelay fullContent finishReason Hd; simpl;
    [constructor | constructor |].
  destruct (answer lastSeq) as [events | err].
  - destruct (Gateway.gatherChunks (Gateway.bChunks events) lastSeq fullContent finishReason)
      as [message | l c f]; [constructor |].
    destruct (String.eqb (Gateway.bStatus events) "completed"); [constructor |].
    destruct (String.eqb (Gateway.bStatus events) "failed"
              || String.eqb (Gateway.bStatus events) "cancelled"); [constructor |].
    constructor; [by left |]. apply IH. destruct Hconfig. lia.
  - constructor; [by apply backoff_expected |]. apply IH. by apply min_backoff.
Qed.

Lemma streamSleeps_failures (k : nat) (err : string) (rest : list Gateway.Turn) :
  forall j lastSeq,
    take k (Proxy1Server.streamSleeps chatID created model config
              (replicate k (Gateway.Poll (fun _ => inr err)) ++ rest) lastSeq
              (backoff config j))
    = (fun i => backoff config (j + i) * Proxy1Server.Millisecond) <$> seq 0 k.
Proof.
  induction k as [| k IH]; intros j lastSeq; [reflexivity |].
  cbn [replicate app Proxy1Server.streamSleeps take seq fmap list_fmap].
  rewrite backoff_step, IH, Nat.add_0_r, milliseconds_in_range by apply backoff_within.
  f_equal. rewrite <- fmap_S_seq, <- list_fmap_compose. apply list_fmap_ext.
  intros _ i _. simpl. do 2 f_equal. lia.
Qed.

Lemma gatherSleeps_failures (k : nat) (err : string) (rest : list Gateway.Turn) :
  forall j lastSeq fullContent finishReason,
    take k (Proxy1Server.gatherSleeps config
              (replicate k (Gateway.Poll (fun _ => inr err)) ++ rest) lastSeq
              (backoff config j) fullContent finishReason)
    = (fun i => backoff config (j + i) * Proxy1Server.Millisecond) <$> seq 0 k.
Proof.
  induction k as [| k IH]; intros j lastSeq fullContent finishReason; [reflexivity |].
  cbn [replicate app Proxy1Server.gatherSleeps take seq fmap list_fmap].
  rewrite backoff_step, IH, Nat.add_0_r, milliseconds_in_range by apply backoff_within.
  f_equal. rewrite <- fmap_S_seq, <- list_fmap_compose. apply list_fmap_ext.
  intros _ i _. simpl. do 2 f_equal. lia.
Qed.

(** X24: with a retry backoff that starts positive and at or below its
    maximum, and a maximum that, as a number of nanoseconds, is within
    the range of a [time.Duration] (no product wraps around then), every
    wait of the two polling loops, whatever the polls answer, is either
    the poll interval (after a poll that went through) or a backoff
    between the initial and the maximal value (after a poll that
    failed); and the waits after k failed polls in a row from the start
    are the initial value doubled each time and capped at the maximum:
    min(init * 2^j, max) milliseconds for j = 0, ..., k-1. *)
Theorem waits_are_bounded (turns : list Gateway.Turn) (lastSeq : Z) :
  Forall (expected_wait config)
    (Proxy1Server.streamSleeps chatID created model config turns lastSeq
       (Gateway.RetryBackoffInitMS config))
  /\ Forall (expected_wait config)
       (Proxy1Server.gatherSleeps config turns lastSeq (Gateway.RetryBackoffInitMS config)
          "" "")
  /\ forall (k : nat) (err : string) (rest : list Gateway.Turn),
       take k (Proxy1Server.streamSleeps chatID created model config
                 (replicate k (Gateway.Poll (fun _ => inr err)) ++ rest) lastSeq
                 (Gateway.RetryBackoffInitMS config))
       = (fun j => backoff config j * Proxy1Server.Millisecond) <$> seq 0 k
       /\ take k (Proxy1Server.gatherSleeps config
                    (replicate k (Gateway.Poll (fun _ => inr err)) ++ rest) lastSeq
                    (Gateway.RetryBackoffInitMS config) "" "")
          = (fun j => backoff config j * Proxy1Server.Millisecond) <$> seq 0 k.
Proof.
  assert (H0 : backoff config 0 = Gateway.RetryBackoffInitMS config).
  { destruct Hconfig as [Hinit _]. unfold backoff. simpl. lia. }
  destruct Hconfig as [Hinit _].
  split; [apply streamSleeps_within; lia |].
  split; [apply gatherSleeps_within; lia |].
  intros k err rest. rewrite <- H0. split.
  - apply (streamSleeps_failures k err rest 0%nat).
  - apply (gatherSleeps_failures k err rest 0%nat).
Qed.

End Waits.

(** Without that bound the doubling wraps around: from an initial
    backoff of 2^62 ms the second one is negative. *)
Lemma backoff_wraps :
  Gateway.min (int_wrap (2 ^ 62 * 2)) MaxInt = MinInt.
Proof. vm_compute. reflexivity. Qed.

Lemma waits_are_bounded_witness :
  Forall (expected_wait (LoadConfig (fun _ => "")))
    (Proxy1Server.streamSleeps "chatcmpl-0" 0 "gpt-oss:20b" (LoadConfig (fun _ => ""))
       [Gateway.Poll (fun _ => inr "connection refused"); Gateway.Deadline] (-1)
       (Gateway.RetryBackoffInitMS (LoadConfig (fun _ => ""))))
  /\ take 3 (Proxy1Server.streamSleeps "chatcmpl-0" 0 "gpt-oss:20b"
               (LoadConfig (fun _ => ""))
               (replicate 3 (Gateway.Poll (fun _ => inr "connection refused")) ++ [])
               (-1) (Gateway.RetryBackoffInitMS (LoadConfig (fun _ => ""))))
     = [1000000000; 2000000000; 4000000000].
Proof.
  destruct (waits_are_bounded "chatcmpl-0" 0 "gpt-oss:20b" (LoadConfig (fun _ => "")))
    with (turns := [Gateway.Poll (fun _ => inr "connection refused"); Gateway.Deadline])
         (lastSeq := -1) as (Hstream & _ & Hfail).
  - split; [change (0 < 1000 <= 30000); lia |].
    change (30000 * 1000000 <= MaxInt). unfold MaxInt. lia.
  - split; [exact Hstream |].
    destruct (Hfail 3%nat "connection refused" []) as [-> _]. reflexivity.
Defined.

(** ** The cursor, from the Gateway to the Worker and back *)

Lemma digit_of_pretty_N_char (d : N) :
  (d < 10)%N -> digit_of (pretty_N_char d) = Some (Z.of_N d).
Proof.
  intros H.
  assert (d = 0 \/ d = 1 \/ d = 2 \/ d = 3 \/ d = 4 \/ d = 5 \/ d = 6 \/ d = 7 \/ d = 8
          \/ d = 9)%N as Hd by lia.
  repeat (destruct Hd as [-> | Hd]; [reflexivity |]). by subst.
Qed.

Lemma parse_pretty_N_go (x : N) :
  exists k, 0 < k /\ forall s acc,
    parse_digits (pretty_N_go x s) acc = parse_digits s (acc * k + Z.of_N x).
Proof.
  induction (N.lt_wf_0 x) as [x _ IH].
  destruct (decide (x = 0%N)) as [-> | Hx].
  - exists 1. split; [lia |]. intros s acc. rewrite pretty_N_go_0. f_equal. lia.
  - destruct (IH (x / 10)%N) as (k & Hk & H); [apply N.div_lt; lia |].
    exists (10 * k). split; [lia |]. intros s acc.
    rewrite pretty_N_go_step by lia. rewrite H. cbn [parse_digits].
    rewrite digit_of_pretty_N_char by (apply N.mod_lt; lia). f_equal.
    pose proof (N.div_mod x 10). lia.
Qed.

Lemma Atoi_unsigned (c : ascii) (rest : string) :
  c <> "-"%char -> c <> "+"%char ->
  Atoi (String c rest)
  = match parse_digits (String c rest) 0 with
    | Some n => if (MinInt <=? n) && (n <=? MaxInt) then Some n else None
    | None => None
    end.
Proof.
  intros Hm Hp. destruct c as [[] [] [] [] [] [] [] []]; try reflexivity; done.
Qed.

Lemma parse_digits_pos (p : positive) :
  exists c rest, pretty_N_go (Npos p) "" = String c rest
    /\ c <> "-"%char /\ c <> "+"%char
    /\ parse_digits (String c rest) 0 = Some (Zpos p).
Proof.
  destruct (parse_pretty_N_go (Npos p)) as (k & _ & H). specialize (H "" 0).
  cbn [parse_digits] in H. replace (0 * k + Z.of_N (N.pos p)) with (Z.pos p) in H by lia.
  destruct (pretty_N_go (N.pos p) "") as [| c rest]; [discriminate |].
  exists c, rest. split; [reflexivity |]. split; [| split; [| exact H]].
  - intros ->. discriminate.
  - intros ->. discriminate.
Qed.

Lemma Atoi_fmt_d (n : Z) : MinInt <= n <= MaxInt -> Atoi (fmt_d n) = Some n.
Proof.
  intros Hn. destruct n as [| p | p].
  - reflexivity.
  - unfold fmt_d, pretty, pretty_Z, pretty, pretty_positive, pretty, pretty_N.
    rewrite decide_False by done.
    destruct (parse_digits_pos p) as (c & rest & -> & Hm & Hp & Hparse).
    rewrite Atoi_unsigned, Hparse by done.
    destruct (Z.leb_spec MinInt (Z.pos p)); [| lia].
    destruct (Z.leb_spec (Z.pos p) MaxInt); [reflexivity | lia].
  - unfold fmt_d, pretty, pretty_Z, pretty, pretty_positive, pretty, pretty_N.
    rewrite decide_False by done.
    destruct (parse_digits_pos p) as (c & rest & -> & Hm & Hp & Hparse).
    change (Atoi ("-" +:+ String c rest))
      with (match parse_digits (String c rest) 0 with
            | Some n => if (MinInt <=? - n) && (- n <=? MaxInt) then Some (- n) else None
            | None => None
            end).
    rewrite Hparse.
    destruct (Z.leb_spec MinInt (- Z.pos p)); [| lia].
    destruct (Z.leb_spec (- Z.pos p) MaxInt); [reflexivity | lia].
Qed.

(** X25: the cursor survives the trip from the Gateway to the Worker.
    For every Go int n, the text the Gateway puts in the query,
    [from_seq=%d], is read back as n by [strconv.Atoi] in the Worker;
    so a poll with the cursor n is answered from the metadata and the
    log of the job exactly as [GetEvents] with the cursor n: an error
    for an unknown job, else the stored status and the chunks that
    [GetChunks] selects for n. *)
Theorem poll_cursor_round_trip (w : World) (jobID : string) (n : Z) :
  MinInt <= n <= MaxInt ->
  Atoi (fmt_d n) = Some n
  /\ pollBackendEvents w jobID n
     = match Storage.read_meta (hash_at (storage w) (key_meta jobID)) with
       | None => inr ("backend status: " +:+ fmt_d StatusNotFound)
       | Some meta =>
           inl {| Gateway.bStatus := jm_Status meta;
                  Gateway.bChunks :=
                    map wire_chunk
                      (Storage.GetChunks_loop n (list_at (storage w) (key_chunks jobID)) []) |}
       end.
Proof.
  intros Hn. pose proof (Atoi_fmt_d n Hn) as Hatoi. split; [exact Hatoi |].
  unfold pollBackendEvents. rewrite (run_GetEvents _ _ n) by done.
  by destruct (Storage.read_meta _).
Qed.

Lemma poll_cursor_round_trip_witness :
  Atoi (fmt_d 2) = Some 2
  /\ pollBackendEvents (world_of S1_completed) "job-a" 2
     = match Storage.read_meta
               (hash_at (storage (world_of S1_completed)) (key_meta "job-a")) with
       | None => inr ("backend status: " +:+ fmt_d StatusNotFound)
       | Some meta =>
           inl {| Gateway.bStatus := jm_Status meta;
                  Gateway.bChunks :=
                    map wire_chunk
                      (Storage.GetChunks_loop 2
                         (list_at (storage (world_of S1_completed)) (key_chunks "job-a"))
                         []) |}
       end.
Proof.
  apply (poll_cursor_round_trip (world_of S1_completed) "job-a" 2).
  unfold MinInt, MaxInt. lia.
Defined.

(** ** A log, as the Gateway delivers it *)

Lemma string_app_nil_r (s : string) : s +:+ "" = s.
Proof.
  induction s as [| c s IH]; [done |].
  change (String c s +:+ "") with (String c (s +:+ "")). by rewrite IH.
Qed.

Lemma string_app_assoc (a b c : string) : (a +:+ b) +:+ c = a +:+ (b +:+ c).
Proof.
  induction a as [| x a IH]; [done |].
  change (String x ((a +:+ b) +:+ c) = String x (a +:+ (b +:+ c))). by rewrite IH.
Qed.

Lemma done_ends_head (chunk : ChunkData) (rest : list ChunkData) :
  done_ends (chunk :: rest) -> Done chunk = true ->
  rest = []
  \/ (Error chunk = "" /\ exists failure, rest = [failure] /\ Error failure <> "").
Proof.
  intros H Hd. destruct (H 0%nat chunk eq_refl Hd) as [Hlen | (He & Hlen & failure & Hf & Hne)].
  - left. simpl in Hlen. destruct rest; [done | discriminate].
  - right. split; [exact He |]. exists failure. split; [| exact Hne].
    destruct rest as [| c [| c' rest]]; [discriminate | | simpl in Hlen; lia].
    simpl in Hf. by injection Hf as ->.
Qed.

Lemma done_ends_tail (chunk : ChunkData) (rest : list ChunkData) :
  done_ends (chunk :: rest) -> done_ends rest.
Proof.
  intros H i c Hi Hd.
  destruct (H (S i) c Hi Hd) as [Hlen | (He & Hlen & failure & Hf & Hne)].
  - left. simpl in Hlen. lia.
  - right. split; [exact He |]. split; [simpl in Hlen; lia |]. by exists failure.
Qed.

Lemma well_formed_error (chunk : ChunkData) :
  well_formed chunk -> Error chunk <> "" -> Done chunk = true.
Proof.
  intros (Hdone & _ & _ & Herr) He. apply Hdone. by rewrite Herr.
Qed.

Lemma ended_cons (chunk : ChunkData) (rest : list ChunkData) :
  Done chunk = false -> ended (chunk :: rest) = ended rest.
Proof.
  intros Hd. unfold ended. rewrite last_cons. destruct (last rest); [done |]. by rewrite Hd.
Qed.

Lemma final_reason_cons (chunk : ChunkData) (rest : list ChunkData) :
  FinishReason chunk = "" -> final_reason (chunk :: rest) = final_reason rest.
Proof.
  intros Hd. unfold final_reason. rewrite last_cons. destruct (last rest); [done |].
  by rewrite Hd.
Qed.

Lemma well_formed_open (chunk : ChunkData) :
  well_formed chunk -> Done chunk = false -> FinishReason chunk = "" /\ Error chunk = "".
Proof.
  intros (Hdone & _ & _ & Herr) Hd.
  assert (FinishReason chunk = "") as Hf.
  { destruct (FinishReason chunk) eqn:E; [done |].
    assert (Done chunk = true) by (by apply Hdone). congruence. }
  split; [exact Hf |]. destruct (Error chunk) eqn:E; [done |].
  rewrite Herr in Hf by done. discriminate.
Qed.

Section Delivery.

Variables (chatID : string) (created : Z) (model : string).

(** One pass of the streaming loop over a log. *)
Lemma streamChunks_log (log : list ChunkData) : forall lastSeq,
  StronglySorted seq_lt log ->
  Forall (fun chunk => lastSeq < Seq chunk) log ->
  done_ends log ->
  Forall well_formed log ->
  exists cursor,
    Gateway.streamChunks chatID created model (map wire_chunk log) lastSeq
    = (spec_frames chatID created model (map wire_chunk log), cursor, ended log).
Proof.
  induction log as [| chunk rest IH]; intros lastSeq Hsorted Habove Hlast Hwf.
  - by exists lastSeq.
  - apply StronglySorted_cons in Hsorted as [Hrest Hsorted].
    apply Forall_cons in Habove as [Hc _]. apply Forall_cons in Hwf as [Hw Hwf].
    cbn [map Gateway.streamChunks spec_frames wire_chunk Gateway.bSeq Gateway.bError
           Gateway.bDone].
    destruct (Z.leb_spec (Seq chunk) lastSeq); [lia |].
    destruct (Done chunk) eqn:Hd.
    + exists (Seq chunk).
      destruct (done_ends_head _ _ Hlast Hd) as [-> | (He & failure & -> & Hne)].
      * unfold ended. cbn [last map]. rewrite Hd.
        by destruct (negb (is_empty (Error chunk))).
      * apply Forall_cons in Hwf as [Hwf _].
        unfold ended. cbn [last map]. rewrite (well_formed_error _ Hwf Hne), He.
        reflexivity.
    + destruct (well_formed_open _ Hw Hd) as [_ ->]. cbn [is_empty negb].
      destruct (IH (Seq chunk) Hsorted Hrest (done_ends_tail _ _ Hlast) Hwf) as (cursor & ->).
      exists cursor. by rewrite ended_cons.
Qed.

(** The same for the loop of the non-streaming handler. *)
Lemma gatherChunks_log (log : list ChunkData) : forall lastSeq fullContent,
  StronglySorted seq_lt log ->
  Forall (fun chunk => lastSeq < Seq chunk) log ->
  done_ends log ->
  Forall well_formed log ->
  Forall (fun chunk => Error chunk = "") log ->
  exists cursor,
    Gateway.gatherChunks (map wire_chunk log) lastSeq fullContent ""
    = Gateway.GatherNext cursor (fullContent +:+ concat_deltas log) (final_reason log).
Proof.
  induction log as [| chunk rest IH]; intros lastSeq fullContent Hsorted Habove Hlast Hwf Herr.
  - exists lastSeq. simpl. by rewrite string_app_nil_r.
  - apply StronglySorted_cons in Hsorted as [Hrest Hsorted].
    apply Forall_cons in Habove as [Hc _]. apply Forall_cons in Hwf as [Hw Hwf].
    apply Forall_cons in Herr as [He Herr].
    cbn [map Gateway.gatherChunks wire_chunk Gateway.bSeq Gateway.bError Gateway.bDone
           Gateway.bDelta Gateway.bFinishReason concat_deltas foldr].
    destruct (Z.leb_spec (Seq chunk) lastSeq); [lia |].
    rewrite He. cbn [is_empty negb].
    destruct (Done chunk) eqn:Hd.
    + destruct (done_ends_head _ _ Hlast Hd) as [-> | (_ & failure & -> & Hne)].
      * exists (Seq chunk). cbn [foldr]. by rewrite string_app_nil_r.
      * by apply Forall_cons in Herr as [Hfailure _].
    + destruct (well_formed_open _ Hw Hd) as [Hf _].
      destruct (IH (Seq chunk) (fullContent +:+ Delta chunk) Hsorted Hrest
                  (done_ends_tail _ _ Hlast) Hwf Herr) as (cursor & ->).
      exists cursor. rewrite string_app_assoc, final_reason_cons by done. reflexivity.
Qed.

(** The same for a log whose last chunk carries an error: the loop
    meets that chunk, unless the chunk before it is done. *)
Lemma gatherChunks_failed (log : list ChunkData) (chunk : ChunkData) :
  forall lastSeq fullContent,
    StronglySorted seq_lt log ->
    Forall (fun c => lastSeq < Seq c) log ->
    done_ends log ->
    Forall well_formed log ->
    last log = Some chunk ->
    Error chunk <> "" ->
    exists cursor,
      Gateway.gatherChunks (map wire_chunk log) lastSeq fullContent ""
      = if ended (removelast log)
        then Gateway.GatherNext cursor (fullContent +:+ concat_deltas (removelast log))
               (final_reason (removelast log))
        else Gateway.GatherFailed (Error chunk).
Proof.
  induction log as [| c rest IH]; intros lastSeq fullContent Hsorted Habove Hlast Hwf Hl He;
    [discriminate |].
  apply StronglySorted_cons in Hsorted as [Hrest Hsorted].
  apply Forall_cons in Habove as [Hc _]. apply Forall_cons in Hwf as [Hw Hwf].
  cbn [map Gateway.gatherChunks wire_chunk Gateway.bSeq Gateway.bError Gateway.bDone
         Gateway.bDelta Gateway.bFinishReason].
  destruct (Z.leb_spec (Seq c) lastSeq); [lia |].
  destruct rest as [| c' rest].
  - injection Hl as ->. exists lastSeq. cbn [removelast]. unfold ended. cbn [last].
    by destruct (Error chunk).
  - rewrite last_cons_cons in Hl.
    change (removelast (c :: c' :: rest)) with (c :: removelast (c' :: rest)).
    destruct (Done c) eqn:Hd.
    + destruct (done_ends_head _ _ Hlast Hd) as [? | (Hec & failure & Hf & _)];
        [discriminate |].
      injection Hf as -> ->. exists (Seq c). rewrite Hec. cbn [is_empty negb removelast].
      unfold ended, final_reason. cbn [last concat_deltas foldr]. rewrite Hd.
      by rewrite string_app_nil_r.
    + destruct (well_formed_open _ Hw Hd) as [Hf ->]. cbn [is_empty negb].
      destruct (IH (Seq c) (fullContent +:+ Delta c) Hsorted Hrest (done_ends_tail _ _ Hlast)
                  Hwf Hl He) as (cursor & ->).
      exists cursor. rewrite ended_cons, final_reason_cons by done.
      cbn [concat_deltas foldr]. by rewrite string_app_assoc.
Qed.

Variable Unmarshal : string -> OllamaStreamResponse + string.

(** The first poll of a job whose log has at most 1000 chunks. *)
Lemma first_poll (N : nat) (s : System) (jobID : string) :
  reachable Unmarshal N s ->
  (length (list_at (storage (world s)) (key_chunks jobID)) <= 1000)%nat ->
  pollBackendEvents (world s) jobID (-1)
  = match Storage.read_meta (hash_at (storage (world s)) (key_meta jobID)) with
    | None => inr ("backend status: " +:+ fmt_d StatusNotFound)
    | Some meta =>
        inl {| Gateway.bStatus := jm_Status meta;
               Gateway.bChunks :=
                 map wire_chunk (list_at (storage (world s)) (key_chunks jobID)) |}
    end.
Proof.
  intros Hreach Hlen. unfold pollBackendEvents.
  rewrite (run_GetEvents _ _ (-1)) by reflexivity.
  destruct (Storage.read_meta _) as [meta |]; [| reflexivity].
  cbn [resp_body resp_code er_Status er_Chunks].
  change (StatusOK =? StatusOK) with true. cbv iota.
  rewrite (reachable_page Unmarshal N) by done.
  change (Z.to_nat (-1)) with 0%nat. by rewrite drop_0, take_ge by lia.
Qed.

Lemma reachable_log (N : nat) (s : System) (jobID : string) :
  reachable Unmarshal N s ->
  let log := list_at (storage (world s)) (key_chunks jobID) in
  StronglySorted seq_lt log
  /\ Forall (fun chunk => -1 < Seq chunk) log
  /\ done_ends log
  /\ Forall well_formed log.
Proof.
  intros Hreach log.
  destruct (reachable_Sealed Unmarshal N s Hreach) as (ghosts & seals & Hinv & _ & _ & Hlast).
  destruct Hinv as (_ & Hcoh & _).
  destruct (dense_from _ 1 (coh_dense _ _ _ _ Hcoh jobID)) as [Hall Hsorted].
  destruct (reachable_translated Unmarshal N s Hreach) as [_ Hlogs].
  split; [exact Hsorted |]. split; [| split; [apply Hlast |]].
  - eapply Forall_impl; [exact Hall |]. simpl. lia.
  - eapply Forall_impl; [apply Hlogs |]. apply translated_well_formed.
Qed.

(** X26: the answer to a non-streaming request, from the log.  In every
    state the Worker can reach, for a job that is completed and whose
    log has at most 1000 chunks, none of which carries an error, the
    first poll that goes through ends the request with 200 and the
    envelope whose content is the concatenation of the deltas of the
    whole log, in the order of the log, and whose finish reason is that
    of the last chunk (empty when the log is empty). *)
Theorem completed_job_answer (N : nat) (s : System) (jobID : string)
    (uuid : string) (now : Z) (config : Gateway.Config) (rest : list Gateway.Turn) :
  reachable Unmarshal N s ->
  hash_at (storage (world s)) (key_meta jobID) !! "status" = Some StatusCompleted ->
  (length (list_at (storage (world s)) (key_chunks jobID)) <= 1000)%nat ->
  Forall (fun chunk => Error chunk = "") (list_at (storage (world s)) (key_chunks jobID)) ->
  Gateway.handleNonStreamingChat uuid now model config (Gateway.JobCreated jobID)
    (Gateway.Poll (pollBackendEvents (world s) jobID) :: rest)
  = Some (Gateway.completion uuid now model
            (concat_deltas (list_at (storage (world s)) (key_chunks jobID)))
            (final_reason (list_at (storage (world s)) (key_chunks jobID)))).
Proof.
  intros Hreach Hstatus Hlen Herr.
  cbn [Gateway.handleNonStreamingChat Gateway.gatherLoop].
  rewrite (first_poll N) by done.
  destruct (read_meta_status _ _ Hstatus) as (meta & -> & Hmeta).
  cbn [Gateway.bChunks Gateway.bStatus]. rewrite Hmeta.
  destruct (reachable_log N s jobID Hreach) as (Hsorted & Habove & Hlast & Hwf).
  destruct (gatherChunks_log _ (-1) "" Hsorted Habove Hlast Hwf Herr) as (cursor & ->).
  reflexivity.
Qed.

(** X28: the failure of a job, as a non-streaming request sees it.  In
    every state the Worker can reach, for a job that is known and whose
    log has at most 1000 chunks, the last of which carries an error:
    when the chunk before it is not a done chunk, the first poll that
    goes through ends the request with 500 and the error message of
    that chunk, whatever the stored status says and however much text
    came before; when the chunk before it is a done chunk (the
    response body broke off behind its last record), the loop stops at
    the done chunk and the stored status decides: completed gives 200
    with the text up to the done chunk and its finish reason, failed
    and cancelled give 500 with "job failed" and "job cancelled". *)
Theorem failed_job_answer (N : nat) (s : System) (jobID : string) (chunk : ChunkData)
    (uuid : string) (now : Z) (config : Gateway.Config) (rest : list Gateway.Turn) :
  reachable Unmarshal N s ->
  hash_at (storage (world s)) (key_meta jobID) <> ∅ ->
  (length (list_at (storage (world s)) (key_chunks jobID)) <= 1000)%nat ->
  last (list_at (storage (world s)) (key_chunks jobID)) = Some chunk ->
  Error chunk <> "" ->
  let log := list_at (storage (world s)) (key_chunks jobID) in
  let answer :=
    Gateway.handleNonStreamingChat uuid now model config (Gateway.JobCreated jobID)
      (Gateway.Poll (pollBackendEvents (world s) jobID) :: rest) in
  (ended (removelast log) = false ->
   answer = Some (Gateway.writeError (Error chunk) StatusInternalServerError))
  /\ (ended (removelast log) = true ->
      forall meta,
        Storage.read_meta (hash_at (storage (world s)) (key_meta jobID)) = Some meta ->
        Gateway.is_terminal (jm_Status meta) = true ->
        answer
        = Some (if String.eqb (jm_Status meta) "completed"
                then Gateway.completion uuid now model (concat_deltas (removelast log))
                       (final_reason (removelast log))
                else Gateway.writeError ("job " +:+ jm_Status meta)
                       StatusInternalServerError)).
Proof.
  intros Hreach Hmeta Hlen Hl He log answer. subst answer.
  cbn [Gateway.handleNonStreamingChat Gateway.gatherLoop].
  rewrite (first_poll N) by done.
  destruct (reachable_log N s jobID Hreach) as (Hsorted & Habove & Hlast & Hwf).
  destruct (gatherChunks_failed _ chunk (-1) "" Hsorted Habove Hlast Hwf Hl He)
    as (cursor & Hgather).
  fold log in Hgather. split.
  - intros Hended. rewrite read_meta_found by done.
    cbn [Gateway.bChunks Gateway.bStatus]. fold log. by rewrite Hgather, Hended.
  - intros Hended meta Hm Hterminal. rewrite Hm.
    cbn [Gateway.bChunks Gateway.bStatus]. fold log. rewrite Hgather, Hended.
    unfold Gateway.is_terminal in Hterminal.
    destruct (String.eqb (jm_Status meta) "completed"); [reflexivity |].
    simpl in Hterminal. by rewrite Hterminal.
Qed.

(** X27: the event stream of a job, from the log.  In every state the
    Worker can reach, for a job that is known and whose log has at most
    1000 chunks, the first poll of a streaming request writes the frames
    of the log: one data frame per chunk in the order of the log, up to
    the first chunk that carries an error, which gives an error frame,
    or is done, which gives its data frame and the terminator.  When the
    log has ended the stream is closed; else, when the job is completed,
    failed or cancelled, it is closed by the terminator or by an error
    frame that names the status; else it stays open. *)
Theorem stream_of_log (N : nat) (s : System) (jobID : string) (meta : JobMeta)
    (config : Gateway.Config) :
  reachable Unmarshal N s ->
  Storage.read_meta (hash_at (storage (world s)) (key_meta jobID)) = Some meta ->
  (length (list_at (storage (world s)) (key_chunks jobID)) <= 1000)%nat ->
  Gateway.handleStreamingChat chatID created model config (Gateway.JobCreated jobID) true
    [Gateway.Poll (pollBackendEvents (world s) jobID)]
  = let log := list_at (storage (world s)) (key_chunks jobID) in
    let frames := spec_frames chatID created model (map wire_chunk log) in
    if ended log then Gateway.Stream frames true
    else if Gateway.is_terminal (jm_Status meta) then
      Gateway.Stream
        (frames ++ [if String.eqb (jm_Status meta) "completed" then Gateway.DoneFrame
                    else Gateway.ErrorFrame ("job " +:+ jm_Status meta)]) true
    else Gateway.Stream frames false.
Proof.
  intros Hreach Hmeta Hlen.
  cbn [Gateway.handleStreamingChat negb Gateway.streamLoop].
  rewrite (first_poll N), Hmeta by done. cbn [Gateway.bChunks Gateway.bStatus].
  destruct (reachable_log N s jobID Hreach) as (Hsorted & Habove & Hlast & Hwf).
  destruct (streamChunks_log _ (-1) Hsorted Habove Hlast Hwf) as (cursor & ->).
  cbv zeta. destruct (ended _); [reflexivity |].
  destruct (Gateway.is_terminal (jm_Status meta)); [| by rewrite app_nil_r].
  by destruct (String.eqb (jm_Status meta) "completed").
Qed.

End Delivery.

Lemma sys_run_app Unmarshal (a b : list Action) : forall s,
  sys_run Unmarshal (a ++ b) s
  = match sys_run Unmarshal a s with
    | Some s' => sys_run Unmarshal b s'
    | None => None
    end.
Proof.
  induction a as [| x a IH]; intros s; [reflexivity |]. simpl.
  destruct (sys_step Unmarshal x s); [apply IH | reflexivity].
Qed.

Lemma completed_job_answer_witness :
  exists s, S1_completed = Some s
    /\ Gateway.handleNonStreamingChat "0000" 0 "gpt-oss:20b" sample_config
         (Gateway.JobCreated "job-a")
         (Gateway.Poll (pollBackendEvents (world s) "job-a") :: [])
       = Some (Gateway.completion "0000" 0 "gpt-oss:20b"
                 (concat_deltas (list_at (storage (world s)) (key_chunks "job-a")))
                 (final_reason (list_at (storage (world s)) (key_chunks "job-a")))).
Proof.
  destruct S1_completed as [s |] eqn:E; [| no_run E].
  exists s. split; [reflexivity |].
  assert (Hw : world s = world_of S1_completed) by (by rewrite E).
  apply (completed_job_answer "gpt-oss:20b" hello_unmarshal 1 s "job-a" "0000" 0
           sample_config []).
  - eexists _, _, _. split; [apply started_one | exact E].
  - rewrite Hw. vm_compute. reflexivity.
  - rewrite Hw. apply Nat.leb_le. vm_compute. reflexivity.
  - rewrite Hw. vm_compute. repeat constructor.
Defined.

Lemma failed_job_answer_witness :
  (exists s, S4_finished = Some s
     /\ Gateway.handleNonStreamingChat "0000" 0 "gpt-oss:20b" sample_config
          (Gateway.JobCreated "job-a")
          (Gateway.Poll (pollBackendEvents (world s) "job-a") :: [])
        = Some (Gateway.writeError "cancelled" StatusInternalServerError))
  /\ (exists s, S1_cut = Some s
      /\ Seq <$> list_at (storage (world s)) (key_chunks "job-a") = [1; 2; 3; 4]
      /\ Gateway.handleNonStreamingChat "0000" 0 "gpt-oss:20b" sample_config
           (Gateway.JobCreated "job-a")
           (Gateway.Poll (pollBackendEvents (world s) "job-a") :: [])
         = Some (Gateway.writeError "job failed" StatusInternalServerError)).
Proof.
  split.
  - destruct S4_finished as [s |] eqn:E; [| no_run E].
    exists s. split; [reflexivity |].
    assert (Hw : world s = world_of S4_finished) by (by rewrite E).
    refine (proj1 (failed_job_answer "gpt-oss:20b" hello_unmarshal 1 s "job-a"
                     (error_chunk 2 "cancelled") "0000" 0 sample_config [] _ _ _ _ _) _).
    + unfold S4_finished in E.
      destruct S4_cancelled as [s0 |] eqn:E0; [| discriminate E]. unfold S4_cancelled in E0.
      match type of E0 with
      | sys_run _ ?acts (boot _ _ ?backend ?t0) = _ =>
          exists backend, t0, (acts ++ replicate 6 (Step 0%nat))
      end.
      split; [apply started_one |]. by rewrite sys_run_app, E0.
    + rewrite Hw. apply (lookup_nonempty _ "status" StatusFailed). vm_compute. reflexivity.
    + rewrite Hw. apply Nat.leb_le. vm_compute. reflexivity.
    + rewrite Hw. vm_compute. reflexivity.
    + discriminate.
    + rewrite Hw. vm_compute. reflexivity.
  - destruct S1_cut as [s |] eqn:E; [| no_run E].
    exists s. split; [reflexivity |].
    assert (Hw : world s = world_of S1_cut) by (by rewrite E).
    split; [rewrite Hw; vm_compute; reflexivity |].
    destruct (Storage.read_meta (hash_at (storage (world s)) (key_meta "job-a")))
      as [meta |] eqn:Hm; [| rewrite Hw in Hm; no_run Hm].
    assert (Hstatus : jm_Status meta = "failed").
    { rewrite Hw in Hm. vm_compute in Hm. by injection Hm as <-. }
    assert (Hreach : reachable hello_unmarshal 1 s).
    { eexists _, _, _. split; [apply started_one | exact E]. }
    assert (Hknown : hash_at (storage (world s)) (key_meta "job-a") <> ∅).
    { rewrite Hw. apply (lookup_nonempty _ "status" StatusFailed). vm_compute. reflexivity. }
    assert (Hlen : (length (list_at (storage (world s)) (key_chunks "job-a")) <= 1000)%nat).
    { rewrite Hw. apply Nat.leb_le. vm_compute. reflexivity. }
    assert (Hlast : last (list_at (storage (world s)) (key_chunks "job-a"))
                    = Some (error_chunk 4 "stream error: unexpected EOF")).
    { rewrite Hw. vm_compute. reflexivity. }
    assert (Hended : ended (removelast (list_at (storage (world s)) (key_chunks "job-a")))
                     = true).
    { rewrite Hw. vm_compute. reflexivity. }
    assert (Hne : Error (error_chunk 4 "stream error: unexpected EOF") <> "") by discriminate.
    rewrite (proj2 (failed_job_answer "gpt-oss:20b" hello_unmarshal 1 s "job-a"
                      (error_chunk 4 "stream error: unexpected EOF") "0000" 0
                      sample_config [] Hreach Hknown Hlen Hlast Hne) Hended meta Hm).
    + by rewrite Hstatus.
    + by rewrite Hstatus.
Defined.

Lemma stream_of_log_witness :
  exists s meta, S1_completed = Some s
    /\ Storage.read_meta (hash_at (storage (world s)) (key_meta "job-a")) = Some meta
    /\ Gateway.handleStreamingChat "chatcmpl-0" 0 "gpt-oss:20b" sample_config
         (Gateway.JobCreated "job-a") true
         [Gateway.Poll (pollBackendEvents (world s) "job-a")]
       = let log := list_at (storage (world s)) (key_chunks "job-a") in
         let frames := spec_frames "chatcmpl-0" 0 "gpt-oss:20b" (map wire_chunk log) in
         if ended log then Gateway.Stream frames true
         else if Gateway.is_terminal (jm_Status meta) then
           Gateway.Stream
             (frames ++ [if String.eqb (jm_Status meta) "completed" then Gateway.DoneFrame
                         else Gateway.ErrorFrame ("job " +:+ jm_Status meta)]) true
         else Gateway.Stream frames false.
Proof.
  destruct S1_completed as [s |] eqn:E; [| no_run E].
  assert (Hw : world s = world_of S1_completed) by (by rewrite E).
  destruct (Storage.read_meta (hash_at (storage (world s)) (key_meta "job-a")))
    as [meta |] eqn:Hm; [| rewrite Hw in Hm; no_run Hm].
  exists s, meta. split; [reflexivity |]. split; [exact Hm |].
  apply (stream_of_log "chatcmpl-0" 0 "gpt-oss:20b" hello_unmarshal 1 s "job-a" meta
           sample_config).
  - eexists _, _, _. split; [apply started_one | exact E].
  - exact Hm.
  - rewrite Hw. apply Nat.leb_le. vm_compute. reflexivity.
Defined.

(** ** An answer is final, and the deadline ends the wait *)

Section Deadline.

Variables (chatID : string) (created : Z) (model : string) (uuid : string) (now : Z).
Variable config : Gateway.Config.

Lemma gatherLoop_final (turns more : list Gateway.Turn) :
  forall lastSeq retryDelay fullContent finishReason r,
    Gateway.gatherLoop uuid now model config turns lastSeq retryDelay fullContent finishReason
    = Some r ->
    Gateway.gatherLoop uuid now model config (turns ++ more) lastSeq retryDelay fullContent
      finishReason = Some r.
Proof.
  induction turns as [| [| answer] rest IH];
    intros lastSeq retryDelay fullContent finishReason r; simpl; [discriminate | done |].
  destruct (answer lastSeq) as [events | err]; [| apply IH].
  destruct (Gateway.gatherChunks _ _ _ _) as [message | l c f]; [done |].
  destruct (String.eqb (Gateway.bStatus events) "completed"); [done |].
  destruct (String.eqb (Gateway.bStatus events) "failed"
            || String.eqb (Gateway.bStatus events) "cancelled"); [done | apply IH].
Qed.

Lemma gatherLoop_timeout (turns rest : list Gateway.Turn) :
  forall lastSeq retryDelay fullContent finishReason,
    Gateway.gatherLoop uuid now model config turns lastSeq retryDelay fullContent finishReason
    = None ->
    Gateway.gatherLoop uuid now model config (turns ++ Gateway.Deadline :: rest) lastSeq
      retryDelay fullContent finishReason
    = Some (Gateway.writeError "timeout exceeded" StatusGatewayTimeout).
Proof.
  induction turns as [| [| answer] more IH];
    intros lastSeq retryDelay fullContent finishReason; simpl; [done | discriminate |].
  destruct (answer lastSeq) as [events | err]; [| apply IH].
  destruct (Gateway.gatherChunks _ _ _ _) as [message | l c f]; [discriminate |].
  destruct (String.eqb (Gateway.bStatus events) "completed"); [discriminate |].
  destruct (String.eqb (Gateway.bStatus events) "failed"
            || String.eqb (Gateway.bStatus events) "cancelled"); [discriminate | apply IH].
Qed.

Lemma streamLoop_final (turns more : list Gateway.Turn) :
  forall lastSeq retryDelay frames,
    Gateway.streamLoop chatID created model config turns lastSeq retryDelay = (frames, true) ->
    Gateway.streamLoop chatID created model config (turns ++ more) lastSeq retryDelay
    = (frames, true).
Proof.
  induction turns as [| [| answer] rest IH]; intros lastSeq retryDelay frames; simpl;
    [discriminate | done |].
  destruct (answer lastSeq) as [events | err]; [| apply IH].
  destruct (Gateway.streamChunks _ _ _ _ _) as [[fs l] [|]]; [done |].
  destruct (Gateway.is_terminal (Gateway.bStatus events)); [done |].
  destruct (Gateway.streamLoop chatID created model config rest l _) as [ms [|]] eqn:E;
    [| discriminate].
  intros [= <-]. by rewrite (IH _ _ _ E).
Qed.

Lemma streamLoop_timeout (turns rest : list Gateway.Turn) :
  forall lastSeq retryDelay frames,
    Gateway.streamLoop chatID created model config turns lastSeq retryDelay = (frames, false) ->
    Gateway.streamLoop chatID created model config (turns ++ Gateway.Deadline :: rest) lastSeq
      retryDelay
    = (frames ++ [Gateway.ErrorFrame "timeout exceeded"], true).
Proof.
  induction turns as [| [| answer] more IH]; intros lastSeq retryDelay frames; simpl.
  - by intros [= <-].
  - discriminate.
  - destruct (answer lastSeq) as [events | err]; [| apply IH].
    destruct (Gateway.streamChunks _ _ _ _ _) as [[fs l] [|]]; [discriminate |].
    destruct (Gateway.is_terminal (Gateway.bStatus events)).
    { by destruct (negb (String.eqb (Gateway.bStatus events) "completed")). }
    destruct (Gateway.streamLoop chatID created model config more l _) as [ms [|]] eqn:E;
      [discriminate |].
    intros [= <-]. by rewrite (IH _ _ _ E), app_assoc.
Qed.

(** X29: an answer is final, and the deadline ends the wait.  Once a
    handler has answered after some turns of its loop (the response of a
    non-streaming request, a refusal, or a closed stream), nothing that
    could come later changes it.  While it is still polling, the passing
    of the deadline ends it at the next turn: a non-streaming request is
    answered 504 "timeout exceeded", without any of the text gathered so
    far, and a streaming request gets the frames written so far followed
    by the error frame "timeout exceeded". *)
Theorem answers_are_final (job : Gateway.Creation) (flusher : bool)
    (turns : list Gateway.Turn) :
  match Gateway.handleNonStreamingChat uuid now model config job turns with
  | Some r =>
      forall more,
        Gateway.handleNonStreamingChat uuid now model config job (turns ++ more) = Some r
  | None =>
      forall rest,
        Gateway.handleNonStreamingChat uuid now model config job
          (turns ++ Gateway.Deadline :: rest)
        = Some (Gateway.writeError "timeout exceeded" StatusGatewayTimeout)
  end
  /\ match Gateway.handleStreamingChat chatID created model config job flusher turns with
     | Gateway.Stream frames false =>
         forall rest,
           Gateway.handleStreamingChat chatID created model config job flusher
             (turns ++ Gateway.Deadline :: rest)
           = Gateway.Stream (frames ++ [Gateway.ErrorFrame "timeout exceeded"]) true
     | answer =>
         forall more,
           Gateway.handleStreamingChat chatID created model config job flusher
             (turns ++ more) = answer
     end.
Proof.
  split.
  - unfold Gateway.handleNonStreamingChat. destruct job as [jobID | message | err]; [| done ..].
    destruct (Gateway.gatherLoop _ _ _ _ _ _ _ _ _) as [r |] eqn:E.
    + intros more. by apply gatherLoop_final.
    + intros rest. by apply gatherLoop_timeout.
  - unfold Gateway.handleStreamingChat. destruct job as [jobID | message | err]; [| done ..].
    destruct flusher; [| done]. cbn [negb].
    destruct (Gateway.streamLoop _ _ _ _ _ _ _) as [frames [|]] eqn:E.
    + intros more. by rewrite (streamLoop_final _ more _ _ _ E).
    + intros rest. by rewrite (streamLoop_timeout _ rest _ _ _ E).
Qed.

End Deadline.

(** ** The jobs that wait in the channel *)

Section Waiting.

Variable Unmarshal : string -> OllamaStreamResponse + string.

(** X30: in every state the Worker can reach, the channel holds no job
    id twice, and a job whose id waits in the channel, or whose id has
    not been drawn yet, has produced nothing: its log is empty and its
    sequence counter is 0.  No executor works on a job before it has
    taken the id off the channel. *)
Theorem waiting_jobs_untouched (N : nat) (s : System) (jobID : string) :
  reachable Unmarshal N s ->
  jobID ∈ queue (worker (world s)) \/ jobID ∉ issued s ->
  NoDup (queue (worker (world s)))
  /\ list_at (storage (world s)) (key_chunks jobID) = []
  /\ counter_at (storage (world s)) (key_seq jobID) = 0.
Proof.
  intros Hreach Hjob. destruct (reachable_Inv _ _ _ Hreach) as (ghosts & _ & Hcoh & _).
  split; [apply (coh_queue_nodup _ _ _ _ Hcoh) |].
  destruct Hjob as [Hq | Hfresh].
  - by apply (coh_queued _ _ _ _ Hcoh).
  - by apply (coh_fresh _ _ _ _ Hcoh).
Qed.

End Waiting.

Lemma waiting_jobs_untouched_witness :
  exists s, S1_queued = Some s
    /\ NoDup (queue (worker (world s)))
    /\ list_at (storage (world s)) (key_chunks "job-a") = []
    /\ counter_at (storage (world s)) (key_seq "job-a") = 0.
Proof.
  destruct S1_queued as [s |] eqn:E; [| no_run E].
  exists s. split; [reflexivity |].
  apply (waiting_jobs_untouched hello_unmarshal 1 s "job-a").
  - eexists _, _, _. split; [apply started_one | exact E].
  - left. replace (world s) with (world_of S1_queued) by (by rewrite E).
    apply (list_elem_of_lookup_2 _ 0%nat). vm_compute. reflexivity.
Defined.
